(** * Series tracker: text codec and update engine

    A shallow embedding of the three programs of the repository:

    - [Series_Tracker.py]       (module [Tracker]):  [update_series_chapter]
                                (module [Shell]):    the menu and its handlers
    - the tracker with the quick-update menu (module [QuickShell])
    - the oldest tracker, with [int] chapters  (module [IntTracker])
    - [Series Data Importer.py] (module [Importer]): [parse_series_data]
    - [export_series.py]        (module [Exporter]): [format_data_to_text]

    together with the Python built-ins they call (module [Py]).

    Text is modelled over the code points below 256: a Python [str] is a
    list of 8-bit characters, each read as the code point of that number.
    A Python [float] is an IEEE 754 binary64 value, taken from the standard
    library's [spec_float].  A Python [dict] is an association list in
    insertion order with pairwise different keys. *)

From Stdlib Require Import List ZArith Lia Bool Ascii String Permutation Sorted.
From Stdlib Require Import Floats.SpecFloat.
From Stdlib Require Import DecimalN.
Import ListNotations.

Local Open Scope char_scope.
Local Open Scope list_scope.

(* ================================================================== *)
(** * Python built-ins used by the programs *)
(* ================================================================== *)

Module Py.

Definition str := list ascii.

(** String literals of the source are written [txt "..."]. *)
Definition txt (s : string) : str := list_ascii_of_string s.

Definition code (c : ascii) : N := N_of_ascii c.

Definition NUL : ascii := ascii_of_N 0.
Definition LF : ascii := ascii_of_N 10.

(** [str.isspace] on one character ([Py_UNICODE_ISSPACE]); it is also the
    class [\s] of [re] on [str] patterns. *)
Definition isspace (c : ascii) : bool :=
  let n := code c in
  (((9 <=? n) && (n <=? 13)) || ((28 <=? n) && (n <=? 32))
   || (n =? 133) || (n =? 160))%N.

Definition nonspace (c : ascii) : bool := negb (isspace c).

(** The class [\d] of [re]: below code point 256 the decimal digits are
    [0] to [9] only. *)
Definition is_digit (c : ascii) : bool :=
  ((48 <=? code c) && (code c <=? 57))%N.

Definition str_eqb (a b : str) : bool :=
  if list_eq_dec ascii_dec a b then true else false.

(** [x in l] for a list of strings. *)
Definition str_in (x : str) (l : list str) : bool := existsb (str_eqb x) l.

Fixpoint lstrip (s : str) : str :=
  match s with
  | [] => []
  | c :: s' => if isspace c then lstrip s' else s
  end.

Definition rstrip (s : str) : str := rev (lstrip (rev s)).

(** [s.strip()] *)
Definition strip (s : str) : str := rstrip (lstrip s).

(** The pieces [l] with the text [p] put before the first of them. *)
Definition push_front (p : str) (l : list str) : list str :=
  match l with
  | [] => [p]
  | w :: ws => (p ++ w) :: ws
  end.

(** [s.split(sep)] for a separator of one character. *)
Fixpoint split (sep : ascii) (s : str) : list str :=
  match s with
  | [] => [[]]
  | c :: s' =>
      if (c =? sep)%char then [] :: split sep s'
      else push_front [c] (split sep s')
  end.

(** [sep.join(l)] *)
Fixpoint join (sep : str) (l : list str) : str :=
  match l with
  | [] => []
  | x :: l' =>
      match l' with
      | [] => x
      | _ :: _ => x ++ sep ++ join sep l'
      end
  end.

Fixpoint startswith (pat s : str) : bool :=
  match pat, s with
  | [], _ => true
  | _ :: _, [] => false
  | p :: pat', c :: s' => (p =? c)%char && startswith pat' s'
  end.

(** [pat in s] for strings. *)
Fixpoint contains (pat s : str) : bool :=
  startswith pat s ||
  match s with
  | [] => false
  | _ :: s' => contains pat s'
  end.

(** [s.endswith(suffix)] *)
Definition endswith (suffix s : str) : bool :=
  startswith (rev suffix) (rev s).

(** [str.lower] on one character: the upper-case letters below 256 are
    [A]-[Z] and U+00C0-U+00DE without U+00D7, each 32 below its lower-case
    form. *)
Definition lower_char (c : ascii) : ascii :=
  let n := code c in
  if (((65 <=? n) && (n <=? 90))
      || ((192 <=? n) && (n <=? 222) && negb (n =? 215)))%N
  then ascii_of_N (n + 32) else c.

Definition lower (s : str) : str := map lower_char s.

(** [a < b] on strings: lexicographic on code points. *)
Fixpoint str_ltb (a b : str) : bool :=
  match a, b with
  | _, [] => false
  | [], _ :: _ => true
  | x :: a', y :: b' =>
      if (code x <? code y)%N then true
      else if (code y <? code x)%N then false
      else str_ltb a' b'
  end.

(** ** Dictionaries *)

Definition dict (V : Type) := list (str * V).

Fixpoint dict_get {V : Type} (k : str) (d : dict V) : option V :=
  match d with
  | [] => None
  | (k', v) :: d' => if str_eqb k' k then Some v else dict_get k d'
  end.

(** [d[k] = v]: an existing key keeps its place, a new key goes last. *)
Fixpoint dict_set {V : Type} (k : str) (v : V) (d : dict V) : dict V :=
  match d with
  | [] => [(k, v)]
  | (k', v') :: d' =>
      if str_eqb k' k then (k', v) :: d' else (k', v') :: dict_set k v d'
  end.

Definition dict_mem {V : Type} (k : str) (d : dict V) : bool :=
  match dict_get k d with Some _ => true | None => false end.

Definition keys {V : Type} (d : dict V) : list str := map fst d.

(** [sorted(items, key=f)]: the stable sort by [f]; an item goes before the
    first item of the sorted rest whose key is not smaller than its own. *)
Fixpoint insert_by {A : Type} (f : A -> str) (x : A) (l : list A) : list A :=
  match l with
  | [] => [x]
  | y :: l' => if str_ltb (f y) (f x) then y :: insert_by f x l' else x :: l
  end.

Fixpoint sorted {A : Type} (f : A -> str) (l : list A) : list A :=
  match l with
  | [] => []
  | x :: l' => insert_by f x (sorted f l')
  end.

(** [b] does not go before [a]: its key is not smaller. *)
Definition not_before {A : Type} (f : A -> str) (a b : A) : Prop :=
  str_ltb (f b) (f a) = false.

(** ** Floats *)

Definition float := spec_float.

Definition prec : Z := 53.
Definition emax : Z := 1024.

Definition float_ltb : float -> float -> bool := SFltb.
Definition float_eqb : float -> float -> bool := SFeqb.

Definition float_zero : float := S754_zero false.

(** The binary64 value nearest to [num / den] (both positive), ties to
    even, with overflow to infinity and underflow to zero. *)
Definition float_of_ratio (sg : bool) (num den : Z) : float :=
  let '(q, e, l) := SFdiv_core_binary prec emax num 0 den 0 in
  binary_round_aux prec emax sg q e l.

(** The binary64 value nearest to [m * 10 ^ e10], for [0 <= m]. *)
Definition float_of_decimal (sg : bool) (m e10 : Z) : float :=
  if (m =? 0)%Z then S754_zero sg
  else if (0 <=? e10)%Z then float_of_ratio sg (m * 10 ^ e10) 1
  else float_of_ratio sg m (10 ^ (- e10)).

Definition digit_value (c : ascii) : Z := Z.of_N (code c) - 48.

Definition Z_of_digits (ds : str) : Z :=
  fold_left (fun acc c => 10 * acc + digit_value c)%Z ds 0%Z.

(** [float(s)] begins by mapping white space above code point 126 to a
    blank and cutting the text at the first other character above 126,
    which it replaces by a question mark. *)
Fixpoint transform_decimal_and_space (s : str) : str :=
  match s with
  | [] => []
  | c :: s' =>
      if (code c <? 127)%N then c :: transform_decimal_and_space s'
      else if isspace c then " " :: transform_decimal_and_space s'
      else ["?"]
  end.

(** Underscores are dropped; one is allowed only between two digits. *)
Fixpoint drop_underscores (prev : ascii) (s : str) : option str :=
  match s with
  | [] => if (prev =? "_")%char then None else Some []
  | c :: s' =>
      if (c =? "_")%char then
        if is_digit prev then drop_underscores c s' else None
      else if (prev =? "_")%char && negb (is_digit c) then None
      else option_map (cons c) (drop_underscores c s')
  end.

(** [Py_ISSPACE]: the white space of the C locale. *)
Definition is_c_space (c : ascii) : bool :=
  (((9 <=? code c) && (code c <=? 13)) || (code c =? 32))%N.

Fixpoint c_lstrip (s : str) : str :=
  match s with
  | [] => []
  | c :: s' => if is_c_space c then c_lstrip s' else s
  end.

Definition c_strip (s : str) : str := rev (c_lstrip (rev (c_lstrip s))).

Definition take_sign (s : str) : bool * str :=
  match s with
  | "-" :: s' => (true, s')
  | "+" :: s' => (false, s')
  | _ => (false, s)
  end.

Fixpoint span_digits (s : str) : str * str :=
  match s with
  | [] => ([], [])
  | c :: s' =>
      if is_digit c then let (d, r) := span_digits s' in (c :: d, r)
      else ([], s)
  end.

Definition is_nil {A : Type} (l : list A) : bool :=
  match l with [] => true | _ :: _ => false end.

(** The decimal grammar of [float]: sign, digits with an optional point (a
    digit on one side at least), an optional exponent; all of the text.
    The result is the sign, the digits before and after the point, and
    the exponent. *)
Definition scan_decimal (s : str) : option (bool * str * str * Z) :=
  let (sg, s1) := take_sign s in
  let (ip, s2) := span_digits s1 in
  let (fp, s3) :=
    match s2 with
    | "." :: r => span_digits r
    | _ => ([], s2)
    end in
  if is_nil ip && is_nil fp then None
  else
    match s3 with
    | [] => Some (sg, ip, fp, 0%Z)
    | e :: s4 =>
        if (e =? "e")%char || (e =? "E")%char then
          let (esg, s5) := take_sign s4 in
          let (ed, s6) := span_digits s5 in
          if negb (is_nil ed) && is_nil s6
          then Some (sg, ip, fp, cond_Zopp esg (Z_of_digits ed))
          else None
        else None
    end.

(** [Py_TOLOWER] *)
Definition c_tolower (c : ascii) : ascii :=
  if ((65 <=? code c) && (code c <=? 90))%N
  then ascii_of_N (code c + 32) else c.

Definition parse_inf_or_nan (s : str) : option float :=
  let (sg, s1) := take_sign s in
  let l := map c_tolower s1 in
  if str_eqb l (txt "inf") || str_eqb l (txt "infinity")
  then Some (S754_infinity sg)
  else if str_eqb l (txt "nan") then Some S754_nan
  else None.

(** [float(s)] for a string [s]; [None] stands for [ValueError]. *)
Definition float_of_str (s : str) : option float :=
  match drop_underscores NUL (transform_decimal_and_space s) with
  | None => None
  | Some t =>
      let u := c_strip t in
      match scan_decimal u with
      | Some (sg, ip, fp, ex) =>
          Some (float_of_decimal sg (Z_of_digits (ip ++ fp))
                  (ex - Z.of_nat (List.length fp)))
      | None => parse_inf_or_nan u
      end
  end.

(** *** [repr] of a float, which is also [str] and the [{x}] of an f-string

    The digits are the shortest decimal that [float] reads back as the
    same value and, among those, the nearest to the value. *)

Fixpoint str_of_uint (d : Decimal.uint) : str :=
  match d with
  | Decimal.Nil => []
  | Decimal.D0 d' => "0" :: str_of_uint d'
  | Decimal.D1 d' => "1" :: str_of_uint d'
  | Decimal.D2 d' => "2" :: str_of_uint d'
  | Decimal.D3 d' => "3" :: str_of_uint d'
  | Decimal.D4 d' => "4" :: str_of_uint d'
  | Decimal.D5 d' => "5" :: str_of_uint d'
  | Decimal.D6 d' => "6" :: str_of_uint d'
  | Decimal.D7 d' => "7" :: str_of_uint d'
  | Decimal.D8 d' => "8" :: str_of_uint d'
  | Decimal.D9 d' => "9" :: str_of_uint d'
  end.

Definition str_of_N (n : N) : str := str_of_uint (N.to_uint n).

(** [10 ^ k <= num / den] *)
Definition pow10_le (k num den : Z) : bool :=
  if (0 <=? k)%Z then (10 ^ k * den <=? num)%Z
  else (den <=? num * 10 ^ (- k))%Z.

Fixpoint search_down (fuel : nat) (k num den : Z) : Z :=
  match fuel with
  | O => k
  | S fuel' =>
      if pow10_le k num den then k else search_down fuel' (k - 1) num den
  end.

(** The greatest [k] with [10 ^ k <= num / den]; the estimate from the
    binary logarithms is at most two away from it. *)
Definition floor_log10 (num den : Z) : Z :=
  let est := ((Z.log2 num - Z.log2 den) * 30103 / 100000)%Z in
  search_down 5 (est + 2) num den.

Definition reads_back (m : positive) (e : Z) (d k : Z) : bool :=
  match float_of_decimal false d k with
  | S754_finite false m' e' => Pos.eqb m m' && Z.eqb e e'
  | _ => false
  end.

(** The decimal [d * 10 ^ k] of [n] digits that stands for [m * 2 ^ e], if
    there is one: of the two decimals around the value, the one that reads
    back, the nearer one when both do. *)
Definition digits_at (m : positive) (e : Z) (n : Z) : option (Z * Z) :=
  let (num, den) :=
    if (0 <=? e)%Z then (Zpos m * 2 ^ e, 1)%Z else (Zpos m, 2 ^ (- e))%Z in
  let k := (floor_log10 num den - (n - 1))%Z in
  let (snum, sden) :=
    if (0 <=? k)%Z then (num, den * 10 ^ k)%Z else (num * 10 ^ (- k), den)%Z in
  let lo := (snum / sden)%Z in
  let hi := (lo + 1)%Z in
  let low_nearer :=
    match (2 * snum ?= (2 * lo + 1) * sden)%Z with
    | Lt => true
    | Eq => Z.even lo
    | Gt => false
    end in
  match reads_back m e lo k, reads_back m e hi k with
  | true, true => Some (if low_nearer then lo else hi, k)
  | true, false => Some (lo, k)
  | false, true => Some (hi, k)
  | false, false => None
  end.

(** The decimal of the fewest digits, from [n] digits on, that reads
    back.  A binary64 value has one of 17 digits at most; should the
    search end without one, the digits are those of the value itself,
    [m * 2 ^ e = m * 5 ^ (- e) * 10 ^ e]. *)
Fixpoint shortest_digits (fuel : nat) (m : positive) (e : Z) (n : Z)
  : Z * Z :=
  match fuel with
  | O =>
      if (0 <=? e)%Z then (Zpos m * 2 ^ e, 0)%Z
      else (Zpos m * 5 ^ (- e), e)%Z
  | S fuel' =>
      match digits_at m e n with
      | Some r => r
      | None => shortest_digits fuel' m e (n + 1)
      end
  end.

Fixpoint drop_zeros (r : str) : str :=
  match r with
  | "0" :: r' => drop_zeros r'
  | _ => r
  end.

Definition pad2 (s : str) : str :=
  match s with
  | [c] => ["0"; c]
  | _ => s
  end.

(** The layout of [repr]: exponent form when the decimal point would stand
    more than 16 places right of the first digit or more than 3 left of
    it, else positional with at least one digit after the point. *)
Definition repr_layout (digits : str) (decpt : Z) : str :=
  let n := Z.of_nat (List.length digits) in
  if (decpt <=? -4)%Z || (16 <? decpt)%Z then
    let ex := (decpt - 1)%Z in
    firstn 1 digits
    ++ (if (1 <? n)%Z then "." :: skipn 1 digits else [])
    ++ ["e"; if (ex <? 0)%Z then "-" else "+"]
    ++ pad2 (str_of_N (Z.abs_N ex))
  else if (decpt <=? 0)%Z then
    txt "0." ++ repeat "0" (Z.to_nat (- decpt)) ++ digits
  else if (n <=? decpt)%Z then
    digits ++ repeat "0" (Z.to_nat (decpt - n)) ++ txt ".0"
  else
    firstn (Z.to_nat decpt) digits ++ "." :: skipn (Z.to_nat decpt) digits.

Definition float_repr (x : float) : str :=
  match x with
  | S754_nan => txt "nan"
  | S754_infinity sg => if sg then txt "-inf" else txt "inf"
  | S754_zero sg => if sg then txt "-0.0" else txt "0.0"
  | S754_finite sg m e =>
      let (d, k) := shortest_digits 17 m e 1 in
      let all := str_of_N (Z.to_N d) in
      let digits := rev (drop_zeros (rev all)) in
      (if sg then ["-"] else [])
      ++ repr_layout digits (k + Z.of_nat (List.length all))
  end.

End Py.

Import Py.

(* ================================================================== *)
(** * The stored data *)
(* ================================================================== *)

(** The JSON document is a dictionary from series names to dictionaries
    with the keys ["chapter"] and ["category"]; the programs read both
    keys with [dict.get] and a default, so either may be absent. *)
Module Store.

Record info : Type := { chapter : option float; category : option str }.

Definition store := dict info.

Definition entry (c : float) (cat : str) : info :=
  {| chapter := Some c; category := Some cat |}.

End Store.

Import Store.

(* ================================================================== *)
(** * Series_Tracker.py *)
(* ================================================================== *)

(** [update_series_chapter] has the same text in the tracker variant with
    the quick-update menu.  The oldest variant reads the chapter with
    [int] instead of [float]; it is the module [IntTracker]. *)

Module Tracker.

Definition CATEGORIES : list str :=
  [txt "Manga"; txt "Manhwa"; txt "Manhua"; txt "Other"].

(** What the function prints, one constructor for each [print] of the
    source, with the values its text is built from. *)
Inductive message : Type :=
| ErrInvalidCategory (category : str)
| ErrNegativeChapter
| ErrInvalidChapterNumber
| Added (series_name category : str) (chapter_number : float)
| Progressed (series_name : str) (old_chapter chapter_number : float)
    (category_change : option (str * str))
| CategoryChanged (series_name : str) (chapter_number : float)
    (category : str)
| NoChange (series_name : str) (chapter_number : float)
| Corrected (series_name : str) (old_chapter chapter_number : float)
    (category_change : option (str * str)).

(** The effects of a call in their order: a [print] of one of the
    messages above, or the call [save_series_data(series_data)] with the
    whole dictionary.  [Save] stands for that call, not for its outcome:
    the write may fail, and [save_series_data] then prints an error of
    its own and returns; the shell below models both outcomes. *)
Inductive event : Type :=
| Print (m : message)
| Save (data : store).

(** [update_series_chapter(series_name, chapter_number, category,
    series_data, auto_save)]: the value returned, the dictionary after the
    call and the effects. *)
Definition update_series_chapter
  (series_name chapter_number category : str) (series_data : store)
  (auto_save : bool) : bool * store * list event :=
  if negb (str_in category CATEGORIES) then
    (false, series_data, [Print (ErrInvalidCategory category)])
  else
    match float_of_str chapter_number with
    | None => (false, series_data, [Print ErrInvalidChapterNumber])
    | Some chapter_number =>
        if float_ltb chapter_number float_zero then
          (false, series_data, [Print ErrNegativeChapter])
        else
          let is_new := negb (dict_mem series_name series_data) in
          let old_data :=
            match dict_get series_name series_data with
            | Some i => i
            | None => entry float_zero category
            end in
          let old_chapter :=
            match Store.chapter old_data with
            | Some c => c
            | None => float_zero
            end in
          let old_category :=
            match Store.category old_data with
            | Some c => c
            | None => category
            end in
          let series_data :=
            dict_set series_name (entry chapter_number category)
              series_data in
          let saved := if auto_save then [Save series_data] else [] in
          let feedback :=
            if is_new then Added series_name category chapter_number
            else
              let category_change :=
                if negb (str_eqb category old_category)
                then Some (old_category, category) else None in
              if float_ltb old_chapter chapter_number then
                Progressed series_name old_chapter chapter_number
                  category_change
              else if float_eqb chapter_number old_chapter
                      && negb (str_eqb category old_category) then
                CategoryChanged series_name chapter_number category
              else if float_eqb chapter_number old_chapter then
                NoChange series_name chapter_number
              else
                Corrected series_name old_chapter chapter_number
                  category_change in
          (true, series_data, saved ++ [Print feedback])
    end.

(** A chapter that is a non-negative real number: a zero or a positive
    finite value, neither an infinity nor a NaN. *)
Definition nonneg_real (c : float) : bool :=
  match c with
  | S754_zero _ => true
  | S754_finite sg _ _ => negb sg
  | S754_infinity _ => false
  | S754_nan => false
  end.

Definition chapters_nonneg_real (series_data : store) : Prop :=
  forall series_name inf c,
    In (series_name, inf) series_data -> Store.chapter inf = Some c ->
    nonneg_real c = true.

(** The record store's [get(name)]. *)
Definition get (series_name : str) (series_data : store) : option info :=
  dict_get series_name series_data.

Definition returned (r : bool * store * list event) : bool := fst (fst r).
Definition data_after (r : bool * store * list event) : store :=
  snd (fst r).
Definition effects (r : bool * store * list event) : list event := snd r.

End Tracker.

(* ================================================================== *)
(** * Series Data Importer.py *)
(* ================================================================== *)

Module Importer.

Definition CATEGORIES : list str :=
  [txt "Manga"; txt "Manhwa"; txt "Manhua"; txt "Other"].

Definition is_digit_or_dot (c : ascii) : bool :=
  is_digit c || (c =? ".")%char.

(** The end of the pattern, [([\d\.]+)$]: digits and dots up to the end
    of the text, or up to a line feed that ends the text. *)
Definition chapter_group (s : str) : option str :=
  let body :=
    match rev s with
    | c :: r => if (c =? LF)%char then rev r else s
    | [] => s
    end in
  if negb (is_nil body) && forallb is_digit_or_dot body
  then Some body else None.

(** What follows the first group, [\s*-\s*ep:\s*([\d\.]+)$].  White space,
    the hyphen, the letters and the digits exclude one another, so each
    greedy [\s*] takes all the white space there is. *)
Definition pattern_tail (s : str) : option str :=
  match lstrip s with
  | "-" :: s1 =>
      match lstrip s1 with
      | "e" :: "p" :: ":" :: s2 => chapter_group (lstrip s2)
      | _ => None
      end
  | _ => None
  end.

(** The first group, [(.+?)]: the shortest run of characters other than
    line feed, one at least, after which the rest of the pattern
    matches. *)
Fixpoint lazy_group (g1 rest : str) : option (str * str) :=
  match pattern_tail rest with
  | Some g2 => Some (g1, g2)
  | None =>
      match rest with
      | [] => None
      | c :: rest' =>
          if (c =? LF)%char then None else lazy_group (g1 ++ [c]) rest'
      end
  end.

(** [SERIES_LINE_PATTERN.match(line)], the pattern being
    [^(.+?)\s*-\s*ep:\s*([\d\.]+)$]: groups 1 and 2 of the match. *)
Definition SERIES_LINE_PATTERN (line : str) : option (str * str) :=
  match line with
  | [] => None
  | c :: rest => if (c =? LF)%char then None else lazy_group [c] rest
  end.

Inductive notice : Type :=
| StartingParse
| FoundCategory (current_category : str)
| SkippingInvalidChapter (series_name chapter_str : str).

(** The variables of the loop of [parse_series_data] and what it has
    printed. *)
Record state : Type :=
  { series_data : store; current_category : str; printed : list notice }.

(** [line.split(':')[0].strip()] *)
Definition category_name (line : str) : str := strip (hd [] (split ":" line)).

(** One turn of the loop [for line in lines]. *)
Definition parse_line (st : state) (line : str) : state :=
  let line := strip line in
  if is_nil line || contains (txt "-----") line then st
  else if endswith (txt ":") line then
    let category_name := category_name line in
    if str_in category_name CATEGORIES then
      {| series_data := series_data st;
         current_category := category_name;
         printed := printed st ++ [FoundCategory category_name] |}
    else st
  else
    match SERIES_LINE_PATTERN line with
    | Some (g1, g2) =>
        let series_name := strip g1 in
        let chapter_str := strip g2 in
        match float_of_str chapter_str with
        | None =>
            {| series_data := series_data st;
               current_category := current_category st;
               printed :=
                 printed st
                 ++ [SkippingInvalidChapter series_name chapter_str] |}
        | Some chapter_number =>
            {| series_data :=
                 dict_set series_name
                   (entry chapter_number (current_category st))
                   (series_data st);
               current_category := current_category st;
               printed := printed st |}
        end
    | None => st
    end.

Definition initial : state :=
  {| series_data := [];
     current_category := txt "Other";
     printed := [StartingParse] |}.

Definition lines_of (text_content : str) : list str :=
  split LF (strip text_content).

Definition run (lines : list str) : state := fold_left parse_line lines initial.

(** [parse_series_data(text_content)] *)
Definition parse_series_data (text_content : str) : store :=
  series_data (run (lines_of text_content)).

(** The category that a line makes the loop switch to, if it does: the
    line reaches the test of the colon and its name is in the list. *)
Definition header_of (line : str) : option str :=
  let line := strip line in
  if is_nil line || contains (txt "-----") line then None
  else if endswith (txt ":") line && str_in (category_name line) CATEGORIES
  then Some (category_name line)
  else None.

(** The name and chapter that a line makes the loop store, if it does:
    the line reaches the pattern, the pattern matches and [float] reads
    the second group. *)
Definition series_of (line : str) : option (str * float) :=
  let line := strip line in
  if is_nil line || contains (txt "-----") line || endswith (txt ":") line
  then None
  else
    match SERIES_LINE_PATTERN line with
    | Some (g1, g2) =>
        match float_of_str (strip g2) with
        | Some chapter_number => Some (strip g1, chapter_number)
        | None => None
        end
    | None => None
    end.

End Importer.

(* ================================================================== *)
(** * export_series.py *)
(* ================================================================== *)

Module Exporter.

Definition CATEGORIES : list str :=
  [txt "Manga"; txt "Manhwa"; txt "Manhua"; txt "Other"].

Definition SEPARATOR : str :=
  txt "--------------------------------------------".

Definition NO_SERIES : str :=
  txt "Lecture:" ++ [LF; LF] ++ SEPARATOR ++ [LF; LF]
  ++ txt "[No series tracked]".

Definition heading : list str :=
  [txt "Lecture:"; []; []; []; SEPARATOR; []; []].

Definition lookup (category : str) (grouped_data : dict store) : store :=
  match dict_get category grouped_data with
  | Some d => d
  | None => []
  end.

(** One turn of [for series_name, info in data.items()]. *)
Definition group_step (grouped_data : dict store) (item : str * info)
  : dict store :=
  let (series_name, inf) := item in
  let category :=
    match Store.category inf with
    | Some c => c
    | None => txt "Other"
    end in
  let category :=
    if str_in category CATEGORIES then category else txt "Other" in
  dict_set category (dict_set series_name inf (lookup category grouped_data))
    grouped_data.

Definition group (data : store) : dict store :=
  fold_left group_step data (map (fun cat => (cat, [])) CATEGORIES).

Definition series_line (series : str) (inf : info) : str :=
  let chapter :=
    match Store.chapter inf with
    | Some c => c
    | None => float_zero
    end in
  series ++ txt "- ep: " ++ float_repr chapter.

Definition series_entry (item : str * info) : list str :=
  [series_line (fst item) (snd item); []; []; []].

Definition sort_key (item : str * info) : str := lower (fst item).

(** One turn of [for category_name in CATEGORIES]. *)
Definition category_step (grouped_data : dict store)
  (output_lines : list str) (category_name : str) : list str :=
  let series_in_category := lookup category_name grouped_data in
  if is_nil series_in_category then output_lines
  else
    output_lines
    ++ [category_name ++ txt " :"; []; []; []]
    ++ flat_map series_entry (sorted sort_key series_in_category)
    ++ [SEPARATOR; []; []; []].

(** The lines that the loop adds for one category. *)
Definition block (grouped_data : dict store) (category_name : str)
  : list str :=
  category_step grouped_data [] category_name.

(** A blank line or a separator line. *)
Definition ignorable (l : str) : Prop := l = [] \/ l = SEPARATOR.

(** [while output_lines and output_lines[-1] == "": output_lines.pop()],
    on the reversed list. *)
Fixpoint pop_blank (r : list str) : list str :=
  match r with
  | [] :: r' => pop_blank r'
  | _ => r
  end.

(** [if output_lines and output_lines[-1] == SEPARATOR: output_lines.pop()],
    on the reversed list. *)
Definition pop_separator (r : list str) : list str :=
  match r with
  | x :: r' => if str_eqb x SEPARATOR then r' else r
  | [] => []
  end.

(** The list [output_lines] when the function joins it. *)
Definition output_lines (data : store) : list str :=
  let all := fold_left (category_step (group data)) CATEGORIES heading in
  rev (pop_separator (pop_blank (rev all))).

(** [format_data_to_text(data)] *)
Definition format_data_to_text (data : store) : str :=
  if is_nil data then NO_SERIES else join [LF] (output_lines data).

End Exporter.

(* ================================================================== *)
(** * Stores that the text format carries *)
(* ================================================================== *)

Module Codec.

(** A name that a series line gives back: not empty, without line feed,
    without white space at either end, and such that the name followed
    by the hyphen of the line holds no run of five hyphens. *)
Definition portable_name (name : str) : Prop :=
  name <> [] /\ strip name = name /\ ~ In LF name
  /\ contains (txt "-----") (name ++ txt "-") = false.

(** A chapter that a series line gives back: a binary64 value whose text
    has digits and dots only. *)
Definition plain_chapter (c : float) : Prop :=
  valid_binary prec emax c = true
  /\ forallb Importer.is_digit_or_dot (float_repr c) = true.

(** A record that the text format carries under the category [cat]. *)
Definition portable_in (cat : str) (item : str * info) : Prop :=
  portable_name (fst item)
  /\ exists c, snd item = entry c cat /\ plain_chapter c.

Definition portable (item : str * info) : Prop :=
  exists cat, In cat Exporter.CATEGORIES /\ portable_in cat item.

(** [d[name] = info] for an item [(name, info)]. *)
Definition put (d : store) (item : str * info) : store :=
  dict_set (fst item) (snd item) d.

(** The category under which the exporter files a record. *)
Definition filed_under (item : str * info) : str :=
  let category :=
    match Store.category (snd item) with
    | Some c => c
    | None => txt "Other"
    end in
  if str_in category Exporter.CATEGORIES then category else txt "Other".

End Codec.

(* ================================================================== *)
(** * Notions used to state further properties *)
(* ================================================================== *)

Module Notions.

(** A chapter that is a non-negative real number or the positive
    infinity. *)
Definition nonneg_or_inf (c : float) : bool :=
  match c with
  | S754_zero _ => true
  | S754_finite sg _ _ => negb sg
  | S754_infinity sg => negb sg
  | S754_nan => false
  end.

(** The keys of a dictionary after [k] has been assigned. *)
Definition seen (ks : list str) (k : str) : list str :=
  if str_in k ks then ks else ks ++ [k].

(** The names that the lines make the importer store, in their order. *)
Definition stored_names (lines : list str) : list str :=
  flat_map
    (fun l =>
       match Importer.series_of l with
       | Some (name, _) => [name]
       | None => []
       end)
    lines.

(** A record as the exporter reads it: a missing chapter is [0.0], a
    missing or unlisted category is [Other]. *)
Definition as_exported (item : str * info) : str * info :=
  (fst item,
   entry
     match Store.chapter (snd item) with
     | Some c => c
     | None => float_zero
     end
     (Codec.filed_under item)).

(** The same key: neither is smaller. *)
Definition same_key {A : Type} (f : A -> str) (k : str) (x : A) : bool :=
  str_eqb (f x) k.

(** A decimal literal: digits, or digits, a point and digits. *)
Definition decimal_literal (s : str) : bool :=
  let (ip, r) := span_digits s in
  negb (is_nil ip)
  && match r with
     | [] => true
     | "." :: fp => negb (is_nil fp) && forallb is_digit fp
     | _ => false
     end.

(** A header as the importer takes it: the line ends with a colon, and
    before its first colon stands a name of the enumeration, with white
    space around it at most. *)
Definition header_shape (line c : str) : Prop :=
  In c Importer.CATEGORIES
  /\ (exists r, line = r ++ [":"])
  /\ exists pad1 pad2 rest,
       forallb isspace pad1 = true /\ forallb isspace pad2 = true
       /\ line = pad1 ++ c ++ pad2 ++ ":" :: rest.

(** A series line as the pattern takes it: a name without line feed, a
    hyphen, the letters [ep:] and a run of digits and dots that ends the
    line, with white space between them at most. *)
Definition series_shape (line name chapter : str) : Prop :=
  exists gap1 gap2 gap3,
    forallb isspace gap1 = true /\ forallb isspace gap2 = true
    /\ forallb isspace gap3 = true
    /\ line = name ++ gap1 ++ "-" :: gap2 ++ txt "ep:" ++ gap3 ++ chapter
    /\ name <> [] /\ ~ In LF name
    /\ chapter <> [] /\ forallb Importer.is_digit_or_dot chapter = true.

(** The header of the specification, [<CategoryName> :]. *)
Definition header_of_spec (line : str) : Prop :=
  exists c, In c Importer.CATEGORIES /\ line = c ++ txt " :".

(** The series line of the specification, [<name> - ep: <number>] with a
    decimal literal for [<number>]. *)
Definition series_line_of_spec (line : str) : Prop :=
  exists name number,
    series_shape line name number /\ decimal_literal number = true.

End Notions.

(* ================================================================== *)
(** * Notions used to follow the rounding of [float] *)
(* ================================================================== *)

Module Rounding.

Local Open Scope Z_scope.

(** The record [mrs] places the quotient [num / den]: its integer is the
    floor of the quotient, and its two bits tell where the quotient lies
    between that integer and the next (on it, below the middle, on the
    middle, above the middle). *)
Definition places (mrs : shr_record) (num den : Z) : Prop :=
  0 <= shr_m mrs
  /\ shr_m mrs * den <= num < (shr_m mrs + 1) * den
  /\ match shr_r mrs, shr_s mrs with
     | false, false => num = shr_m mrs * den
     | false, true =>
         shr_m mrs * den < num /\ 2 * num < (2 * shr_m mrs + 1) * den
     | true, false => 2 * num = (2 * shr_m mrs + 1) * den
     | true, true => (2 * shr_m mrs + 1) * den < 2 * num
     end.

(** The first half of [float_of_ratio]: the division and the first shift
    to the exponent of the format. *)
Definition stage1 (num den : Z) : shr_record * Z :=
  let '(q, e, l) := SFdiv_core_binary prec emax num 0 den 0 in
  shr_fexp prec emax q e l.

(** The exponent of binary64 for a number of [x] binary digits. *)
Definition fexp64 (x : Z) : Z := Z.max (x - 53) (-1074).

(** The second half of [float_of_ratio]: rounding to nearest even, the
    second shift and the test of overflow. *)
Definition finish (sg : bool) (st : shr_record * Z) : float :=
  let '(mrs', e') := st in
  let '(mrs'', e'') :=
    shr_fexp prec emax
      (round_nearest_even (shr_m mrs') (loc_of_shr_record mrs')) e'
      loc_Exact in
  match shr_m mrs'' with
  | Z0 => S754_zero sg
  | Zpos m =>
      if Z.leb e'' (emax - prec) then S754_finite sg m e''
      else S754_infinity sg
  | _ => S754_nan
  end.

End Rounding.

(* ================================================================== *)
(** * Series_Tracker.py: the interactive shell *)
(* ================================================================== *)

(** [int(s)] for a string [s], base ten; [None] stands for [ValueError].
    The text is mapped as for [float]; then white space of the C locale
    is skipped at both ends, a sign may come first, and the digits may
    hold single underscores between them.  More than
    [max_str_digits] digits are refused. *)
Module PyInt.

Definition max_str_digits : nat := 4300.

(** The digits with the underscores left out, when each underscore
    stands between two digits. *)
Fixpoint scan_digits (prev : ascii) (s : str) : option str :=
  match s with
  | [] => if (prev =? "_")%char then None else Some []
  | c :: s' =>
      if (c =? "_")%char then
        if (prev =? "_")%char then None else scan_digits c s'
      else if is_digit c then option_map (cons c) (scan_digits c s')
      else None
  end.

Definition int_of_str (s : str) : option Z :=
  let t := c_strip (transform_decimal_and_space s) in
  let (sg, body) := take_sign t in
  match body with
  | [] => None
  | c :: _ =>
      if (c =? "_")%char then None
      else
        match scan_digits NUL body with
        | Some ds =>
            if (max_str_digits <? List.length ds)%nat then None
            else Some (cond_Zopp sg (Z_of_digits ds))
        | None => None
        end
  end.

End PyInt.

Module Shell.

(** The data file, as far as the program tells its states apart: it is
    not there, it does not hold JSON, it cannot be read, or it holds a
    dictionary of records such as [json.dump] wrote: an object for each
    name, whose chapter, when present, is a number and whose category,
    when present, is a string.  Other JSON documents are not modelled. *)
Inductive file : Type :=
| Absent
| Corrupt
| Unreadable
| Holds (data : store).

(** How an attempt to write the data file ends: [json.dump] completes
    and the file is closed; [open] fails and the file stays as it was;
    the file is opened, and so emptied, and the write stops before the
    end, which leaves a file that does not hold JSON; or the text is
    written to the end and an error comes only after it, when the file is
    closed.  The last three raise an exception in [save_series_data]. *)
Inductive outcome : Type :=
| Written
| Refused
| Broken
| Unclosed.

(** The file after an attempt to write [d] over [f]. *)
Definition after (o : outcome) (d : store) (f : file) : file :=
  match o with
  | Written | Unclosed => Holds d
  | Refused => f
  | Broken => Corrupt
  end.

(** Whether the attempt raises an exception. *)
Definition fails (o : outcome) : bool :=
  match o with
  | Written => false
  | Refused | Broken | Unclosed => true
  end.

(** What the shell prints, one constructor for each [print] of the
    source, with the values its text is built from.  The last nine are
    those of the tracker with the quick-update menu (module
    [QuickShell]) whose text differs. *)
Inductive text : Type :=
| NotFoundStartingNew
| ErrReadingJson
| ErrLoading
| ErrSaving
| TrackerEmpty
| StatusHeader
| CategoryBanner (category_name : str)
| StatusRow (series : str) (chapter : option float)
| StatusFooter
| AddHeader
| NameEmpty
| AlreadyExists (series_name : str)
| UseOption3
| AvailableCategories
| FindHeader
| SearchEmpty
| NoMatch (search_term : str)
| FoundCount (n : nat)
| Candidate (i : nat) (name : str)
| ReturningToMenu
| InvalidNumber (n : nat)
| InvalidInput
| SeriesStatusHeader
| Selected (series_name : str)
| CategoryIs (current_category : str)
| CurrentChapterIs (current_chapter : float)
| StatusRule
| UpdatedSuccessfully (series_name : str)
| MenuTop
| MenuRule
| MenuTitle
| MenuOption (n : nat)
| Exiting
| InvalidChoice
| AvailableCategoriesPlain
| FlatHeader
| FlatRow (category series : str) (chapter : option float)
| FlatFooter
| QuickHeader
| NotFound (series_name : str)
| UseOption1
| QuickMenuOption (n : nat)
| InvalidChoiceOfFive.

(** The prompts of [input]; the last four are those of the tracker with
    the quick-update menu whose text differs. *)
Inductive prompt : Type :=
| AskName
| AskCategory
| AskChapter
| AskSearch
| AskSelection
| AskUpdate
| AskNewChapter
| AskChoice
| AskChapterWithExample
| AskNameToUpdate
| AskNewChapterOver (current : float)
| AskChoiceOfFive.

Inductive event : Type :=
| Core (e : Tracker.event)
| Say (t : text)
| Ask (p : prompt).

(** The dictionary that the functions share and change in place, the
    lines still to be read from the terminal, the data file, how the
    attempts to write it that are still to come will end (the next one
    first), and what has been written to the terminal and what
    [save_series_data] has been called with so far. *)
Record world : Type :=
  { data : store;
    stdin : list str;
    disk : file;
    fate : nat -> outcome;
    trace : list event }.

(** The exceptions that nothing in the program catches: [input] raises
    [EOFError] when no line is left, and [data[series_name]] raises
    [KeyError] for a name that is no key. *)
Inductive exn : Type :=
| EOFError
| KeyError.

(** How a function ends: it returns, an exception leaves it, or
    [sys.exit] is called. *)
Inductive result (A : Type) : Type :=
| Returned (v : A) (w : world)
| Raised (e : exn) (w : world)
| Exited (w : world).

Arguments Returned {A} v w.
Arguments Raised {A} e w.
Arguments Exited {A} w.

Definition final {A : Type} (r : result A) : world :=
  match r with
  | Returned _ w => w
  | Raised _ w => w
  | Exited w => w
  end.

Definition M (A : Type) : Type := world -> result A.

Definition ret {A : Type} (v : A) : M A := fun w => Returned v w.

Definition bind {A B : Type} (m : M A) (f : A -> M B) : M B :=
  fun w =>
    match m w with
    | Returned v w' => f v w'
    | Raised e w' => Raised e w'
    | Exited w' => Exited w'
    end.

Notation "x <- m ;; k" := (bind m (fun x => k))
  (at level 61, m at next level, right associativity).
Notation "m ;; k" := (bind m (fun _ => k))
  (at level 61, right associativity).

Definition emit (e : event) (w : world) : world :=
  {| data := data w; stdin := stdin w; disk := disk w; fate := fate w;
     trace := trace w ++ [e] |}.

(** [print(...)] *)
Definition say (t : text) : M unit := fun w => Returned tt (emit (Say t) w).

(** [input(prompt)] *)
Definition input (p : prompt) : M str :=
  fun w =>
    match stdin w with
    | [] => Raised EOFError (emit (Ask p) w)
    | line :: rest =>
        Returned line
          {| data := data w; stdin := rest; disk := disk w;
             fate := fate w; trace := trace w ++ [Ask p] |}
    end.

(** [sys.exit(0)] *)
Definition exit {A : Type} : M A := fun w => Exited w.

(** [load_series_data()] *)
Definition load_series_data : M store :=
  fun w =>
    match disk w with
    | Absent => (say NotFoundStartingNew ;; ret []) w
    | Corrupt => (say ErrReadingJson ;; ret []) w
    | Unreadable => (say ErrLoading ;; ret []) w
    | Holds d => ret d w
    end.

(** The call [save_series_data(d)]: the attempt to write ends as the
    next outcome says, and an attempt that fails is caught and reported
    with a [print]. *)
Definition write (d : store) (w : world) : world :=
  {| data := data w;
     stdin := stdin w;
     disk := after (fate w 0) d (disk w);
     fate := fun n => fate w (S n);
     trace :=
       trace w
       ++ Core (Tracker.Save d)
          :: (if fails (fate w 0) then [Say ErrSaving] else []) |}.

(** [save_series_data(data)] on the shared dictionary. *)
Definition save_series_data : M unit :=
  fun w => Returned tt (write (data w) w).

Definition perform (w : world) (e : Tracker.event) : world :=
  match e with
  | Tracker.Save d => write d w
  | Tracker.Print _ => emit (Core e) w
  end.

(** [update_series_chapter(series_name, chapter_number, category, data)],
    with [auto_save] at its default [True], on the shared dictionary. *)
Definition update_series_chapter
  (series_name chapter_number category : str) : M bool :=
  fun w =>
    let r := Tracker.update_series_chapter series_name chapter_number
               category (data w) true in
    Returned (Tracker.returned r)
      (fold_left perform (Tracker.effects r)
         {| data := Tracker.data_after r; stdin := stdin w;
            disk := disk w; fate := fate w; trace := trace w |}).

Definition say_all (ts : list text) : M unit :=
  fun w => Returned tt (fold_left (fun w t => emit (Say t) w) ts w).

(** The rows of one category in [view_all_series]; the pairs of
    [sorted(series_in_category.items())] have different names, so their
    order is that of the names. *)
Definition rows (series_in_category : store) : list text :=
  map (fun item => StatusRow (fst item) (Store.chapter (snd item)))
    (sorted (fun item : str * info => fst item) series_in_category).

Definition view_block (grouped_data : dict store) (category_name : str)
  : list text :=
  let series_in_category := Exporter.lookup category_name grouped_data in
  if is_nil series_in_category then []
  else CategoryBanner category_name :: rows series_in_category.

(** [view_all_series(data)]; it groups the records with the statements
    of the exporter. *)
Definition view_all_series : M unit :=
  fun w =>
    if is_nil (data w) then say TrackerEmpty w
    else
      (say StatusHeader ;;
       say_all (flat_map (view_block (Exporter.group (data w)))
                  Tracker.CATEGORIES) ;;
       say StatusFooter) w.

(** [handle_add_new_series_only(data)] *)
Definition handle_add_new_series_only : M bool :=
  say AddHeader ;;
  series_name <- input AskName ;;
  let series_name := strip series_name in
  if is_nil series_name then say NameEmpty ;; ret false
  else
    fun w =>
      if dict_mem series_name (data w) then
        (say (AlreadyExists series_name) ;; say UseOption3 ;; ret false) w
      else
        (say AvailableCategories ;;
         category <- input AskCategory ;;
         let category := strip category in
         chapter_number <- input AskChapter ;;
         let chapter_number := strip chapter_number in
         ok <- update_series_chapter series_name chapter_number category ;;
         if ok then view_all_series ;; ret true else ret false) w.

(** The loop [while True] of [handle_find_series], which reads a line in
    each turn: the name selected, or [None] when an empty line sends the
    user back to the menu. *)
Fixpoint selection_loop (matching_series : list str) (lines : list str)
  : M (option str) :=
  fun w =>
    match lines with
    | [] => Raised EOFError (emit (Ask AskSelection) w)
    | line :: rest =>
        let w :=
          {| data := data w; stdin := rest; disk := disk w;
             fate := fate w; trace := trace w ++ [Ask AskSelection] |} in
        let selection_input := strip line in
        if is_nil selection_input then
          (say ReturningToMenu ;; ret None) w
        else
          match PyInt.int_of_str selection_input with
          | Some n =>
              let selection_index := (n - 1)%Z in
              if (0 <=? selection_index)%Z
                 && (selection_index
                     <? Z.of_nat (List.length matching_series))%Z
              then
                ret (Some (nth (Z.to_nat selection_index) matching_series
                             []))
                  w
              else
                (say (InvalidNumber (List.length matching_series)) ;;
                 selection_loop matching_series rest) w
          | None =>
              (say InvalidInput ;; selection_loop matching_series rest) w
          end
    end.

(** [for i, name in enumerate(matching_series): print(...)] *)
Fixpoint candidates (i : nat) (matching_series : list str) : list text :=
  match matching_series with
  | [] => []
  | name :: l => Candidate (i + 1) name :: candidates (i + 1) l
  end.

(** The names that hold the search term, in sorted order. *)
Definition matching (search_term_lower : str) (d : store) : list str :=
  filter (fun series_name => contains search_term_lower (lower series_name))
    (sorted (fun k : str => k) (keys d)).

(** [handle_find_series(data)] *)
Definition handle_find_series : M unit :=
  say FindHeader ;;
  search_term <- input AskSearch ;;
  let search_term := strip search_term in
  if is_nil search_term then say SearchEmpty
  else
    let search_term_lower := lower search_term in
    fun w =>
      let matching_series := matching search_term_lower (data w) in
      if is_nil matching_series then say (NoMatch search_term) w
      else
        (say (FoundCount (List.length matching_series)) ;;
         say_all (candidates 0 matching_series) ;;
         selected <- (fun w => selection_loop matching_series (stdin w) w) ;;
         match selected with
         | None => ret tt
         | Some series_name =>
             fun w =>
               match dict_get series_name (data w) with
               | None => Raised KeyError w
               | Some series_info =>
               let current_chapter :=
                 match Store.chapter series_info with
                 | Some c => c
                 | None => float_zero
                 end in
               let current_category :=
                 match Store.category series_info with
                 | Some c => c
                 | None => txt "Uncategorized"
                 end in
               (say SeriesStatusHeader ;;
                say (Selected series_name) ;;
                say (CategoryIs current_category) ;;
                say (CurrentChapterIs current_chapter) ;;
                say StatusRule ;;
                update_choice <- input AskUpdate ;;
                let update_choice := lower (strip update_choice) in
                (if str_eqb update_choice (txt "y") then
                   new_chapter_str <- input AskNewChapter ;;
                   let new_chapter_str := strip new_chapter_str in
                   ok <- update_series_chapter series_name new_chapter_str
                           current_category ;;
                   if ok then say (UpdatedSuccessfully series_name)
                   else ret tt
                 else ret tt) ;;
                say ReturningToMenu) w
               end
         end) w.

(** The loop [while True] of [main_menu].  Each turn reads a line, so a
    loop that may take one turn more than there are lines never runs out
    of turns; the first case is not reached. *)
Fixpoint menu_loop (turns : nat) : M unit :=
  match turns with
  | O => ret tt
  | S turns' =>
      say MenuTop ;; say MenuTitle ;; say MenuRule ;;
      say (MenuOption 1) ;; say (MenuOption 2) ;; say (MenuOption 3) ;;
      say (MenuOption 4) ;; say MenuRule ;;
      choice <- input AskChoice ;;
      let choice := strip choice in
      if str_eqb choice (txt "1") then
        handle_add_new_series_only ;; menu_loop turns'
      else if str_eqb choice (txt "2") then
        view_all_series ;; menu_loop turns'
      else if str_eqb choice (txt "3") then
        handle_find_series ;; menu_loop turns'
      else if str_eqb choice (txt "4") then
        say Exiting ;; save_series_data ;; exit
      else
        say InvalidChoice ;; menu_loop turns'
  end.

(** [main_menu()], started with the lines [lines] to come from the
    terminal, the data file in the state [f], and the attempts to write
    it ending as [fs] says. *)
Definition main_menu (lines : list str) (f : file) (fs : nat -> outcome)
  : result unit :=
  (series_data <- load_series_data ;;
   fun w =>
     menu_loop (S (List.length (stdin w)))
       {| data := series_data; stdin := stdin w; disk := disk w;
          fate := fate w; trace := trace w |})
    {| data := []; stdin := lines; disk := f; fate := fs; trace := [] |}.

(** ** Notions used to state the properties of the shell *)

(** The dictionary that [load_series_data] returns for a file. *)
Definition loaded (f : file) : store :=
  match f with
  | Holds d => d
  | Absent | Corrupt | Unreadable => []
  end.

(** The texts printed by the shell, in their order. *)
Definition said (tr : list event) : list text :=
  flat_map (fun e => match e with Say t => [t] | _ => [] end) tr.

(** The series and chapters of the rows among some texts. *)
Definition rows_among (ts : list text) : list (str * option float) :=
  flat_map
    (fun t => match t with StatusRow s c => [(s, c)] | _ => [] end) ts.

(** The category of a record is one of [CATEGORIES]. *)
Definition listed (i : info) : Prop :=
  exists c, Store.category i = Some c /\ In c Tracker.CATEGORIES.

(** Between [w] and [w'] no attempt to write the data file is made: the
    file and the outcomes to come are as they were. *)
Definition unwritten (w w' : world) : Prop :=
  disk w' = disk w /\ fate w' = fate w.

(** Between [w] and [w'] one attempt to write the data file is made, and
    it is given the dictionary of [w']: the file is what that attempt
    leaves, and one outcome is used up. *)
Definition saved_once (w w' : world) : Prop :=
  disk w' = after (fate w 0) (data w') (disk w)
  /\ fate w' = (fun n => fate w (S n)).

(** Every attempt to write completes. *)
Definition all_written (fs : nat -> outcome) : Prop :=
  forall n, fs n = Written.

(** The lines on which [handle_add_new_series_only] adds a record: a name
    that is not empty and no key yet, then one of the categories, then a
    chapter that [float] reads and that is not below zero. *)
Definition addable (w : world) (name category : str) (c : float)
  (rest : list str) : Prop :=
  exists name_line category_line chapter_line,
    stdin w = name_line :: category_line :: chapter_line :: rest
    /\ strip name_line = name /\ name <> []
    /\ dict_get name (data w) = None
    /\ strip category_line = category /\ In category Tracker.CATEGORIES
    /\ float_of_str (strip chapter_line) = Some c
    /\ float_ltb c float_zero = false.

End Shell.

(* ================================================================== *)
(** * The tracker with the quick-update menu *)
(* ================================================================== *)

(** The second program of the same name has the functions
    [load_series_data], [save_series_data], [update_series_chapter] and
    [handle_find_series] of [Series_Tracker.py] word for word; its other
    functions follow. *)
Module QuickShell.

Import Shell.

(** The rows of [view_all_series]; the pairs of [sorted(data.items())]
    have different names, so their order is that of the names. *)
Definition rows (data : store) : list text :=
  map (fun item : str * info =>
         FlatRow
           match Store.category (snd item) with
           | Some c => c
           | None => txt "Uncategorized"
           end
           (fst item) (Store.chapter (snd item)))
    (sorted (fun item : str * info => fst item) data).

(** [view_all_series(data)] *)
Definition view_all_series : M unit :=
  fun w =>
    if is_nil (data w) then say TrackerEmpty w
    else (say FlatHeader ;; say_all (rows (data w)) ;; say FlatFooter) w.

(** [handle_add_series(data)] *)
Definition handle_add_series : M bool :=
  say AddHeader ;;
  say AvailableCategoriesPlain ;;
  category <- input AskCategory ;;
  let category := strip category in
  series_name <- input AskName ;;
  let series_name := strip series_name in
  if is_nil series_name then say NameEmpty ;; ret false
  else
    chapter_number <- input AskChapterWithExample ;;
    let chapter_number := strip chapter_number in
    ok <- update_series_chapter series_name chapter_number category ;;
    if ok then view_all_series ;; ret true else ret false.

(** [handle_update_chapter(data)]; [data[series_name]["category"]] and
    [data[series_name]['chapter']] raise [KeyError] for a record without
    the key. *)
Definition handle_update_chapter : M bool :=
  say QuickHeader ;;
  series_name <- input AskNameToUpdate ;;
  let series_name := strip series_name in
  fun w =>
    match dict_get series_name (data w) with
    | None =>
        (say (NotFound series_name) ;; say UseOption1 ;; ret false) w
    | Some series_info =>
        match Store.category series_info with
        | None => Raised KeyError w
        | Some existing_category =>
            match Store.chapter series_info with
            | None => Raised KeyError w
            | Some current =>
                (chapter_number <- input (AskNewChapterOver current) ;;
                 let chapter_number := strip chapter_number in
                 ok <- update_series_chapter series_name chapter_number
                         existing_category ;;
                 if ok then view_all_series ;; ret true else ret false) w
            end
        end
    end.

(** The loop [while True] of [main_menu]; as in [Shell.menu_loop], each
    turn reads a line and the first case is not reached. *)
Fixpoint menu_loop (turns : nat) : M unit :=
  match turns with
  | O => ret tt
  | S turns' =>
      say MenuTop ;; say MenuTitle ;; say MenuRule ;;
      say (QuickMenuOption 1) ;; say (QuickMenuOption 2) ;;
      say (QuickMenuOption 3) ;; say (QuickMenuOption 4) ;;
      say (QuickMenuOption 5) ;; say MenuRule ;;
      choice <- input AskChoiceOfFive ;;
      let choice := strip choice in
      if str_eqb choice (txt "1") then
        handle_add_series ;; menu_loop turns'
      else if str_eqb choice (txt "2") then
        handle_update_chapter ;; menu_loop turns'
      else if str_eqb choice (txt "3") then
        view_all_series ;; menu_loop turns'
      else if str_eqb choice (txt "4") then
        handle_find_series ;; menu_loop turns'
      else if str_eqb choice (txt "5") then
        say Exiting ;; save_series_data ;; exit
      else
        say InvalidChoiceOfFive ;; menu_loop turns'
  end.

(** [main_menu()], started with the lines [lines] to come from the
    terminal, the data file in the state [f], and the attempts to write
    it ending as [fs] says. *)
Definition main_menu (lines : list str) (f : file) (fs : nat -> outcome)
  : result unit :=
  (series_data <- load_series_data ;;
   fun w =>
     menu_loop (S (List.length (stdin w)))
       {| data := series_data; stdin := stdin w; disk := disk w;
          fate := fate w; trace := trace w |})
    {| data := []; stdin := lines; disk := f; fate := fs; trace := [] |}.

(** ** Notions used to state the properties *)

(** A record with both keys. *)
Definition complete (i : info) : Prop :=
  Store.chapter i <> None /\ Store.category i <> None.

(** The names of the rows among some texts. *)
Definition names_among (ts : list text) : list str :=
  flat_map (fun t => match t with FlatRow _ s _ => [s] | _ => [] end) ts.

(** The lines on which [handle_add_series] assigns a record: one of the
    categories, then a name that is not empty, then a chapter that
    [float] reads and that is not below zero. *)
Definition assignable (w : world) (name category : str) (c : float)
  (rest : list str) : Prop :=
  exists category_line name_line chapter_line,
    stdin w = category_line :: name_line :: chapter_line :: rest
    /\ strip category_line = category /\ In category Tracker.CATEGORIES
    /\ strip name_line = name /\ name <> []
    /\ float_of_str (strip chapter_line) = Some c
    /\ float_ltb c float_zero = false.

(** The lines on which [handle_update_chapter] assigns a chapter: a name
    that is a key whose record has both keys and one of the categories,
    then a chapter that [float] reads and that is not below zero. *)
Definition updatable (w : world) (name category : str) (c : float)
  (rest : list str) : Prop :=
  exists name_line chapter_line old,
    stdin w = name_line :: chapter_line :: rest
    /\ strip name_line = name
    /\ dict_get name (data w) = Some old
    /\ complete old
    /\ Store.category old = Some category
    /\ In category Tracker.CATEGORIES
    /\ float_of_str (strip chapter_line) = Some c
    /\ float_ltb c float_zero = false.

End QuickShell.

(* ================================================================== *)
(** * The oldest tracker, with [int] chapters *)
(* ================================================================== *)

(** The third program of the same name reads a chapter with [int] and
    writes the data file only when the user leaves.  The chapters of a
    dictionary that it loads are numbers of JSON, an [int] or a
    [float]. *)
Module IntTracker.

Inductive number : Type :=
| Int (n : Z)
| Float (x : float).

Record info : Type := { chapter : option number; category : option str }.

Definition store := dict info.

Definition entry (n : Z) (cat : str) : info :=
  {| chapter := Some (Int n); category := Some cat |}.

Definition CATEGORIES : list str :=
  [txt "Manga"; txt "Manhwa"; txt "Manhua"; txt "Other"].

(** The order of an [int] and a [float], which Python decides on their
    exact values; a NaN is in no order with a number. *)
Definition compare_float (n : Z) (x : float) : option comparison :=
  match x with
  | S754_zero _ => Some (n ?= 0)%Z
  | S754_infinity sg => Some (if sg then Gt else Lt)
  | S754_nan => None
  | S754_finite sg m e =>
      let v := cond_Zopp sg (Zpos m) in
      Some (if (0 <=? e)%Z then (n ?= v * 2 ^ e)%Z
            else (n * 2 ^ (- e) ?= v)%Z)
  end.

Definition compare (n : Z) (old : number) : option comparison :=
  match old with
  | Int m => Some (n ?= m)%Z
  | Float x => compare_float n x
  end.

(** [n > old] and [n == old] *)
Definition gtb (n : Z) (old : number) : bool :=
  match compare n old with Some Gt => true | _ => false end.

Definition eqb (n : Z) (old : number) : bool :=
  match compare n old with Some Eq => true | _ => false end.

(** What [update_series_chapter] prints. *)
Inductive message : Type :=
| ErrInvalidCategory (category : str)
| ErrNegativeChapter
| ErrInvalidChapterNumber
| Added (series_name category : str) (chapter_number : Z)
| Progressed (series_name : str) (old_chapter : number) (chapter_number : Z)
    (category_change : option (str * str))
| CategoryChanged (series_name : str) (chapter_number : Z) (category : str)
| NoChange (series_name : str) (chapter_number : Z)
| Corrected (series_name : str) (old_chapter : number) (chapter_number : Z)
    (category_change : option (str * str)).

(** [update_series_chapter(series_name, chapter_number, category,
    series_data)]: the value returned, the dictionary after the call and
    the text printed. *)
Definition update_series_chapter
  (series_name chapter_number category : str) (series_data : store)
  : bool * store * message :=
  if negb (str_in category CATEGORIES) then
    (false, series_data, ErrInvalidCategory category)
  else
    match PyInt.int_of_str chapter_number with
    | None => (false, series_data, ErrInvalidChapterNumber)
    | Some chapter_number =>
        if (chapter_number <? 0)%Z then
          (false, series_data, ErrNegativeChapter)
        else
          let is_new := negb (dict_mem series_name series_data) in
          let old_data :=
            match dict_get series_name series_data with
            | Some i => i
            | None => entry 0 category
            end in
          let old_chapter :=
            match chapter old_data with
            | Some c => c
            | None => Int 0
            end in
          let old_category :=
            match IntTracker.category old_data with
            | Some c => c
            | None => category
            end in
          let series_data :=
            dict_set series_name (entry chapter_number category)
              series_data in
          let feedback :=
            if is_new then Added series_name category chapter_number
            else
              let category_change :=
                if negb (str_eqb category old_category)
                then Some (old_category, category) else None in
              if gtb chapter_number old_chapter then
                Progressed series_name old_chapter chapter_number
                  category_change
              else if eqb chapter_number old_chapter
                      && negb (str_eqb category old_category) then
                CategoryChanged series_name chapter_number category
              else if eqb chapter_number old_chapter then
                NoChange series_name chapter_number
              else
                Corrected series_name old_chapter chapter_number
                  category_change in
          (true, series_data, feedback)
    end.

(** ** The shell *)

Inductive file : Type :=
| Absent
| Corrupt
| Unreadable
| Holds (data : store).

(** The file after an attempt to write [d] over [f] that ends as [o]
    says. *)
Definition after (o : Shell.outcome) (d : store) (f : file) : file :=
  match o with
  | Shell.Written | Shell.Unclosed => Holds d
  | Shell.Refused => f
  | Shell.Broken => Corrupt
  end.

(** What the program prints, one constructor for each [print] of the
    source, with the values its text is built from. *)
Inductive text : Type :=
| NotFoundStartingNew
| ErrReadingJson
| ErrLoading
| SavedTo
| ErrSaving
| Feedback (m : message)
| TrackerEmpty
| StatusHeader
| StatusRow (category series : str) (chapter : option number)
| StatusFooter
| AddHeader
| NameEmpty
| AvailableCategories
| QuickHeader
| NotFound (series_name : str)
| UseOption1
| MenuTop
| MenuTitle
| MenuRule
| MenuOption (n : nat)
| Exiting
| InvalidChoice.

Inductive prompt : Type :=
| AskName
| AskChapter
| AskCategory
| AskNameToUpdate
| AskNewChapterOver (current : number)
| AskChoice.

(** A [print], an [input], or an attempt to write the dictionary to
    the data file. *)
Inductive event : Type :=
| Say (t : text)
| Ask (p : prompt)
| Write (data : store).

(** The dictionary, the lines still to be read, the data file, how the
    attempts to write it that are still to come will end (the next one
    first), and what has been printed, asked and written so far. *)
Record world : Type :=
  { data : store;
    stdin : list str;
    disk : file;
    fate : nat -> Shell.outcome;
    trace : list event }.

Inductive exn : Type :=
| EOFError
| KeyError.

Inductive result (A : Type) : Type :=
| Returned (v : A) (w : world)
| Raised (e : exn) (w : world)
| Exited (w : world).

Arguments Returned {A} v w.
Arguments Raised {A} e w.
Arguments Exited {A} w.

Definition final {A : Type} (r : result A) : world :=
  match r with
  | Returned _ w => w
  | Raised _ w => w
  | Exited w => w
  end.

Definition M (A : Type) : Type := world -> result A.

Definition ret {A : Type} (v : A) : M A := fun w => Returned v w.

Definition bind {A B : Type} (m : M A) (f : A -> M B) : M B :=
  fun w =>
    match m w with
    | Returned v w' => f v w'
    | Raised e w' => Raised e w'
    | Exited w' => Exited w'
    end.

Notation "x <- m ;; k" := (bind m (fun x => k))
  (at level 61, m at next level, right associativity).
Notation "m ;; k" := (bind m (fun _ => k))
  (at level 61, right associativity).

Definition emit (e : event) (w : world) : world :=
  {| data := data w; stdin := stdin w; disk := disk w; fate := fate w;
     trace := trace w ++ [e] |}.

Definition say (t : text) : M unit := fun w => Returned tt (emit (Say t) w).

Definition input (p : prompt) : M str :=
  fun w =>
    match stdin w with
    | [] => Raised EOFError (emit (Ask p) w)
    | line :: rest =>
        Returned line
          {| data := data w; stdin := rest; disk := disk w;
             fate := fate w; trace := trace w ++ [Ask p] |}
    end.

Definition exit {A : Type} : M A := fun w => Exited w.

Definition say_all (ts : list text) : M unit :=
  fun w => Returned tt (fold_left (fun w t => emit (Say t) w) ts w).

(** [load_series_data()] *)
Definition load_series_data : M store :=
  fun w =>
    match disk w with
    | Absent => (say NotFoundStartingNew ;; ret []) w
    | Corrupt => (say ErrReadingJson ;; ret []) w
    | Unreadable => (say ErrLoading ;; ret []) w
    | Holds d => ret d w
    end.

(** [save_series_data(data)]: the attempt to write ends as the next
    outcome says; when it completes the program says so, and when it
    fails the error is caught and reported. *)
Definition save_series_data : M unit :=
  fun w =>
    Returned tt
      {| data := data w;
         stdin := stdin w;
         disk := after (fate w 0) (data w) (disk w);
         fate := fun n => fate w (S n);
         trace :=
           trace w
           ++ [Write (data w);
               Say (if Shell.fails (fate w 0) then ErrSaving
                    else SavedTo)] |}.

(** [update_series_chapter(series_name, chapter_number, category, data)]
    on the shared dictionary. *)
Definition update : str -> str -> str -> M bool :=
  fun series_name chapter_number category w =>
    let r := update_series_chapter series_name chapter_number category
               (data w) in
    Returned (fst (fst r))
      {| data := snd (fst r); stdin := stdin w; disk := disk w;
         fate := fate w; trace := trace w ++ [Say (Feedback (snd r))] |}.

(** The rows of [view_all_series], in the order of the names. *)
Definition rows (data : store) : list text :=
  map (fun item : str * info =>
         StatusRow
           match IntTracker.category (snd item) with
           | Some c => c
           | None => txt "Uncategorized"
           end
           (fst item) (chapter (snd item)))
    (sorted (fun item : str * info => fst item) data).

(** [view_all_series(data)] *)
Definition view_all_series : M unit :=
  fun w =>
    if is_nil (data w) then say TrackerEmpty w
    else (say StatusHeader ;; say_all (rows (data w)) ;; say StatusFooter) w.

(** [handle_add_series(data)] *)
Definition handle_add_series : M bool :=
  say AddHeader ;;
  series_name <- input AskName ;;
  let series_name := strip series_name in
  if is_nil series_name then say NameEmpty ;; ret false
  else
    chapter_number <- input AskChapter ;;
    let chapter_number := strip chapter_number in
    say AvailableCategories ;;
    category <- input AskCategory ;;
    let category := strip category in
    ok <- update series_name chapter_number category ;;
    if ok then view_all_series ;; ret true else ret false.

(** [handle_update_chapter(data)] *)
Definition handle_update_chapter : M bool :=
  say QuickHeader ;;
  series_name <- input AskNameToUpdate ;;
  let series_name := strip series_name in
  fun w =>
    match dict_get series_name (data w) with
    | None =>
        (say (NotFound series_name) ;; say UseOption1 ;; ret false) w
    | Some series_info =>
        match IntTracker.category series_info with
        | None => Raised KeyError w
        | Some existing_category =>
            match chapter series_info with
            | None => Raised KeyError w
            | Some current =>
                (chapter_number <- input (AskNewChapterOver current) ;;
                 let chapter_number := strip chapter_number in
                 ok <- update series_name chapter_number
                         existing_category ;;
                 if ok then view_all_series ;; ret true else ret false) w
            end
        end
    end.

(** The loop [while True] of [main_menu]; each turn reads a line, and
    the first case is not reached. *)
Fixpoint menu_loop (turns : nat) : M unit :=
  match turns with
  | O => ret tt
  | S turns' =>
      say MenuTop ;; say MenuTitle ;; say MenuRule ;;
      say (MenuOption 1) ;; say (MenuOption 2) ;; say (MenuOption 3) ;;
      say (MenuOption 4) ;; say MenuRule ;;
      choice <- input AskChoice ;;
      let choice := strip choice in
      if str_eqb choice (txt "1") then
        handle_add_series ;; menu_loop turns'
      else if str_eqb choice (txt "2") then
        handle_update_chapter ;; menu_loop turns'
      else if str_eqb choice (txt "3") then
        view_all_series ;; menu_loop turns'
      else if str_eqb choice (txt "4") then
        say Exiting ;; save_series_data ;; exit
      else
        say InvalidChoice ;; menu_loop turns'
  end.

(** [main_menu()], started with the lines [lines] to come from the
    terminal, the data file in the state [f], and the attempts to write
    it ending as [fs] says. *)
Definition main_menu (lines : list str) (f : file)
  (fs : nat -> Shell.outcome) : result unit :=
  (series_data <- load_series_data ;;
   fun w =>
     menu_loop (S (List.length (stdin w)))
       {| data := series_data; stdin := stdin w; disk := disk w;
          fate := fate w; trace := trace w |})
    {| data := []; stdin := lines; disk := f; fate := fs; trace := [] |}.

(** ** Notions used to state the properties *)

Definition loaded (f : file) : store :=
  match f with
  | Holds d => d
  | Absent | Corrupt | Unreadable => []
  end.

(** A record with both keys. *)
Definition complete (i : info) : Prop :=
  chapter i <> None /\ IntTracker.category i <> None.

End IntTracker.

(* ================================================================== *)
(** * Properties of the built-ins *)
(* ================================================================== *)

Section StrFacts.

Lemma str_eqb_eq (a b : str) : str_eqb a b = true <-> a = b.
Proof.
  unfold str_eqb. destruct (list_eq_dec ascii_dec a b); split; congruence.
Qed.

Lemma str_eqb_refl (a : str) : str_eqb a a = true.
Proof. apply str_eqb_eq. reflexivity. Qed.

Lemma str_eqb_neq (a b : str) : str_eqb a b = false <-> a <> b.
Proof.
  unfold str_eqb. destruct (list_eq_dec ascii_dec a b); split; congruence.
Qed.

Lemma str_in_In (x : str) (l : list str) : str_in x l = true <-> In x l.
Proof.
  unfold str_in. rewrite existsb_exists. split.
  - intros [y [Hy He]]. apply str_eqb_eq in He. now subst.
  - intros H. exists x. split; [assumption | apply str_eqb_refl].
Qed.

Lemma str_in_not_In (x : str) (l : list str) :
  str_in x l = false <-> ~ In x l.
Proof.
  rewrite <- str_in_In. destruct (str_in x l); split; congruence.
Qed.

End StrFacts.

Section TextFacts.

Lemma forallb_rev {A : Type} (f : A -> bool) (l : list A) :
  forallb f (rev l) = forallb f l.
Proof.
  induction l as [| x l IH]; [reflexivity |].
  cbn [rev forallb]. rewrite forallb_app, IH. cbn. rewrite andb_true_r.
  apply andb_comm.
Qed.

Lemma lstrip_blank_app (ws s : str) :
  forallb isspace ws = true -> lstrip (ws ++ s) = lstrip s.
Proof.
  induction ws as [| c ws IH]; [reflexivity |].
  cbn. destruct (isspace c); [exact IH | discriminate].
Qed.

Lemma lstrip_blank (ws : str) : forallb isspace ws = true -> lstrip ws = [].
Proof.
  intros H. rewrite <- (app_nil_r ws). now rewrite lstrip_blank_app.
Qed.

Lemma lstrip_decompose (s : str) :
  exists ws, forallb isspace ws = true /\ s = ws ++ lstrip s.
Proof.
  induction s as [| c s [ws [Hws Hs]]].
  - exists []. split; reflexivity.
  - cbn [lstrip]. destruct (isspace c) eqn:E.
    + exists (c :: ws). split; [cbn; now rewrite E |].
      cbn. now rewrite <- Hs.
    + exists []. split; reflexivity.
Qed.

Lemma lstrip_idem (s : str) : lstrip (lstrip s) = lstrip s.
Proof.
  induction s as [| c s IH]; [reflexivity |].
  cbn [lstrip]. destruct (isspace c) eqn:E; [exact IH |].
  cbn [lstrip]. now rewrite E.
Qed.

Lemma lstrip_length (s : str) : (List.length (lstrip s) <= List.length s)%nat.
Proof.
  induction s as [| c s IH]; [apply le_n |].
  cbn [lstrip]. destruct (isspace c); cbn [List.length]; lia.
Qed.

(** A text is left alone by [lstrip] exactly when it is empty or begins
    with a character that is no white space. *)
Lemma lstrip_fixed_head (c : ascii) (s : str) :
  lstrip (c :: s) = c :: s <-> isspace c = false.
Proof.
  cbn [lstrip]. destruct (isspace c); split; try congruence.
  intros H. pose proof (lstrip_length s) as L. rewrite H in L.
  cbn [List.length] in L. lia.
Qed.

Lemma lstrip_fixed_app (m b : str) :
  m <> [] -> lstrip m = m -> lstrip (m ++ b) = m ++ b.
Proof.
  destruct m as [| c m]; [congruence |]. intros _ H.
  apply lstrip_fixed_head in H. cbn. now rewrite H.
Qed.

(** [strip] takes away a blank text on each side of a text that neither
    begins nor ends with white space. *)
Lemma strip_sandwich (a m b : str) :
  forallb isspace a = true -> forallb isspace b = true ->
  lstrip m = m -> lstrip (rev m) = rev m ->
  strip (a ++ m ++ b) = m.
Proof.
  intros Ha Hb Hm Hr. unfold strip, rstrip.
  rewrite lstrip_blank_app by exact Ha.
  destruct m as [| c m].
  - cbn [app]. rewrite (lstrip_blank b Hb). reflexivity.
  - rewrite lstrip_fixed_app by (congruence || exact Hm).
    rewrite rev_app_distr, lstrip_blank_app
      by (now rewrite forallb_rev).
    rewrite Hr. apply rev_involutive.
Qed.

Lemma strip_decompose (s : str) :
  exists a b,
    forallb isspace a = true /\ forallb isspace b = true
    /\ s = a ++ strip s ++ b
    /\ lstrip (strip s) = strip s
    /\ lstrip (rev (strip s)) = rev (strip s).
Proof.
  destruct (lstrip_decompose s) as [a [Ha Hs]].
  destruct (lstrip_decompose (rev (lstrip s))) as [b [Hb Hr]].
  assert (Hu : lstrip s = strip s ++ rev b).
  { unfold strip, rstrip. rewrite <- rev_app_distr, <- Hr.
    symmetry. apply rev_involutive. }
  exists a, (rev b). repeat split.
  - exact Ha.
  - now rewrite forallb_rev.
  - rewrite <- Hu. exact Hs.
  - destruct (strip s) as [| c m] eqn:E; [reflexivity |].
    apply lstrip_fixed_head.
    pose proof (lstrip_idem s) as I. rewrite Hu in I. cbn in I.
    destruct (isspace c); [| reflexivity].
    pose proof (lstrip_length (m ++ rev b)) as L. rewrite I in L.
    cbn [List.length] in L. lia.
  - unfold strip, rstrip. rewrite rev_involutive. apply lstrip_idem.
Qed.

Lemma strip_idem (s : str) : strip (strip s) = strip s.
Proof.
  destruct (strip_decompose s) as [a [b [_ [_ [_ [H1 H2]]]]]].
  rewrite <- (app_nil_r (strip s)) at 1.
  apply (strip_sandwich [] (strip s) []); auto.
Qed.

Lemma strip_blank_app_l (ws s : str) :
  forallb isspace ws = true -> strip (ws ++ s) = strip s.
Proof.
  intros Hws. destruct (strip_decompose s) as [a [b [Ha [Hb [Hs [H1 H2]]]]]].
  rewrite Hs at 1. rewrite app_assoc.
  apply strip_sandwich; auto. rewrite forallb_app. now rewrite Hws, Ha.
Qed.

Lemma strip_blank_app_r (s ws : str) :
  forallb isspace ws = true -> strip (s ++ ws) = strip s.
Proof.
  intros Hws. destruct (strip_decompose s) as [a [b [Ha [Hb [Hs [H1 H2]]]]]].
  rewrite Hs at 1. rewrite <- !app_assoc.
  apply strip_sandwich; auto. rewrite forallb_app. now rewrite Hws, Hb.
Qed.

Lemma strip_blank (ws : str) : forallb isspace ws = true -> strip ws = [].
Proof.
  intros H. rewrite <- (app_nil_r ws).
  rewrite strip_blank_app_l by exact H. reflexivity.
Qed.

(** A text that begins and ends with characters other than white space
    is its own [strip]. *)
Lemma strip_fixed (m : str) :
  lstrip m = m -> lstrip (rev m) = rev m -> strip m = m.
Proof.
  intros H1 H2. rewrite <- (app_nil_r m) at 1.
  apply (strip_sandwich [] m []); auto.
Qed.

Lemma strip_fixed_ends (m : str) :
  strip m = m -> lstrip m = m /\ lstrip (rev m) = rev m.
Proof.
  intros H. destruct (strip_decompose m) as [a [b [_ [_ [_ [H1 H2]]]]]].
  now rewrite H in H1, H2.
Qed.

Lemma flat_map_same {A B : Type} (f g : A -> list B) (l : list A) :
  (forall a, In a l -> f a = g a) -> flat_map f l = flat_map g l.
Proof.
  induction l as [| a l IH]; intros H; [reflexivity |].
  cbn. rewrite (H a (or_introl eq_refl)), IH; [reflexivity |].
  intros b Hb. apply H. now right.
Qed.

Lemma push_front_app (p q : str) (l : list str) :
  push_front p (push_front q l) = push_front (p ++ q) l.
Proof.
  destruct l as [| w ws]; cbn; [reflexivity |]. now rewrite app_assoc.
Qed.

Lemma push_front_nil (l : list str) : l <> [] -> push_front [] l = l.
Proof. destruct l; [congruence | reflexivity]. Qed.

Lemma split_not_nil (sep : ascii) (s : str) : split sep s <> [].
Proof.
  destruct s as [| c s]; cbn; [discriminate |].
  destruct (c =? sep)%char; [discriminate |].
  destruct (split sep s); discriminate.
Qed.

Lemma split_without_sep (sep : ascii) (x : str) :
  ~ In sep x -> split sep x = [x].
Proof.
  induction x as [| c x IH]; intros H; [reflexivity |].
  cbn [split]. destruct (Ascii.eqb_spec c sep) as [-> | _].
  - exfalso. apply H. now left.
  - rewrite IH by (intros F; apply H; now right). reflexivity.
Qed.

Lemma split_app_sep (sep : ascii) (x r : str) :
  ~ In sep x -> split sep (x ++ sep :: r) = x :: split sep r.
Proof.
  induction x as [| c x IH]; intros H.
  - cbn. now rewrite Ascii.eqb_refl.
  - cbn [app split]. destruct (Ascii.eqb_spec c sep) as [-> | _].
    + exfalso. apply H. now left.
    + rewrite IH by (intros F; apply H; now right). reflexivity.
Qed.

(** Splitting what [join] has put together gives the pieces back, when
    no piece holds the separator. *)
Lemma split_join (sep : ascii) (l : list str) :
  l <> [] -> Forall (fun x => ~ In sep x) l ->
  split sep (join [sep] l) = l.
Proof.
  induction l as [| x l IH]; [congruence |]. intros _ H.
  inversion H as [| ? ? Hx Hl]; subst.
  destruct l as [| y l].
  - cbn. now apply split_without_sep.
  - change (join [sep] (x :: y :: l)) with (x ++ sep :: join [sep] (y :: l)).
    rewrite split_app_sep by exact Hx.
    rewrite IH; [reflexivity | discriminate | exact Hl].
Qed.

End TextFacts.

Section DictFacts.

Context {V : Type}.

Lemma dict_get_set_same (k : str) (v : V) (d : dict V) :
  dict_get k (dict_set k v d) = Some v.
Proof.
  induction d as [| [k' v'] d IH]; simpl.
  - now rewrite str_eqb_refl.
  - destruct (str_eqb k' k) eqn:E; simpl; rewrite E; auto.
Qed.

Lemma dict_get_set_other (k k' : str) (v : V) (d : dict V) :
  k <> k' -> dict_get k' (dict_set k v d) = dict_get k' d.
Proof.
  intros Hne. induction d as [| [k0 v0] d IH]; simpl.
  - apply str_eqb_neq in Hne. now rewrite Hne.
  - destruct (str_eqb k0 k) eqn:E; simpl.
    + apply str_eqb_eq in E. subst k0.
      apply str_eqb_neq in Hne. now rewrite Hne.
    + destruct (str_eqb k0 k'); auto.
Qed.

Lemma dict_get_In (k : str) (v : V) (d : dict V) :
  dict_get k d = Some v -> In (k, v) d.
Proof.
  induction d as [| [k0 v0] d IH]; simpl; [discriminate |].
  destruct (str_eqb k0 k) eqn:E.
  - apply str_eqb_eq in E. intros [= ->]. subst. now left.
  - intros H. right. auto.
Qed.

Lemma dict_get_None (k : str) (d : dict V) :
  dict_get k d = None <-> ~ In k (keys d).
Proof.
  induction d as [| [k0 v0] d IH]; simpl.
  - tauto.
  - destruct (str_eqb k0 k) eqn:E.
    + apply str_eqb_eq in E. split; [discriminate | intros H; exfalso; auto].
    + apply str_eqb_neq in E. rewrite IH. tauto.
Qed.

Lemma In_dict_get (k : str) (v : V) (d : dict V) :
  NoDup (keys d) -> In (k, v) d -> dict_get k d = Some v.
Proof.
  induction d as [| [k0 v0] d IH]; simpl; [tauto |].
  intros Hnd [H | H].
  - injection H as -> ->. now rewrite str_eqb_refl.
  - inversion Hnd as [| ? ? Hnotin Hnd']; subst.
    destruct (str_eqb k0 k) eqn:E.
    + apply str_eqb_eq in E. subst k0. exfalso. apply Hnotin.
      change k with (fst (k, v)). now apply in_map.
    + auto.
Qed.

Lemma dict_set_fresh (k : str) (v : V) (d : dict V) :
  ~ In k (keys d) -> dict_set k v d = d ++ [(k, v)].
Proof.
  induction d as [| [k0 v0] d IH]; simpl; intros H; [reflexivity |].
  destruct (str_eqb k0 k) eqn:E.
  - apply str_eqb_eq in E. tauto.
  - f_equal. apply IH. tauto.
Qed.

Lemma dict_set_In (k : str) (v : V) (d : dict V) (k' : str) (v' : V) :
  In (k', v') (dict_set k v d) -> (k' = k /\ v' = v) \/ In (k', v') d.
Proof.
  induction d as [| [k0 v0] d IH]; simpl.
  - intros [[= <- <-] | []]. now left.
  - destruct (str_eqb k0 k) eqn:E; simpl.
    + apply str_eqb_eq in E. subst k0.
      intros [[= <- <-] | H]; [now left | right; now right].
    + intros [H | H]; [right; now left |].
      destruct (IH H) as [? | ?]; [now left | right; now right].
Qed.

End DictFacts.

(* ================================================================== *)
(** * The update engine ([update_series_chapter]) *)
(* ================================================================== *)

Module TrackerFacts.

Import Tracker.



(** The two scenarios of the specification. *)
Example created_scenario :
  update_series_chapter (txt "Solo Leveling") (txt "12.5") (txt "Manhwa") []
    true
  = let c := S754_finite false 7036874417766400 (-49) in
    let data := [(txt "Solo Leveling", entry c (txt "Manhwa"))] in
    (true, data,
     [Save data; Print (Added (txt "Solo Leveling") (txt "Manhwa") c)]).
Proof. vm_compute. reflexivity. Qed.

Example category_changed_scenario :
  let five := S754_finite false 5629499534213120 (-50) in
  update_series_chapter (txt "X") (txt "5") (txt "Manhwa")
    [(txt "X", entry five (txt "Manga"))] false
  = (true, [(txt "X", entry five (txt "Manhwa"))],
     [Print (CategoryChanged (txt "X") five (txt "Manhwa"))]).
Proof. vm_compute. reflexivity. Qed.

(** What the two tests of the chapter do ensure: for every dictionary and
    every chapter text on which [float] raises [ValueError] or whose value
    read by [float] is below zero, the call returns [False] and the
    dictionary after the call is the dictionary before it; nothing is
    saved, and with a category of the enumeration the one message printed
    is one of the two chapter errors. *)
Lemma invalid_chapter_rejected
  (series_data : store) (series_name chapter_input category : str)
  (auto_save : bool) :
  (float_of_str chapter_input = None
   \/ exists c, float_of_str chapter_input = Some c
                /\ float_ltb c float_zero = true) ->
  let r := update_series_chapter series_name chapter_input category
             series_data auto_save in
  returned r = false
  /\ data_after r = series_data
  /\ (forall d, ~ In (Save d) (effects r))
  /\ (In category CATEGORIES ->
      effects r = [Print ErrInvalidChapterNumber]
      \/ effects r = [Print ErrNegativeChapter]).
Proof.
  intros Hbad r. subst r. unfold update_series_chapter.
  assert (Hsave : forall (m : message) (d : store), ~ In (Save d) [Print m])
    by (intros m d [H | []]; discriminate).
  destruct (str_in category CATEGORIES) eqn:Hcat; cbn [negb].
  - destruct Hbad as [Hnone | [c [Hsome Hlt]]].
    + rewrite Hnone. unfold returned, data_after, effects. cbn [fst snd].
      repeat split; auto.
    + rewrite Hsome, Hlt. unfold returned, data_after, effects.
      cbn [fst snd]. repeat split; auto.
  - unfold returned, data_after, effects. cbn [fst snd].
    repeat split; auto.
    intros Hin. apply (proj2 (str_in_In _ _)) in Hin. congruence.
Qed.

Lemma invalid_chapter_rejected_witness :
  let s0 : store := [(txt "Y", entry (S754_zero false) (txt "Manga"))] in
  let r := update_series_chapter (txt "Y") (txt "-1") (txt "Manga") s0 true in
  returned r = false
  /\ data_after r = s0
  /\ (forall d, ~ In (Save d) (effects r))
  /\ (In (txt "Manga") CATEGORIES ->
      effects r = [Print ErrInvalidChapterNumber]
      \/ effects r = [Print ErrNegativeChapter]).
Proof.
  intros s0.
  apply (invalid_chapter_rejected s0 (txt "Y") (txt "-1") (txt "Manga") true).
  right. exists (S754_finite true 4503599627370496 (-52)).
  split; vm_compute; reflexivity.
Defined.

(** C4.  For every dictionary, every chapter text and every category
    outside the enumeration, the call returns [False], prints the
    category error and nothing else, and leaves the dictionary as it
    was. *)
Theorem invalid_category_rejected
  (series_data : store) (series_name chapter_input category : str)
  (auto_save : bool) :
  ~ In category CATEGORIES ->
  let r := update_series_chapter series_name chapter_input category
             series_data auto_save in
  returned r = false
  /\ data_after r = series_data
  /\ effects r = [Print (ErrInvalidCategory category)].
Proof.
  intros Hcat r. subst r. unfold update_series_chapter.
  apply (proj2 (str_in_not_In _ _)) in Hcat. rewrite Hcat. simpl.
  unfold returned, data_after, effects. simpl. auto.
Qed.

Lemma invalid_category_rejected_witness :
  let s0 : store := [(txt "X", entry (S754_zero false) (txt "Manga"))] in
  let r := update_series_chapter (txt "X") (txt "7") (txt "manga") s0 true in
  returned r = false
  /\ data_after r = s0
  /\ effects r = [Print (ErrInvalidCategory (txt "manga"))].
Proof.
  intros s0.
  apply (invalid_category_rejected s0 (txt "X") (txt "7") (txt "manga") true).
  intros H. simpl in H.
  repeat (destruct H as [H | H]; [discriminate H |]). exact H.
Defined.

(** C3.  A negative chapter is not always refused.  The text [-1e-400]
    is a negative number; [float] rounds it to the zero that has its sign
    bit set, and that value is not below zero: the call returns [True],
    the record is written into the dictionary, which was empty, and
    [save_series_data] is called on it.  The value stored prints as
    [-0.0]. *)
Theorem negative_text_is_accepted :
  let r := update_series_chapter (txt "X") (txt "-1e-400") (txt "Manga") []
             true in
  let stored := [(txt "X", entry (S754_zero true) (txt "Manga"))] in
  float_of_str (txt "-1e-400") = Some (S754_zero true)
  /\ float_ltb (S754_zero true) float_zero = false
  /\ returned r = true
  /\ data_after r = stored
  /\ data_after r <> []
  /\ effects r
     = [Save stored; Print (Added (txt "X") (txt "Manga") (S754_zero true))]
  /\ float_repr (S754_zero true) = txt "-0.0".
Proof. vm_compute. repeat split; discriminate. Qed.

(** C5.  The invariant is broken by the chapter text [nan]: [float] reads
    it without error, the value is not below zero, so the call returns
    [True] and stores a chapter that is no real number.  The dictionary
    before the call is empty, so the invariant held there. *)
Theorem nan_chapter_is_stored :
  let r := update_series_chapter (txt "X") (txt "nan") (txt "Manga") []
             true in
  chapters_nonneg_real []
  /\ returned r = true
  /\ get (txt "X") (data_after r) = Some (entry S754_nan (txt "Manga"))
  /\ ~ chapters_nonneg_real (data_after r).
Proof.
  cbv zeta. repeat split.
  - intros n inf c [].
  - intros H.
    specialize (H (txt "X") (entry S754_nan (txt "Manga")) S754_nan).
    assert (E : nonneg_real S754_nan = true).
    { apply H; [vm_compute; left; reflexivity | reflexivity]. }
    discriminate E.
Qed.

(** The same happens with an infinite chapter. *)
Lemma infinite_chapter_is_stored :
  let r := update_series_chapter (txt "X") (txt "inf") (txt "Manga") []
             true in
  returned r = true
  /\ get (txt "X") (data_after r)
     = Some (entry (S754_infinity false) (txt "Manga")).
Proof. vm_compute. split; reflexivity. Qed.

(** What the test [chapter_number < 0] does ensure: a call that returns
    [True] has written a chapter that is not below zero, and nothing
    else. *)
Lemma accepted_chapter_not_below_zero
  (series_data : store) (series_name chapter_input category : str)
  (auto_save : bool) :
  let r := update_series_chapter series_name chapter_input category
             series_data auto_save in
  returned r = true ->
  exists c, float_of_str chapter_input = Some c
            /\ float_ltb c float_zero = false
            /\ data_after r
               = dict_set series_name (entry c category) series_data.
Proof.
  cbv zeta. unfold update_series_chapter.
  destruct (str_in category CATEGORIES); cbn [negb];
    [| unfold returned; cbn [fst snd]; discriminate].
  destruct (float_of_str chapter_input) as [c |];
    [| unfold returned; cbn [fst snd]; discriminate].
  destruct (float_ltb c float_zero) eqn:Hlt;
    [unfold returned; cbn [fst snd]; discriminate |].
  intros _. exists c. repeat split. assumption.
Qed.

(** A value that is not below zero is a non-negative real number unless
    it is a NaN or the positive infinity. *)
Lemma not_below_zero_cases (c : float) :
  float_ltb c float_zero = false ->
  nonneg_real c = true \/ c = S754_nan \/ c = S754_infinity false.
Proof.
  destruct c as [sg | sg | | sg m e]; cbn; auto.
  - destruct sg; [discriminate | auto].
  - destruct sg; [discriminate | auto].
Qed.

End TrackerFacts.

(* ================================================================== *)
(** * The decoder ([parse_series_data]) *)
(* ================================================================== *)

Module ImporterFacts.

Import Importer.

Lemma endswith_nil (suffix : str) :
  suffix <> [] -> endswith suffix [] = false.
Proof.
  unfold endswith. intros H. destruct (rev suffix) eqn:E; [| reflexivity].
  apply (f_equal (@rev ascii)) in E. rewrite rev_involutive in E.
  contradiction.
Qed.

(** The two fields a turn of the loop can change, read off the line. *)
Lemma parse_line_category (st : state) (line : str) :
  current_category (parse_line st line)
  = match header_of line with
    | Some c => c
    | None => current_category st
    end.
Proof.
  unfold parse_line, header_of.
  destruct (is_nil (strip line) || contains (txt "-----") (strip line));
    [reflexivity |].
  destruct (endswith (txt ":") (strip line)); cbn [andb].
  - destruct (str_in (category_name (strip line)) CATEGORIES); reflexivity.
  - destruct (SERIES_LINE_PATTERN (strip line)) as [[g1 g2] |];
      [| reflexivity].
    destruct (float_of_str (strip g2)); reflexivity.
Qed.

Lemma parse_line_data (st : state) (line : str) :
  series_data (parse_line st line)
  = match series_of line with
    | Some (name, c) =>
        dict_set name (entry c (current_category st)) (series_data st)
    | None => series_data st
    end.
Proof.
  unfold parse_line, series_of.
  destruct (is_nil (strip line) || contains (txt "-----") (strip line));
    [reflexivity |].
  cbn [orb].
  destruct (endswith (txt ":") (strip line)).
  - destruct (str_in (category_name (strip line)) CATEGORIES); reflexivity.
  - destruct (SERIES_LINE_PATTERN (strip line)) as [[g1 g2] |];
      [| reflexivity].
    destruct (float_of_str (strip g2)); reflexivity.
Qed.

Lemma series_line_is_no_header (line name : str) (c : float) :
  series_of line = Some (name, c) -> header_of line = None.
Proof.
  unfold series_of, header_of.
  destruct (is_nil (strip line) || contains (txt "-----") (strip line));
    [discriminate |].
  cbn [orb]. destruct (endswith (txt ":") (strip line));
    [discriminate | reflexivity].
Qed.

Lemma run_app (pre post : list str) :
  run (pre ++ post) = fold_left parse_line post (run pre).
Proof. unfold run. apply fold_left_app. Qed.

(** Lines that store nothing under [name] leave its record alone. *)
Lemma fold_keeps_other_names (name : str) (post : list str) (st : state) :
  (forall l c, In l post -> series_of l <> Some (name, c)) ->
  dict_get name (series_data (fold_left parse_line post st))
  = dict_get name (series_data st).
Proof.
  revert st. induction post as [| l post IH]; intros st H; [reflexivity |].
  cbn [fold_left]. rewrite IH.
  - rewrite parse_line_data.
    destruct (series_of l) as [[n c] |] eqn:E; [| reflexivity].
    apply dict_get_set_other. intros ->.
    apply (H l c); [now left | assumption].
  - intros l' c' Hin. apply H. now right.
Qed.

(** A turn of the loop sees its line through [strip] only. *)
Lemma parse_line_strip (st : state) (l1 l2 : str) :
  strip l1 = strip l2 -> parse_line st l1 = parse_line st l2.
Proof. intros H. unfold parse_line. cbv zeta. now rewrite H. Qed.

Lemma parse_line_blank (st : state) (ws : str) :
  forallb isspace ws = true -> parse_line st ws = st.
Proof.
  intros H. unfold parse_line. cbv zeta. now rewrite (strip_blank ws H).
Qed.

Lemma fold_split_blank (b : str) :
  forallb isspace b = true ->
  forall p st,
    fold_left parse_line (push_front p (split LF b)) st = parse_line st p.
Proof.
  induction b as [| c b IH]; intros Hb p st.
  - cbn. now rewrite app_nil_r.
  - cbn [forallb] in Hb. apply andb_true_iff in Hb. destruct Hb as [Hc Hb].
    cbn [split]. destruct (c =? LF)%char.
    + cbn [push_front fold_left]. rewrite app_nil_r.
      rewrite <- (push_front_nil (split LF b)) by apply split_not_nil.
      rewrite IH by exact Hb. now apply parse_line_blank.
    + rewrite push_front_app, IH by exact Hb.
      apply parse_line_strip. apply strip_blank_app_r.
      cbn. now rewrite Hc.
Qed.

Lemma fold_split_blank_tail (b : str) :
  forallb isspace b = true ->
  forall m p st,
    fold_left parse_line (push_front p (split LF (m ++ b))) st
    = fold_left parse_line (push_front p (split LF m)) st.
Proof.
  intros Hb. induction m as [| c m IH]; intros p st.
  - cbn [app]. rewrite fold_split_blank by exact Hb. cbn.
    now rewrite app_nil_r.
  - cbn [app split]. destruct (c =? LF)%char.
    + cbn [push_front fold_left].
      rewrite <- (push_front_nil (split LF (m ++ b))) by apply split_not_nil.
      rewrite <- (push_front_nil (split LF m)) by apply split_not_nil.
      apply IH.
    + rewrite !push_front_app. apply IH.
Qed.

Lemma fold_split_blank_head (a : str) :
  forallb isspace a = true ->
  forall r st,
    fold_left parse_line (split LF (a ++ r)) st
    = fold_left parse_line (split LF r) st.
Proof.
  induction a as [| c a IH]; intros Ha r st; [reflexivity |].
  cbn [forallb] in Ha. apply andb_true_iff in Ha. destruct Ha as [Hc Ha].
  cbn [app split]. destruct (c =? LF)%char.
  - cbn [fold_left]. rewrite (parse_line_blank st []) by reflexivity.
    now apply IH.
  - rewrite <- IH by exact Ha.
    destruct (split LF (a ++ r)) as [| w ws] eqn:E.
    + exfalso. exact (split_not_nil _ _ E).
    + cbn [push_front fold_left]. f_equal.
      apply parse_line_strip. apply (strip_blank_app_l [c]).
      cbn. now rewrite Hc.
Qed.

(** The [strip] of the whole text changes nothing for the loop: what it
    removes would be skipped as blank lines or trimmed with its line. *)
Lemma outer_strip_irrelevant (text_content : str) (st : state) :
  fold_left parse_line (lines_of text_content) st
  = fold_left parse_line (split LF text_content) st.
Proof.
  unfold lines_of.
  destruct (strip_decompose text_content) as [a [b [Ha [Hb [Ht _]]]]].
  rewrite Ht at 2.
  rewrite fold_split_blank_head by exact Ha.
  rewrite <- (push_front_nil (split LF (strip text_content ++ b)))
    by apply split_not_nil.
  rewrite fold_split_blank_tail by exact Hb.
  now rewrite push_front_nil by apply split_not_nil.
Qed.

(** Decoding lines joined by line feeds runs the loop over those lines. *)
Lemma decode_joined_lines (l : list str) (st : state) :
  Forall (fun x => ~ In LF x) l ->
  fold_left parse_line (lines_of (join [LF] l)) st
  = fold_left parse_line l st.
Proof.
  intros H. rewrite outer_strip_irrelevant.
  destruct l as [| x l]; [reflexivity |].
  rewrite split_join; [reflexivity | discriminate | exact H].
Qed.

(** C6, as the claim states it, fails: the line [Manga:] ends with a
    colon and is not of the form [<CategoryName> :] for any of the four
    names, yet it changes the active category. *)
Lemma colon_line_without_blank_switches :
  ~ (forall (st : state) (line : str),
        endswith (txt ":") (strip line) = true ->
        (forall c, In c CATEGORIES -> line <> c ++ txt " :") ->
        current_category (parse_line st line) = current_category st).
Proof.
  intros H. specialize (H initial (txt "Manga:")).
  assert (E : current_category (parse_line initial (txt "Manga:"))
              = current_category initial).
  { apply H; [reflexivity |].
    intros c Hc. simpl in Hc.
    repeat (destruct Hc as [<- | Hc]; [discriminate |]). contradiction. }
  vm_compute in E. discriminate E.
Qed.

(** C6, amended.  A turn of the loop moves the active category to another
    name [c] exactly when the trimmed line has no run of five hyphens,
    ends with a colon, and its text before the first colon, trimmed, is
    [c], one of the four names compared character by character.  A line
    that ends with a colon never changes the stored records. *)
Theorem category_switch_iff (st : state) (line c : str) :
  c <> current_category st ->
  (current_category (parse_line st line) = c
   <-> (endswith (txt ":") (strip line) = true
        /\ contains (txt "-----") (strip line) = false
        /\ category_name (strip line) = c
        /\ In c CATEGORIES))
  /\ (endswith (txt ":") (strip line) = true ->
      series_data (parse_line st line) = series_data st).
Proof.
  intros Hne. split.
  - rewrite parse_line_category. unfold header_of.
    destruct (is_nil (strip line)) eqn:Hnil.
    { cbn [orb]. split; [congruence |].
      intros [He _]. destruct (strip line); [| discriminate Hnil].
      discriminate He. }
    cbn [orb].
    destruct (contains (txt "-----") (strip line)) eqn:Hsep.
    { split; [congruence | intros [_ [F _]]; discriminate F]. }
    destruct (endswith (txt ":") (strip line)) eqn:Hend; cbn [andb].
    + destruct (str_in (category_name (strip line)) CATEGORIES) eqn:Hin.
      * split.
        -- intros <-. repeat split. now apply str_in_In.
        -- intros [_ [_ [E _]]]. exact E.
      * split; [congruence |].
        intros [_ [_ [E Hc]]]. subst c.
        apply (proj2 (str_in_In _ _)) in Hc. congruence.
    + split; [congruence | intros [F _]; discriminate F].
  - intros Hend. rewrite parse_line_data. unfold series_of.
    rewrite Hend.
    destruct (is_nil (strip line) || contains (txt "-----") (strip line));
      reflexivity.
Qed.

Lemma category_switch_iff_witness :
  (current_category (parse_line initial (txt "  Manhwa:  ")) = txt "Manhwa"
   <-> (endswith (txt ":") (strip (txt "  Manhwa:  ")) = true
        /\ contains (txt "-----") (strip (txt "  Manhwa:  ")) = false
        /\ category_name (strip (txt "  Manhwa:  ")) = txt "Manhwa"
        /\ In (txt "Manhwa") CATEGORIES))
  /\ (endswith (txt ":") (strip (txt "  Manhwa:  ")) = true ->
      series_data (parse_line initial (txt "  Manhwa:  "))
      = series_data initial).
Proof.
  apply (category_switch_iff initial (txt "  Manhwa:  ") (txt "Manhwa")).
  vm_compute. discriminate.
Defined.

(** Every line of the form [<CategoryName> :] is a header, for each of the
    four names and from every state. *)
Lemma exact_header_switches (st : state) (c : str) :
  In c CATEGORIES -> current_category (parse_line st (c ++ txt " :")) = c.
Proof.
  intros Hc. rewrite parse_line_category. simpl in Hc.
  repeat (destruct Hc as [<- | Hc]; [reflexivity |]). contradiction.
Qed.

(** The comparison with the four names is case-sensitive. *)
Example lower_case_header_ignored (st : state) :
  parse_line st (txt "manga :") = st.
Proof. reflexivity. Qed.

(** C7.  A series line is stored under the category that is active when
    the loop reaches it, and the active category is [Other] as long as no
    header has been read: after any lines [pre] without a header the
    active category is [Other], and a series line that follows them is
    stored under [Other]. *)
Theorem series_line_takes_active_category
  (st : state) (line name : str) (c : float) :
  series_of line = Some (name, c) ->
  (series_data (parse_line st line)
   = dict_set name (entry c (current_category st)) (series_data st)
   /\ current_category (parse_line st line) = current_category st
   /\ dict_get name (series_data (parse_line st line))
      = Some (entry c (current_category st)))
  /\ current_category initial = txt "Other"
  /\ (forall pre : list str,
        Forall (fun l => header_of l = None) pre ->
        current_category (run pre) = txt "Other"
        /\ dict_get name (series_data (run (pre ++ [line])))
           = Some (entry c (txt "Other"))).
Proof.
  intros Hs.
  assert (Hstep : forall st0,
             series_data (parse_line st0 line)
             = dict_set name (entry c (current_category st0))
                 (series_data st0)).
  { intros st0. rewrite parse_line_data, Hs. reflexivity. }
  split; [| split; [reflexivity |]].
  - split; [apply Hstep |]. split.
    + rewrite parse_line_category.
      now rewrite (series_line_is_no_header line name c Hs).
    + rewrite Hstep. apply dict_get_set_same.
  - intros pre Hpre.
    assert (Hcat : current_category (run pre) = txt "Other").
    { unfold run.
      assert (G : forall st0, current_category st0 = txt "Other" ->
                  current_category (fold_left parse_line pre st0)
                  = txt "Other").
      { induction Hpre as [| l pre Hl Hpre IH]; intros st0 H0.
        - exact H0.
        - cbn [fold_left]. apply IH.
          rewrite parse_line_category, Hl. exact H0. }
      apply G. reflexivity. }
    split; [exact Hcat |].
    rewrite run_app. cbn [fold_left]. rewrite Hstep, Hcat.
    apply dict_get_set_same.
Qed.

Lemma series_line_takes_active_category_witness :
  let st := parse_line initial (txt "Manhwa :") in
  let c := S754_finite false 6755399441055744 (-52) in
  (series_data (parse_line st (txt "Bar - ep: 1.5"))
   = dict_set (txt "Bar") (entry c (current_category st)) (series_data st)
   /\ current_category (parse_line st (txt "Bar - ep: 1.5"))
      = current_category st
   /\ dict_get (txt "Bar") (series_data (parse_line st (txt "Bar - ep: 1.5")))
      = Some (entry c (current_category st)))
  /\ current_category initial = txt "Other"
  /\ (forall pre : list str,
        Forall (fun l => header_of l = None) pre ->
        current_category (run pre) = txt "Other"
        /\ dict_get (txt "Bar")
             (series_data (run (pre ++ [txt "Bar - ep: 1.5"])))
           = Some (entry c (txt "Other"))).
Proof.
  intros st c.
  apply (series_line_takes_active_category st (txt "Bar - ep: 1.5")
           (txt "Bar") c).
  vm_compute. reflexivity.
Defined.

(** A matched line whose second group [float] cannot read is not stored;
    the loop prints a warning and goes on. *)
Example unreadable_chapter_skipped :
  let st := parse_line initial (txt "Foo - ep: 1.2.3") in
  series_data st = []
  /\ current_category st = txt "Other"
  /\ printed st
     = [StartingParse; SkippingInvalidChapter (txt "Foo") (txt "1.2.3")].
Proof. vm_compute. repeat split. Qed.

(** C10.  When the lines of a text hold two series lines with one name
    and no later series line has that name, the decoded dictionary maps
    the name to the chapter of the later line and to the category active
    when the loop reached it. *)
Theorem last_series_line_wins
  (text_content : str) (pre mid post : list str) (l1 l2 name : str)
  (c1 c2 : float) :
  lines_of text_content = pre ++ l1 :: mid ++ l2 :: post ->
  series_of l1 = Some (name, c1) ->
  series_of l2 = Some (name, c2) ->
  (forall l c, In l post -> series_of l <> Some (name, c)) ->
  dict_get name (parse_series_data text_content)
  = Some (entry c2 (current_category (run (pre ++ l1 :: mid)))).
Proof.
  intros Hlines _ H2 Hpost. unfold parse_series_data. rewrite Hlines.
  replace (pre ++ l1 :: mid ++ l2 :: post)
    with ((pre ++ l1 :: mid) ++ l2 :: post)
    by (rewrite <- app_assoc; reflexivity).
  rewrite run_app. cbn [fold_left].
  rewrite fold_keeps_other_names by exact Hpost.
  rewrite parse_line_data, H2. apply dict_get_set_same.
Qed.

Lemma last_series_line_wins_witness :
  dict_get (txt "Foo")
    (parse_series_data
       (txt "Foo - ep: 3" ++ [LF] ++ txt "Manhwa :" ++ [LF]
        ++ txt "Foo - ep: 4.5" ++ [LF] ++ txt "Bar - ep: 1"))
  = Some (entry (S754_finite false 5066549580791808 (-50))
            (current_category
               (run ([] ++ txt "Foo - ep: 3" :: [txt "Manhwa :"])))).
Proof.
  apply (last_series_line_wins _ [] [txt "Manhwa :"] [txt "Bar - ep: 1"]
           (txt "Foo - ep: 3") (txt "Foo - ep: 4.5") (txt "Foo")
           (S754_finite false 6755399441055744 (-51))
           (S754_finite false 5066549580791808 (-50))).
  - vm_compute. reflexivity.
  - vm_compute. reflexivity.
  - vm_compute. reflexivity.
  - intros l c [<- | []]. vm_compute. discriminate.
Defined.

(** The scenario of the specification. *)
Example decode_scenario :
  parse_series_data
    (txt "Manga :" ++ [LF] ++ txt "Foo - ep: 3" ++ [LF] ++ txt "Manhwa :"
     ++ [LF] ++ txt "Bar - ep: 1.5" ++ [LF])
  = [(txt "Foo", entry (S754_finite false 6755399441055744 (-51))
                   (txt "Manga"));
     (txt "Bar", entry (S754_finite false 6755399441055744 (-52))
                   (txt "Manhwa"))].
Proof. vm_compute. reflexivity. Qed.

End ImporterFacts.

(* ================================================================== *)
(** * What [float] gives on digits and dots *)
(* ================================================================== *)

Module FloatFacts.

Import Importer.

Lemma iter_pos_keeps {A : Type} (P : A -> Prop) (f : A -> A) :
  (forall x, P x -> P (f x)) ->
  forall p x, P x -> P (iter_pos f p x).
Proof.
  intros Hf. induction p as [p IH | p IH |]; intros x Hx; cbn; auto.
Qed.

Lemma shr_1_nonneg (mrs : shr_record) :
  (0 <= shr_m mrs)%Z -> (0 <= shr_m (shr_1 mrs))%Z.
Proof.
  destruct mrs as [m r s]. cbn [shr_m].
  destruct m as [| [p | p |] | p]; cbn; lia.
Qed.

Lemma shr_fexp_nonneg (m e : Z) (l : location) :
  (0 <= m)%Z -> (0 <= shr_m (fst (shr_fexp prec emax m e l)))%Z.
Proof.
  intros Hm. unfold shr_fexp, shr.
  assert (H0 : (0 <= shr_m (shr_record_of_loc m l))%Z)
    by (destruct l as [| []]; exact Hm).
  destruct (fexp prec emax (Zdigits2 m + e) - e)%Z; cbn [fst];
    try exact H0.
  apply (iter_pos_keeps (fun x => (0 <= shr_m x)%Z));
    [apply shr_1_nonneg | exact H0].
Qed.

Lemma round_nearest_even_nonneg (m : Z) (l : location) :
  (0 <= m)%Z -> (0 <= round_nearest_even m l)%Z.
Proof.
  intros Hm. destruct l as [| []]; cbn; try exact Hm; try lia.
  destruct (Z.even m); lia.
Qed.

(** Rounding a mantissa that is not negative, with the sign of a positive
    number, gives a zero, a positive value or the positive infinity. *)
Lemma binary_round_aux_nonneg (mx ex : Z) (lx : location) :
  (0 <= mx)%Z ->
  Notions.nonneg_or_inf (binary_round_aux prec emax false mx ex lx) = true.
Proof.
  intros Hm. unfold binary_round_aux.
  pose proof (shr_fexp_nonneg mx ex lx Hm) as H1.
  destruct (shr_fexp prec emax mx ex lx) as [mrs' e'].
  cbn [fst] in H1.
  pose proof (shr_fexp_nonneg
                (round_nearest_even (shr_m mrs') (loc_of_shr_record mrs'))
                e' loc_Exact
                (round_nearest_even_nonneg _ _ H1)) as H2.
  destruct (shr_fexp prec emax
              (round_nearest_even (shr_m mrs') (loc_of_shr_record mrs'))
              e' loc_Exact) as [mrs'' e''].
  cbn [fst] in H2.
  destruct (shr_m mrs'') as [| p | p]; [reflexivity | | lia].
  destruct (e'' <=? emax - prec)%Z; reflexivity.
Qed.

Lemma float_of_ratio_nonneg (num den : Z) :
  (0 <= num)%Z -> (0 < den)%Z ->
  Notions.nonneg_or_inf (float_of_ratio false num den) = true.
Proof.
  intros Hn Hd. unfold float_of_ratio, SFdiv_core_binary.
  match goal with
  | |- context [Z.div_eucl ?m den] =>
      assert (Hm : (0 <= m)%Z);
      [| pose proof (Z.div_pos m den Hm Hd) as Hq; unfold Z.div in Hq;
         destruct (Z.div_eucl m den) as [q r] ]
  end.
  - match goal with
    | |- (0 <= match ?s with _ => _ end)%Z => destruct s
    end; [exact Hn | | lia].
    now apply Z.shiftl_nonneg.
  - now apply binary_round_aux_nonneg.
Qed.

Lemma float_of_decimal_nonneg (m e10 : Z) :
  (0 <= m)%Z ->
  Notions.nonneg_or_inf (float_of_decimal false m e10) = true.
Proof.
  intros Hm. unfold float_of_decimal.
  destruct (m =? 0)%Z; [reflexivity |].
  destruct (0 <=? e10)%Z eqn:E.
  - apply float_of_ratio_nonneg; [| lia].
    apply Z.mul_nonneg_nonneg; [exact Hm |]. now apply Z.pow_nonneg.
  - apply float_of_ratio_nonneg; [exact Hm |].
    apply Z.pow_pos_nonneg; lia.
Qed.

Lemma digit_value_nonneg (c : ascii) :
  is_digit c = true -> (0 <= digit_value c)%Z.
Proof.
  unfold is_digit, digit_value. intros H. apply andb_true_iff in H.
  destruct H as [H _]. apply N.leb_le in H. lia.
Qed.

Lemma Z_of_digits_nonneg (ds : str) :
  forallb is_digit ds = true -> (0 <= Z_of_digits ds)%Z.
Proof.
  unfold Z_of_digits.
  assert (G : forall acc, (0 <= acc)%Z -> forallb is_digit ds = true ->
              (0 <= fold_left (fun acc c => 10 * acc + digit_value c)
                      ds acc)%Z); [| intros H; apply G; [lia | exact H]].
  induction ds as [| c ds IH]; intros acc Hacc H; [exact Hacc |].
  cbn [forallb] in H. apply andb_true_iff in H. destruct H as [Hc Hds].
  cbn [fold_left]. apply IH; [| exact Hds].
  pose proof (digit_value_nonneg c Hc). lia.
Qed.

Lemma span_digits_digits (s : str) :
  forallb is_digit (fst (span_digits s)) = true.
Proof.
  induction s as [| c s IH]; [reflexivity |]. cbn [span_digits].
  destruct (is_digit c) eqn:E; [| reflexivity].
  destruct (span_digits s) as [d r]. cbn [fst forallb] in *.
  now rewrite E, IH.
Qed.

(** What the decimal grammar returns: the sign that the text begins
    with, and digits. *)
Lemma scan_decimal_parts (s : str) (sg : bool) (ip fp : str) (ex : Z) :
  scan_decimal s = Some (sg, ip, fp, ex) ->
  sg = fst (take_sign s)
  /\ forallb is_digit ip = true /\ forallb is_digit fp = true.
Proof.
  unfold scan_decimal. destruct (take_sign s) as [sg0 s1]. cbn [fst].
  pose proof (span_digits_digits s1) as Hip.
  destruct (span_digits s1) as [ip0 s2]. cbn [fst] in Hip.
  match goal with
  | |- context [let (fp, s3) := ?P in _] =>
      assert (Hfp : forallb is_digit (fst P) = true);
      [| destruct P as [fp0 s3] ]
  end.
  { destruct s2 as [| c r]; [reflexivity |].
    destruct c as [[] [] [] [] [] [] [] []]; try reflexivity.
    apply span_digits_digits. }
  cbn [fst] in Hfp.
  destruct (is_nil ip0 && is_nil fp0); [discriminate |].
  destruct s3 as [| e s4].
  - intros [= <- <- <- <-]. auto.
  - destruct ((e =? "e")%char || (e =? "E")%char); [| discriminate].
    destruct (take_sign s4) as [esg s5].
    destruct (span_digits s5) as [ed s6].
    destruct (negb (is_nil ed) && is_nil s6); [| discriminate].
    intros [= <- <- <- <-]. auto.
Qed.

Ltac digit_or_dot_char c :=
  destruct c as [[] [] [] [] [] [] [] []]; vm_compute; congruence.

Lemma digit_or_dot_low (c : ascii) :
  is_digit_or_dot c = true -> (code c <? 127)%N = true.
Proof. digit_or_dot_char c. Qed.

Lemma digit_or_dot_no_underscore (c : ascii) :
  is_digit_or_dot c = true -> (c =? "_")%char = false.
Proof. digit_or_dot_char c. Qed.

Lemma digit_or_dot_no_c_space (c : ascii) :
  is_digit_or_dot c = true -> is_c_space c = false.
Proof. digit_or_dot_char c. Qed.

Lemma digit_or_dot_lower (c : ascii) :
  is_digit_or_dot c = true -> c_tolower c = c.
Proof. digit_or_dot_char c. Qed.

Lemma take_sign_digits (c : ascii) (d : str) :
  is_digit_or_dot c = true -> take_sign (c :: d) = (false, c :: d).
Proof. digit_or_dot_char c. Qed.

Lemma transform_digits (d : str) :
  forallb is_digit_or_dot d = true -> transform_decimal_and_space d = d.
Proof.
  induction d as [| c d IH]; [reflexivity |]. cbn [forallb]. intros H.
  apply andb_true_iff in H. destruct H as [Hc Hd].
  cbn [transform_decimal_and_space].
  now rewrite (digit_or_dot_low c Hc), (IH Hd).
Qed.

Lemma drop_underscores_digits (d : str) :
  forallb is_digit_or_dot d = true ->
  forall prev, (prev =? "_")%char = false ->
  drop_underscores prev d = Some d.
Proof.
  induction d as [| c d IH]; intros H prev Hp.
  - cbn. now rewrite Hp.
  - cbn [forallb] in H. apply andb_true_iff in H. destruct H as [Hc Hd].
    cbn [drop_underscores].
    rewrite (digit_or_dot_no_underscore c Hc), Hp. cbn [andb].
    now rewrite (IH Hd c (digit_or_dot_no_underscore c Hc)).
Qed.

Lemma c_lstrip_digits (d : str) :
  forallb is_digit_or_dot d = true -> c_lstrip d = d.
Proof.
  destruct d as [| c d]; [reflexivity |]. cbn [forallb]. intros H.
  apply andb_true_iff in H. destruct H as [Hc _].
  cbn [c_lstrip]. now rewrite (digit_or_dot_no_c_space c Hc).
Qed.

Lemma c_strip_digits (d : str) :
  forallb is_digit_or_dot d = true -> c_strip d = d.
Proof.
  intros H. unfold c_strip. rewrite (c_lstrip_digits d H).
  rewrite c_lstrip_digits by now rewrite forallb_rev.
  apply rev_involutive.
Qed.

Lemma no_inf_or_nan_in_digits (d : str) :
  forallb is_digit_or_dot d = true -> parse_inf_or_nan d = None.
Proof.
  intros H. unfold parse_inf_or_nan.
  assert (Hs : exists sg, take_sign d = (sg, d)).
  { destruct d as [| c d]; [now exists false |].
    cbn [forallb] in H. apply andb_true_iff in H. destruct H as [Hc _].
    exists false. now apply take_sign_digits. }
  destruct Hs as [sg ->].
  assert (Hl : map c_tolower d = d).
  { clear sg. induction d as [| c d IH]; [reflexivity |].
    cbn [forallb] in H. apply andb_true_iff in H. destruct H as [Hc Hd].
    cbn [map]. now rewrite (digit_or_dot_lower c Hc), (IH Hd). }
  rewrite Hl.
  assert (Hne : forall w, forallb is_digit_or_dot w = false ->
                          str_eqb d w = false).
  { intros w Hw. apply str_eqb_neq. intros ->. congruence. }
  now rewrite !Hne by reflexivity.
Qed.

(** A text of digits and dots that [float] reads gives a zero, a positive
    value or the positive infinity. *)
Lemma float_of_digits (d : str) (c : float) :
  forallb is_digit_or_dot d = true -> float_of_str d = Some c ->
  Notions.nonneg_or_inf c = true.
Proof.
  intros Hd. unfold float_of_str.
  rewrite (transform_digits d Hd).
  rewrite (drop_underscores_digits d Hd NUL) by reflexivity.
  rewrite (c_strip_digits d Hd).
  destruct (scan_decimal d) as [[[[sg ip] fp] ex] |] eqn:E.
  - destruct (scan_decimal_parts d sg ip fp ex E) as [Hsg [Hip Hfp]].
    assert (Hf : sg = false).
    { rewrite Hsg. destruct d as [| x d]; [reflexivity |].
      cbn [forallb] in Hd. apply andb_true_iff in Hd.
      destruct Hd as [Hx _]. now rewrite (take_sign_digits x d Hx). }
    clear Hsg. subst sg. intros [= <-]. apply float_of_decimal_nonneg.
    apply Z_of_digits_nonneg. rewrite forallb_app. now rewrite Hip, Hfp.
  - now rewrite (no_inf_or_nan_in_digits d Hd).
Qed.

Lemma nonneg_or_inf_cases (c : float) :
  Notions.nonneg_or_inf c = true ->
  c <> S754_nan /\ float_ltb c float_zero = false
  /\ (Tracker.nonneg_real c = true \/ c = S754_infinity false).
Proof.
  destruct c as [sg | sg | | sg m e]; cbn; try discriminate.
  - intros _. repeat split; [discriminate | now left].
  - destruct sg; [discriminate |]. intros _.
    repeat split; [discriminate | now right].
  - destruct sg; [discriminate |]. intros _.
    repeat split; [discriminate | now left].
Qed.

End FloatFacts.

(* ================================================================== *)
(** * [float] reads back what [repr] prints with digits and dots *)
(* ================================================================== *)

Module ReprFacts.

Import Importer Rounding.

Local Open Scope Z_scope.

(** ** Where a quotient lies *)

Lemma places_unique (a b : shr_record) (n d n' d' : Z) :
  0 < d -> 0 < d' -> n * d' = n' * d ->
  places a n d -> places b n' d' -> a = b.
Proof.
  intros Hd Hd' E (Ha0 & Ha & Hal) (Hb0 & Hb & Hbl).
  destruct a as [ma ra sa], b as [mb rb sb]. cbn [shr_m shr_r shr_s] in *.
  assert (Hm : ma = mb).
  { destruct (Z.lt_trichotomy ma mb) as [H | [H | H]]; [exfalso | exact H | exfalso].
    - assert (ma + 1 <= mb) by lia.
      assert (n * d' < (ma + 1) * d * d') by nia.
      assert (mb * d' * d <= n' * d) by nia.
      nia.
    - assert (mb + 1 <= ma) by lia.
      assert (n' * d < (mb + 1) * d' * d) by nia.
      assert (ma * d * d' <= n * d') by nia.
      nia. }
  subst mb.
  assert (H2 : 2 * n * d' = 2 * n' * d) by lia.
  destruct ra, sa, rb, sb; try reflexivity; exfalso; nia.
Qed.

Lemma places_shr_1 (mrs : shr_record) (n d : Z) :
  0 < d -> places mrs n d -> places (shr_1 mrs) n (2 * d).
Proof.
  intros Hd (H0 & Hm & Hl). destruct mrs as [m r s]. cbn [shr_m shr_r shr_s] in *.
  unfold places.
  destruct m as [| p | p]; [| | lia].
  - cbn [shr_1 shr_m shr_r shr_s]. destruct r, s; cbn [orb]; lia.
  - destruct p as [p | p |]; cbn [shr_1 shr_m shr_r shr_s].
    + rewrite Pos2Z.inj_xI in *. destruct r, s; cbn [orb]; lia.
    + rewrite Pos2Z.inj_xO in *. destruct r, s; cbn [orb]; lia.
    + destruct r, s; cbn [orb]; lia.
Qed.

Lemma pow2_xO (p : positive) : 2 ^ Z.pos p~0 = 2 ^ Zpos p * 2 ^ Zpos p.
Proof.
  rewrite (Pos2Z.inj_xO p). replace (2 * Z.pos p) with (Z.pos p + Z.pos p) by lia.
  now rewrite Z.pow_add_r by lia.
Qed.

Lemma pow2_xI (p : positive) : 2 ^ Z.pos p~1 = 2 * (2 ^ Zpos p * 2 ^ Zpos p).
Proof.
  rewrite (Pos2Z.inj_xI p).
  replace (2 * Z.pos p + 1) with (1 + (Z.pos p + Z.pos p)) by lia.
  now rewrite !Z.pow_add_r, Z.pow_1_r by lia.
Qed.

Lemma places_iter (p : positive) :
  forall (mrs : shr_record) (n d : Z),
    0 < d -> places mrs n d ->
    places (iter_pos shr_1 p mrs) n (2 ^ Zpos p * d).
Proof.
  induction p as [p IH | p IH |]; intros mrs n d Hd H; cbn [iter_pos].
  - apply places_shr_1 in H; [| exact Hd].
    assert (Hp : 0 < 2 ^ Zpos p) by (apply Z.pow_pos_nonneg; lia).
    apply IH in H; [| lia]. apply IH in H; [| nia].
    replace (2 ^ Z.pos p~1 * d) with (2 ^ Zpos p * (2 ^ Zpos p * (2 * d)));
      [exact H |].
    rewrite pow2_xI. ring.
  - assert (Hp : 0 < 2 ^ Zpos p) by (apply Z.pow_pos_nonneg; lia).
    apply IH in H; [| lia]. apply IH in H; [| nia].
    replace (2 ^ Z.pos p~0 * d) with (2 ^ Zpos p * (2 ^ Zpos p * d));
      [exact H |].
    rewrite pow2_xO. ring.
  - apply places_shr_1 in H; [| exact Hd]. exact H.
Qed.

Lemma places_new_location (q r n d : Z) :
  0 < d -> 0 <= q -> 0 <= r < d -> n = q * d + r ->
  places (shr_record_of_loc q (new_location d r)) n d.
Proof.
  intros Hd Hq Hr ->. unfold new_location, new_location_even, new_location_odd.
  assert (Hpar : d = 2 * (d / 2) + (if Z.even d then 0 else 1)).
  { rewrite (Z.div_mod d 2) at 1 by lia. f_equal.
    rewrite Zmod_even. reflexivity. }
  destruct (Z.even d) eqn:Hev.
  - destruct (Z.eqb_spec r 0) as [-> | Hne].
    + unfold places; cbn [shr_record_of_loc shr_m shr_r shr_s]. lia.
    + destruct (Z.compare_spec (2 * r) d);
        unfold places; cbn [shr_record_of_loc shr_m shr_r shr_s]; nia.
  - destruct (Z.eqb_spec r 0) as [-> | Hne].
    + unfold places; cbn [shr_record_of_loc shr_m shr_r shr_s]. lia.
    + destruct (Z.compare_spec (2 * r + 1) d);
        unfold places; cbn [shr_record_of_loc shr_m shr_r shr_s]; nia.
Qed.

Lemma digits2_pos_bounds (p : positive) :
  2 ^ (Zpos (digits2_pos p) - 1) <= Zpos p < 2 ^ Zpos (digits2_pos p).
Proof.
  induction p as [p IH | p IH |]; cbn [digits2_pos].
  - rewrite Pos2Z.inj_succ, (Pos2Z.inj_xI p).
    replace (Z.succ (Z.pos (digits2_pos p)) - 1)
      with (1 + (Z.pos (digits2_pos p) - 1)) by lia.
    replace (Z.succ (Z.pos (digits2_pos p)))
      with (1 + Z.pos (digits2_pos p)) by lia.
    rewrite !Z.pow_add_r, Z.pow_1_r by lia. lia.
  - rewrite Pos2Z.inj_succ, (Pos2Z.inj_xO p).
    replace (Z.succ (Z.pos (digits2_pos p)) - 1)
      with (1 + (Z.pos (digits2_pos p) - 1)) by lia.
    replace (Z.succ (Z.pos (digits2_pos p)))
      with (1 + Z.pos (digits2_pos p)) by lia.
    rewrite !Z.pow_add_r, Z.pow_1_r by lia. lia.
  - cbn. lia.
Qed.

Lemma Zdigits2_bounds (n : Z) :
  0 < n -> 1 <= Zdigits2 n /\ 2 ^ (Zdigits2 n - 1) <= n < 2 ^ Zdigits2 n.
Proof.
  destruct n as [| p | p]; try lia. intros _. cbn [Zdigits2].
  split; [lia | apply digits2_pos_bounds].
Qed.

Lemma pow2_lt_inv (a b : Z) : 0 <= a -> 0 <= b -> 2 ^ a < 2 ^ b -> a < b.
Proof. intros Ha Hb H. apply (Z.pow_lt_mono_r_iff 2); lia. Qed.

Lemma pow2_pos (a : Z) : 0 <= a -> 0 < 2 ^ a.
Proof. intros. apply Z.pow_pos_nonneg; lia. Qed.

Lemma fexp_eq (x : Z) : fexp prec emax x = fexp64 x.
Proof. reflexivity. Qed.

Lemma stage1_spec (num den : Z) :
  0 < num -> 0 < den ->
  exists s,
    0 <= s <= 1074 /\ 0 <= snd (stage1 num den) + s
    /\ places (fst (stage1 num den)) (num * 2 ^ s)
         (2 ^ (snd (stage1 num den) + s) * den)
    /\ ((exists dq,
           1 <= dq /\ 2 ^ (dq - 1) * den <= num * 2 ^ s < 2 ^ dq * den
           /\ snd (stage1 num den) = fexp64 (dq - s))
        \/ (num * 2 ^ s < den /\ s = 1074 /\ snd (stage1 num den) = -1074)).
Proof.
  intros Hn Hd. unfold stage1, SFdiv_core_binary.
  destruct (Zdigits2_bounds num Hn) as [Hd1 Hb1].
  destruct (Zdigits2_bounds den Hd) as [Hd2 Hb2].
  set (d1 := Zdigits2 num) in *. set (d2 := Zdigits2 den) in *.
  rewrite !Z.add_0_r, Z.sub_0_r, fexp_eq.
  set (e' := Z.min (fexp64 (d1 - d2)) 0).
  assert (He' : -1074 <= e' <= 0) by (unfold e', fexp64; lia).
  set (s := - e').
  replace (0 - e') with s by (unfold s; lia).
  assert (Hs : 0 <= s <= 1074) by (unfold s; lia).
  pose proof (pow2_pos s ltac:(lia)) as Hps.
  set (m' := match s with
             | 0 => num
             | Z.pos _ => Z.shiftl num s
             | Z.neg _ => 0
             end).
  assert (Hm' : m' = num * 2 ^ s).
  { unfold m'. destruct s as [| p | p] eqn:Es; [cbn; lia | | lia].
    now rewrite Z.shiftl_mul_pow2 by lia. }
  pose proof (Z_div_mod m' den ltac:(lia)) as Hdm.
  destruct (Z.div_eucl m' den) as [q r]. destruct Hdm as [Hq Hr].
  assert (Hq0 : 0 <= q) by nia.
  pose proof (places_new_location q r m' den Hd Hq0 Hr ltac:(lia)) as Hpl.
  unfold shr_fexp. rewrite fexp_eq.
  exists s. split; [exact Hs |].
  destruct (Z.eq_dec q 0) as [-> | Hqne].
  - (* the quotient is zero *)
    assert (Hemin : e' = -1074).
    { destruct (Z.eq_dec e' (-1074)) as [E | Hne]; [exact E | exfalso].
      assert (Hlt : m' < den) by lia.
      assert (Hge : 2 ^ (d2 + 52) <= m').
      { rewrite Hm'. unfold e', fexp64 in *.
        destruct (Z_le_gt_dec 0 (d1 - d2 - 53)) as [Hbig | Hsmall].
        - assert (s = 0) by (unfold s, e', fexp64; lia).
          replace s with 0 in * by lia. rewrite Z.pow_0_r, Z.mul_1_r.
          apply Z.le_trans with (2 ^ (d1 - 1)); [| lia].
          apply Z.pow_le_mono_r; lia.
        - assert (Es : s = 53 + d2 - d1) by (unfold s, e', fexp64; lia).
          apply Z.le_trans with (2 ^ (d1 - 1) * 2 ^ s); [| nia].
          rewrite <- Z.pow_add_r by lia.
          apply Z.pow_le_mono_r; lia. }
      assert (2 ^ d2 <= 2 ^ (d2 + 52)) by (apply Z.pow_le_mono_r; lia).
      lia. }
    cbn [Zdigits2]. rewrite Hemin.
    change (fexp64 (0 + -1074) - -1074) with 0. cbn [shr fst snd].
    assert (Es : s = 1074) by (unfold s; lia).
    split; [lia |]. split.
    + replace (-1074 + s) with 0 by lia. rewrite Z.pow_0_r, Z.mul_1_l.
      now rewrite <- Hm'.
    + right. split; [lia | split; [exact Es | reflexivity]].
  - (* the quotient is positive *)
    assert (Hqpos : 0 < q) by lia.
    destruct (Zdigits2_bounds q Hqpos) as [Hdq Hbq].
    set (dq := Zdigits2 q) in *.
    pose proof (pow2_pos (dq - 1) ltac:(lia)) as Hpq.
    assert (Hlow : 2 ^ (dq - 1) * den <= num * 2 ^ s) by nia.
    assert (Hhigh : num * 2 ^ s < 2 ^ dq * den) by nia.
    assert (Hdd : d1 - d2 <= dq + e').
    { assert (H1 : 2 ^ (d1 - 1 + s) < 2 ^ (dq + d2)).
      { rewrite !Z.pow_add_r by lia.
        pose proof (pow2_pos dq ltac:(lia)). nia. }
      apply pow2_lt_inv in H1; [| lia | lia]. unfold s in H1. lia. }
    assert (Hn0 : 0 <= fexp64 (dq + e') - e').
    { unfold e', fexp64 in *. lia. }
    replace (dq + e') with (dq - s) in * by (unfold s; lia).
    destruct (fexp64 (dq - s) - e') as [| p | p] eqn:En; [| | lia];
      cbn [shr fst snd].
    + assert (Ee : e' = fexp64 (dq - s)) by lia.
      split; [unfold s; lia |]. split.
      * replace (e' + s) with 0 by (unfold s; lia).
        rewrite Z.pow_0_r, Z.mul_1_l. now rewrite <- Hm'.
      * left. exists dq. auto.
    + split; [unfold s; lia |]. split.
      * replace (e' + Z.pos p + s) with (Z.pos p) by (unfold s; lia).
        rewrite <- Hm'. apply places_iter; [exact Hd | exact Hpl].
      * left. exists dq. split; [exact Hdq |]. split; [lia |]. lia.
Qed.

Lemma float_of_ratio_stages (sg : bool) (num den : Z) :
  float_of_ratio sg num den = finish sg (stage1 num den).
Proof.
  unfold float_of_ratio, stage1, finish, binary_round_aux.
  destruct (SFdiv_core_binary prec emax num 0 den 0) as [[q e] l].
  reflexivity.
Qed.

Lemma exponents_agree (a b a' b' dq s dq' s' : Z) :
  0 < a -> 0 < b -> 0 < a' -> 0 < b' -> a * b' = a' * b ->
  1 <= dq -> 0 <= s -> 1 <= dq' -> 0 <= s' ->
  2 ^ (dq - 1) * b <= a * 2 ^ s < 2 ^ dq * b ->
  2 ^ (dq' - 1) * b' <= a' * 2 ^ s' < 2 ^ dq' * b' ->
  dq - s = dq' - s'.
Proof.
  intros Ha Hb Ha' Hb' E Hdq Hs Hdq' Hs' [L U] [L' U'].
  pose proof (pow2_pos s Hs) as P1. pose proof (pow2_pos s' Hs') as P2.
  pose proof (pow2_pos (dq - 1) ltac:(lia)) as P3.
  pose proof (pow2_pos (dq' - 1) ltac:(lia)) as P4.
  pose proof (pow2_pos dq ltac:(lia)) as P5.
  pose proof (pow2_pos dq' ltac:(lia)) as P6.
  assert (G1 : 2 ^ (dq' - 1 + s) < 2 ^ (dq + s')).
  { rewrite !Z.pow_add_r by lia.
    assert (Z1 : 2 ^ (dq' - 1) * b <= a * 2 ^ s').
    { apply Z.mul_le_mono_pos_r with b'; [exact Hb' |]. nia. }
    assert (Z2 : 2 ^ (dq' - 1) * b * 2 ^ s <= a * 2 ^ s' * 2 ^ s) by nia.
    assert (Z3 : a * 2 ^ s * 2 ^ s' < 2 ^ dq * b * 2 ^ s') by nia.
    apply Z.mul_lt_mono_pos_r with b; [exact Hb |]. nia. }
  assert (G2 : 2 ^ (dq - 1 + s') < 2 ^ (dq' + s)).
  { rewrite !Z.pow_add_r by lia.
    assert (Z1 : 2 ^ (dq - 1) * b' <= a' * 2 ^ s).
    { apply Z.mul_le_mono_pos_r with b; [exact Hb |]. nia. }
    assert (Z2 : 2 ^ (dq - 1) * b' * 2 ^ s' <= a' * 2 ^ s * 2 ^ s') by nia.
    assert (Z3 : a' * 2 ^ s' * 2 ^ s < 2 ^ dq' * b' * 2 ^ s) by nia.
    apply Z.mul_lt_mono_pos_r with b'; [exact Hb' |]. nia. }
  apply pow2_lt_inv in G1; [| lia | lia].
  apply pow2_lt_inv in G2; [| lia | lia]. lia.
Qed.

Lemma stage1_same (a b a' b' : Z) :
  0 < a -> 0 < b -> 0 < a' -> 0 < b' -> a * b' = a' * b ->
  stage1 a b = stage1 a' b'.
Proof.
  intros Ha Hb Ha' Hb' E.
  destruct (stage1_spec a b Ha Hb) as (s & Hs & Hn & Hp & Hc).
  destruct (stage1_spec a' b' Ha' Hb') as (s' & Hs' & Hn' & Hp' & Hc').
  destruct (stage1 a b) as [m1 e1], (stage1 a' b') as [m2 e2].
  cbn [fst snd] in *.
  pose proof (pow2_pos s ltac:(lia)) as P1.
  pose proof (pow2_pos s' ltac:(lia)) as P2.
  assert (He : e1 = e2).
  { destruct Hc as [(dq & Hdq & Hb1 & ->) | (Hz & -> & ->)],
             Hc' as [(dq' & Hdq' & Hb2 & ->) | (Hz' & -> & ->)].
    - f_equal. apply (exponents_agree a b a' b'); auto; lia.
    - exfalso.
      pose proof (pow2_pos (dq - 1) ltac:(lia)) as P3.
      assert (P4 : 2 ^ s <= 2 ^ 1074) by (apply Z.pow_le_mono_r; lia).
      assert (X : b <= a * 2 ^ 1074) by nia.
      assert (Y : a' * b * 2 ^ 1074 < b' * b) by nia.
      assert (Z1 : b * b' <= a * b' * 2 ^ 1074) by nia.
      nia.
    - exfalso.
      pose proof (pow2_pos (dq' - 1) ltac:(lia)) as P3.
      assert (P4 : 2 ^ s' <= 2 ^ 1074) by (apply Z.pow_le_mono_r; lia).
      assert (X : b' <= a' * 2 ^ 1074) by nia.
      assert (Y : a * b' * 2 ^ 1074 < b * b') by nia.
      assert (Z1 : b' * b <= a' * b * 2 ^ 1074) by nia.
      nia.
    - reflexivity. }
  subst e2. f_equal.
  pose proof (pow2_pos (e1 + s) Hn) as P5.
  pose proof (pow2_pos (e1 + s') Hn') as P6.
  apply (places_unique m1 m2 (a * 2 ^ s) (2 ^ (e1 + s) * b)
           (a' * 2 ^ s') (2 ^ (e1 + s') * b'));
    [nia | nia | | exact Hp | exact Hp'].
  assert (P : 2 ^ s * 2 ^ (e1 + s') = 2 ^ s' * 2 ^ (e1 + s)).
  { rewrite <- !Z.pow_add_r by lia. f_equal. lia. }
  transitivity (a * b' * (2 ^ s * 2 ^ (e1 + s'))); [ring |].
  rewrite P, E. ring.
Qed.

Lemma float_of_ratio_same (sg : bool) (a b a' b' : Z) :
  0 < a -> 0 < b -> 0 < a' -> 0 < b' -> a * b' = a' * b ->
  float_of_ratio sg a b = float_of_ratio sg a' b'.
Proof.
  intros. rewrite !float_of_ratio_stages. f_equal. now apply stage1_same.
Qed.

(** A canonical pair is what its own value is read as. *)
Lemma float_of_ratio_pair (m : positive) (e : Z) :
  bounded prec emax m e = true ->
  float_of_ratio false (Zpos m * 2 ^ Z.max e 0) (2 ^ Z.max (- e) 0)
  = S754_finite false m e.
Proof.
  intros Hbd.
  unfold bounded, canonical_mantissa in Hbd. apply andb_prop in Hbd.
  destruct Hbd as [Hc He]. apply Z.eqb_eq in Hc. apply Z.leb_le in He.
  rewrite fexp_eq in Hc.
  set (a := Zpos m * 2 ^ Z.max e 0). set (b := 2 ^ Z.max (- e) 0).
  pose proof (pow2_pos (Z.max e 0) ltac:(lia)) as Pa.
  pose proof (pow2_pos (Z.max (- e) 0) ltac:(lia)) as Pb.
  assert (Ha : 0 < a) by (unfold a; nia). assert (Hb : 0 < b) by exact Pb.
  rewrite float_of_ratio_stages.
  destruct (stage1_spec a b Ha Hb) as (s & Hs & Hn & Hp & Hcase).
  destruct (stage1 a b) as [m1 e1]. cbn [fst snd] in *.
  destruct (digits2_pos_bounds m) as [Hm1 Hm2].
  set (dm := Zpos (digits2_pos m)) in *.
  assert (Hdm : 1 <= dm) by (unfold dm; lia).
  pose proof (pow2_pos s ltac:(lia)) as Ps.
  pose proof (pow2_pos (dm - 1) ltac:(lia)) as Pd1.
  pose proof (pow2_pos dm ltac:(lia)) as Pd.
  assert (Hem : -1074 <= e) by (unfold fexp64 in Hc; lia).
  assert (He1 : e1 = e).
  { destruct Hcase as [(dq & Hdq & [L U] & ->) | (Hz & -> & ->)].
    - rewrite <- Hc. f_equal.
      enough (G : dq - s = (dm + Z.max e 0) - Z.max (- e) 0) by lia.
      apply (exponents_agree a b a b); try lia.
      unfold a, b. split.
      + replace (dm + Z.max e 0 - 1) with ((dm - 1) + Z.max e 0) by lia.
        rewrite Z.pow_add_r by lia. nia.
      + rewrite Z.pow_add_r by lia. nia.
    - exfalso.
      assert (Hx : b <= 2 ^ 1074)
        by (unfold b; apply Z.pow_le_mono_r; lia).
      unfold a in Hz. nia. }
  subst e1.
  assert (Hrec : m1 = {| shr_m := Zpos m; shr_r := false; shr_s := false |}).
  { pose proof (pow2_pos (e + s) Hn) as Pn.
    apply (places_unique _ _ (a * 2 ^ s) (2 ^ (e + s) * b) (Zpos m) 1);
      [nia | lia | | exact Hp |].
    - unfold a, b.
      assert (P : 2 ^ Z.max e 0 * 2 ^ s = 2 ^ (e + s) * 2 ^ Z.max (- e) 0).
      { rewrite <- !Z.pow_add_r by lia. f_equal. lia. }
      transitivity (Zpos m * (2 ^ Z.max e 0 * 2 ^ s)); [ring |].
      rewrite P. ring.
    - unfold places. cbn [shr_m shr_r shr_s]. lia. }
  subst m1. unfold finish. cbn [shr_m loc_of_shr_record round_nearest_even].
  unfold shr_fexp. rewrite fexp_eq. cbn [Zdigits2]. fold dm. rewrite Hc.
  rewrite Z.sub_diag. cbn [shr shr_record_of_loc shr_m].
  change (emax - prec) with 971 in *. apply Z.leb_le in He. now rewrite He.
Qed.

Lemma float_of_ratio_exact (m : positive) (e a b : Z) :
  bounded prec emax m e = true -> 0 < a -> 0 < b ->
  a * 2 ^ Z.max (- e) 0 = Zpos m * 2 ^ Z.max e 0 * b ->
  float_of_ratio false a b = S754_finite false m e.
Proof.
  intros Hbd Ha Hb E. rewrite <- (float_of_ratio_pair m e Hbd).
  pose proof (pow2_pos (Z.max e 0) ltac:(lia)).
  pose proof (pow2_pos (Z.max (- e) 0) ltac:(lia)).
  apply float_of_ratio_same; try lia; nia.
Qed.

Lemma pow10_pos (a : Z) : 0 <= a -> 0 < 10 ^ a.
Proof. intros. apply Z.pow_pos_nonneg; lia. Qed.

Lemma float_of_decimal_ratio (sg : bool) (d k : Z) :
  0 < d ->
  float_of_decimal sg d k
  = float_of_ratio sg (d * 10 ^ Z.max k 0) (10 ^ Z.max (- k) 0).
Proof.
  intros Hd. unfold float_of_decimal.
  destruct (Z.eqb_spec d 0) as [-> | _]; [lia |].
  destruct (Z.leb_spec 0 k).
  - now rewrite !Z.max_l, Z.max_r by lia.
  - rewrite Z.max_r, Z.max_l by lia. now rewrite Z.pow_0_r, Z.mul_1_r.
Qed.

(** [float] reads two decimals of the same value as the same float. *)
Lemma float_of_decimal_same (sg : bool) (d k d' k' : Z) :
  0 < d -> 0 < d' ->
  d * 10 ^ Z.max k 0 * 10 ^ Z.max (- k') 0
  = d' * 10 ^ Z.max k' 0 * 10 ^ Z.max (- k) 0 ->
  float_of_decimal sg d k = float_of_decimal sg d' k'.
Proof.
  intros Hd Hd' E. rewrite !float_of_decimal_ratio by assumption.
  pose proof (pow10_pos (Z.max k 0) ltac:(lia)).
  pose proof (pow10_pos (Z.max k' 0) ltac:(lia)).
  pose proof (pow10_pos (Z.max (- k) 0) ltac:(lia)).
  pose proof (pow10_pos (Z.max (- k') 0) ltac:(lia)).
  apply float_of_ratio_same; try nia.
Qed.

Lemma reads_back_true (m : positive) (e d k : Z) :
  reads_back m e d k = true ->
  float_of_decimal false d k = S754_finite false m e.
Proof.
  unfold reads_back.
  destruct (float_of_decimal false d k) as [sg | sg | | sg m' e'];
    try discriminate.
  destruct sg; [discriminate |]. intros H. apply andb_prop in H.
  destruct H as [Hm He]. apply Pos.eqb_eq in Hm. apply Z.eqb_eq in He.
  now subst.
Qed.

Lemma digits_at_some (m : positive) (e n d k : Z) :
  digits_at m e n = Some (d, k) ->
  0 <= d /\ float_of_decimal false d k = S754_finite false m e.
Proof.
  unfold digits_at.
  set (nd := if 0 <=? e then (Z.pos m * 2 ^ e, 1) else (Z.pos m, 2 ^ (- e))).
  assert (Hnd : 0 < fst nd /\ 0 < snd nd).
  { unfold nd. destruct (Z.leb_spec 0 e); cbn [fst snd].
    - pose proof (pow2_pos e ltac:(lia)). split; nia.
    - pose proof (pow2_pos (- e) ltac:(lia)). split; lia. }
  destruct nd as [num den]. cbn [fst snd] in Hnd.
  set (k0 := floor_log10 num den - (n - 1)).
  set (sc := if 0 <=? k0 then (num, den * 10 ^ k0)
             else (num * 10 ^ (- k0), den)).
  assert (Hsc : 0 < fst sc /\ 0 < snd sc).
  { unfold sc. destruct (Z.leb_spec 0 k0); cbn [fst snd].
    - pose proof (pow10_pos k0 ltac:(lia)). split; nia.
    - pose proof (pow10_pos (- k0) ltac:(lia)). split; nia. }
  destruct sc as [snum sden]. cbn [fst snd] in Hsc.
  assert (Hlo : 0 <= snum / sden) by (apply Z.div_pos; lia).
  destruct (reads_back m e (snum / sden) k0) eqn:R1,
           (reads_back m e (snum / sden + 1) k0) eqn:R2;
    intros [= <- <-].
  - match goal with |- context [if ?b then _ else _] => destruct b end;
      (split; [lia | now apply reads_back_true]).
  - split; [lia | now apply reads_back_true].
  - split; [lia | now apply reads_back_true].
Qed.

Lemma float_of_decimal_exact (m : positive) (e : Z) :
  bounded prec emax m e = true ->
  float_of_decimal false
    (fst (if 0 <=? e then (Zpos m * 2 ^ e, 0) else (Zpos m * 5 ^ (- e), e)))
    (snd (if 0 <=? e then (Zpos m * 2 ^ e, 0) else (Zpos m * 5 ^ (- e), e)))
  = S754_finite false m e.
Proof.
  intros Hb. destruct (Z.leb_spec 0 e); cbn [fst snd].
  - pose proof (pow2_pos e ltac:(lia)) as P2.
    rewrite float_of_decimal_ratio by nia.
    change (Z.max 0 0) with 0. change (Z.max (- 0) 0) with 0.
    rewrite Z.pow_0_r, Z.mul_1_r.
    apply float_of_ratio_exact; [exact Hb | nia | lia |].
    replace (Z.max (- e) 0) with 0 by lia. replace (Z.max e 0) with e by lia.
    rewrite !Z.pow_0_r. ring.
  - assert (P5 : 0 < 5 ^ (- e)) by (apply Z.pow_pos_nonneg; lia).
    rewrite float_of_decimal_ratio by nia.
    pose proof (pow10_pos (- e) ltac:(lia)) as P10.
    replace (Z.max e 0) with 0 by lia.
    replace (Z.max (- e) 0) with (- e) by lia.
    rewrite Z.pow_0_r, Z.mul_1_r.
    apply float_of_ratio_exact; [exact Hb | nia | lia |].
    replace (Z.max e 0) with 0 by lia.
    replace (Z.max (- e) 0) with (- e) by lia.
    rewrite !Z.pow_0_r, !Z.mul_1_r.
    change 10 with (5 * 2). rewrite Z.pow_mul_l. ring.
Qed.

Lemma shortest_digits_reads (fuel : nat) (m : positive) (e n : Z) :
  bounded prec emax m e = true ->
  0 < fst (shortest_digits fuel m e n)
  /\ float_of_decimal false (fst (shortest_digits fuel m e n))
       (snd (shortest_digits fuel m e n))
     = S754_finite false m e.
Proof.
  intros Hb. revert n. induction fuel as [| fuel IH]; intros n;
    cbn [shortest_digits].
  - split; [| now apply float_of_decimal_exact].
    destruct (Z.leb_spec 0 e); cbn [fst].
    + pose proof (pow2_pos e ltac:(lia)). nia.
    + assert (0 < 5 ^ (- e)) by (apply Z.pow_pos_nonneg; lia). nia.
  - destruct (digits_at m e n) as [[d k] |] eqn:E; [| apply IH].
    apply digits_at_some in E. destruct E as [Hd Hr]. cbn [fst snd].
    split; [| exact Hr].
    destruct (Z.eq_dec d 0) as [-> | Hne]; [| lia].
    discriminate Hr.
Qed.

(** ** The rounding gives values of the format *)

Lemma Zdigits2_unique (n k : Z) :
  1 <= k -> 2 ^ (k - 1) <= n < 2 ^ k -> Zdigits2 n = k.
Proof.
  intros Hk [L U].
  assert (Hn : 0 < n) by (pose proof (pow2_pos (k - 1) ltac:(lia)); lia).
  destruct (Zdigits2_bounds n Hn) as [Hd [L' U']].
  assert (A : Zdigits2 n - 1 < k)
    by (apply pow2_lt_inv; lia).
  assert (B : k - 1 < Zdigits2 n)
    by (apply pow2_lt_inv; lia).
  lia.
Qed.

Lemma round_nearest_even_cases (m : Z) (l : location) :
  round_nearest_even m l = m \/ round_nearest_even m l = m + 1.
Proof.
  unfold round_nearest_even.
  destruct l as [| []]; auto; destruct (Z.even m); auto.
Qed.

(** The end of the rounding gives a value of the format. *)
Lemma finish_valid (sg : bool) (mrs : shr_record) (e k : Z) :
  1 <= k <= 53 -> e = fexp64 (k + e) ->
  2 ^ (k - 1) <= shr_m mrs < 2 ^ k ->
  valid_binary prec emax (finish sg (mrs, e)) = true.
Proof.
  intros Hk He [L U]. unfold finish.
  set (m' := round_nearest_even (shr_m mrs) (loc_of_shr_record mrs)).
  assert (Hm' : 2 ^ (k - 1) <= m' < 2 ^ k \/ m' = 2 ^ k).
  { destruct (round_nearest_even_cases (shr_m mrs) (loc_of_shr_record mrs))
      as [E | E]; fold m' in E; lia. }
  pose proof (pow2_pos (k - 1) ltac:(lia)) as Pk.
  unfold shr_fexp. rewrite fexp_eq.
  destruct Hm' as [Hin | Heq].
  - rewrite (Zdigits2_unique m' k) by lia. rewrite <- He, Z.sub_diag.
    cbn [shr shr_record_of_loc shr_m].
    destruct m' as [| p | p] eqn:Ep; try lia.
    destruct (Z.leb e (emax - prec)) eqn:Hle; [| reflexivity].
    cbn [valid_binary]. unfold bounded, canonical_mantissa.
    rewrite Hle, andb_true_r, fexp_eq.
    change (Z.pos (digits2_pos p)) with (Zdigits2 (Z.pos p)).
    rewrite (Zdigits2_unique (Z.pos p) k) by lia.
    apply Z.eqb_eq. now rewrite <- He.
  - assert (Hd : Zdigits2 m' = k + 1).
    { apply Zdigits2_unique; [lia |].
      replace (k + 1 - 1) with k by lia. rewrite Heq.
      rewrite Z.pow_add_r by lia. lia. }
    rewrite Hd.
    destruct (Z.eq_dec k 53) as [-> | Hne].
    + assert (He1 : fexp64 (53 + 1 + e) - e = 1) by (unfold fexp64 in *; lia).
      rewrite He1. rewrite Heq.
      cbn [shr shr_record_of_loc iter_pos shr_1 shr_m Z.pow Z.pow_pos
           Pos.iter Z.mul Pos.mul].
      destruct (Z.leb (e + 1) (emax - prec)) eqn:Hle; [| reflexivity].
      cbn [valid_binary]. unfold bounded, canonical_mantissa.
      rewrite Hle, andb_true_r, fexp_eq.
      apply Z.eqb_eq. cbn [digits2_pos Pos.succ]. unfold fexp64 in *. lia.
    + assert (He0 : e = -1074) by (unfold fexp64 in He; lia).
      assert (He1 : fexp64 (k + 1 + e) - e = 0) by (unfold fexp64; lia).
      rewrite He1. cbn [shr shr_record_of_loc shr_m].
      destruct m' as [| p | p] eqn:Ep; try lia.
      destruct (Z.leb e (emax - prec)) eqn:Hle; [| reflexivity].
      cbn [valid_binary]. unfold bounded, canonical_mantissa.
      rewrite Hle, andb_true_r, fexp_eq.
      change (Z.pos (digits2_pos p)) with (Zdigits2 (Z.pos p)).
      rewrite Hd. apply Z.eqb_eq. unfold fexp64. lia.
Qed.

Lemma finish_valid_below (sg : bool) (mrs : shr_record) :
  shr_m mrs = 0 ->
  valid_binary prec emax (finish sg (mrs, -1074)) = true.
Proof.
  intros Hm. unfold finish. rewrite Hm.
  destruct (round_nearest_even_cases 0 (loc_of_shr_record mrs)) as [E | E];
    rewrite E; reflexivity.
Qed.

Lemma float_of_ratio_valid (sg : bool) (num den : Z) :
  0 < num -> 0 < den ->
  valid_binary prec emax (float_of_ratio sg num den) = true.
Proof.
  intros Hn Hd. rewrite float_of_ratio_stages.
  destruct (stage1_spec num den Hn Hd) as (s & Hs & Hes & Hp & Hcase).
  destruct (stage1 num den) as [mrs e]. cbn [fst snd] in *.
  destruct Hp as (Hm0 & [Hlo Hhi] & _).
  pose proof (pow2_pos s ltac:(lia)) as Ps.
  pose proof (pow2_pos (e + s) Hes) as Pes.
  destruct Hcase as [(dq & Hdq & [L U] & He) | (Hz & -> & ->)].
  - set (k := dq - s - e).
    assert (Hk : 1 <= k <= 53) by (unfold k, fexp64 in *; lia).
    apply (finish_valid sg mrs e k Hk).
    + unfold k. replace (dq - s - e + e) with (dq - s) by lia. exact He.
    + pose proof (pow2_pos (k - 1) ltac:(lia)) as Pk1.
      pose proof (pow2_pos (dq - 1) ltac:(lia)) as Pd1.
      assert (E1 : 2 ^ dq = 2 ^ k * 2 ^ (e + s)).
      { rewrite <- Z.pow_add_r by lia. f_equal. unfold k. lia. }
      assert (E2 : 2 ^ (dq - 1) = 2 ^ (k - 1) * 2 ^ (e + s)).
      { rewrite <- Z.pow_add_r by lia. f_equal. unfold k. lia. }
      split.
      * (* (m + 1) * d1 > n1 >= 2^(dq-1) den *)
        assert (G : 2 ^ (k - 1) * (2 ^ (e + s) * den)
                    < (shr_m mrs + 1) * (2 ^ (e + s) * den)) by nia.
        assert (P : 0 < 2 ^ (e + s) * den) by nia.
        assert (G' : 2 ^ (k - 1) < shr_m mrs + 1) by nia.
        lia.
      * assert (G : shr_m mrs * (2 ^ (e + s) * den)
                    < 2 ^ k * (2 ^ (e + s) * den)) by nia.
        assert (P : 0 < 2 ^ (e + s) * den) by nia.
        nia.
  - apply finish_valid_below.
    replace (-1074 + 1074) with 0 in * by lia.
    change (2 ^ 0) with 1 in *. nia.
Qed.

Lemma float_of_decimal_valid (sg : bool) (m e10 : Z) :
  0 <= m -> valid_binary prec emax (float_of_decimal sg m e10) = true.
Proof.
  intros Hm. unfold float_of_decimal.
  destruct (Z.eqb_spec m 0) as [-> | Hne]; [reflexivity |].
  destruct (Z.leb_spec 0 e10).
  - apply float_of_ratio_valid; [| lia].
    pose proof (pow10_pos e10 ltac:(lia)). nia.
  - apply float_of_ratio_valid; [lia |]. apply pow10_pos. lia.
Qed.

Local Open Scope char_scope.
Local Open Scope list_scope.

(** ** The numeral of a natural number *)

Ltac digit_step IH :=
  rewrite <- IH; f_equal;
  match goal with
  | |- context [digit_value ?c] =>
      let v := eval vm_compute in (digit_value c) in
      change (digit_value c) with v
  end; lia.

Lemma digits_acc (d : Decimal.uint) (acc : positive) :
  fold_left (fun a c => 10 * a + digit_value c)%Z (str_of_uint d) (Zpos acc)
  = Zpos (Pos.of_uint_acc d acc).
Proof.
  revert acc.
  induction d; intros acc; cbn [str_of_uint fold_left Pos.of_uint_acc];
    try reflexivity; digit_step IHd.
Qed.

Lemma digits_of_uint (d : Decimal.uint) :
  Z_of_digits (str_of_uint d) = Z.of_N (Pos.of_uint d).
Proof.
  unfold Z_of_digits.
  induction d; cbn [str_of_uint fold_left Pos.of_uint]; try reflexivity;
    try exact IHd; cbn [Z.of_N]; apply digits_acc.
Qed.

Lemma digits_of_N (n : N) : Z_of_digits (str_of_N n) = Z.of_N n.
Proof.
  unfold str_of_N. rewrite digits_of_uint.
  change (Pos.of_uint (N.to_uint n)) with (N.of_uint (N.to_uint n)).
  now rewrite DecimalN.Unsigned.of_to.
Qed.

Lemma uint_digits (d : Decimal.uint) : forallb is_digit (str_of_uint d) = true.
Proof. induction d; cbn [str_of_uint forallb]; auto. Qed.

(** ** Digits *)

Lemma fold_digits_app (a b : str) (acc : Z) :
  fold_left (fun acc c => 10 * acc + digit_value c) (a ++ b) acc
  = fold_left (fun acc c => 10 * acc + digit_value c) b
      (fold_left (fun acc c => 10 * acc + digit_value c) a acc).
Proof. apply fold_left_app. Qed.

Lemma fold_digits_shift (b : str) (acc : Z) :
  fold_left (fun acc c => 10 * acc + digit_value c) b acc
  = acc * 10 ^ Z.of_nat (List.length b) + Z_of_digits b.
Proof.
  unfold Z_of_digits. revert acc.
  induction b as [| c b IH]; intros acc.
  - cbn. lia.
  - cbn [fold_left List.length]. rewrite IH. rewrite (IH (10 * 0 + _)).
    rewrite Nat2Z.inj_succ, Z.pow_succ_r by lia. ring.
Qed.

Lemma Z_of_digits_app (a b : str) :
  Z_of_digits (a ++ b)
  = Z_of_digits a * 10 ^ Z.of_nat (List.length b) + Z_of_digits b.
Proof.
  unfold Z_of_digits at 1. rewrite fold_digits_app, fold_digits_shift.
  reflexivity.
Qed.

Lemma Z_of_digits_zeros (j : nat) : Z_of_digits (repeat "0" j) = 0.
Proof.
  induction j as [| j IH]; [reflexivity |].
  change (repeat "0" (S j)) with (["0"] ++ repeat "0" j).
  rewrite Z_of_digits_app, IH. reflexivity.
Qed.

Lemma zeros_are_digits (j : nat) : forallb is_digit (repeat "0" j) = true.
Proof. induction j; [reflexivity | exact IHj]. Qed.

Lemma drop_zeros_split (r : str) :
  exists j, r = repeat "0" j ++ drop_zeros r.
Proof.
  induction r as [| c r [j IH]]; [now exists 0%nat |].
  cbn [drop_zeros].
  destruct (Ascii.eqb_spec c "0") as [-> | Hne].
  - exists (S j). cbn [repeat app]. now rewrite <- IH.
  - exists 0%nat.
    destruct c as [[] [] [] [] [] [] [] []]; try reflexivity.
    now contradiction Hne.
Qed.

Lemma is_digit_digit_or_dot (s : str) :
  forallb is_digit s = true -> forallb is_digit_or_dot s = true.
Proof.
  induction s as [| c s IH]; [reflexivity |]. cbn [forallb]. intros H.
  apply andb_prop in H. destruct H as [Hc Hs].
  unfold is_digit_or_dot at 1. rewrite Hc, (IH Hs). reflexivity.
Qed.

(** The digits that [repr] lays out: the numeral of [d] without the zeros
    at its end. *)
Lemma significant_digits (d : Z) :
  0 < d ->
  exists j,
    str_of_N (Z.to_N d)
    = rev (drop_zeros (rev (str_of_N (Z.to_N d)))) ++ repeat "0" j
    /\ forallb is_digit (rev (drop_zeros (rev (str_of_N (Z.to_N d))))) = true
    /\ rev (drop_zeros (rev (str_of_N (Z.to_N d)))) <> []
    /\ d = Z_of_digits (rev (drop_zeros (rev (str_of_N (Z.to_N d)))))
           * 10 ^ Z.of_nat j.
Proof.
  intros Hd. set (all := str_of_N (Z.to_N d)).
  assert (Hall : forallb is_digit all = true) by apply uint_digits.
  assert (Hval : Z_of_digits all = d).
  { unfold all. rewrite digits_of_N. lia. }
  destruct (drop_zeros_split (rev all)) as [j Hj].
  set (digits := rev (drop_zeros (rev all))) in *.
  assert (E : all = digits ++ repeat "0" j).
  { rewrite <- (rev_involutive all). rewrite Hj at 1.
    rewrite rev_app_distr. f_equal.
    clear. induction j as [| j IH]; [reflexivity |].
    cbn [repeat rev]. rewrite IH. clear.
    induction j as [| j IH]; [reflexivity |]. cbn. now rewrite IH. }
  exists j. split; [exact E |].
  assert (Hdig : forallb is_digit digits = true).
  { rewrite E, forallb_app in Hall. now apply andb_prop in Hall. }
  split; [exact Hdig |].
  assert (Hv : d = Z_of_digits digits * 10 ^ Z.of_nat j).
  { rewrite <- Hval, E, Z_of_digits_app, Z_of_digits_zeros, repeat_length.
    lia. }
  split; [| exact Hv].
  intros F. rewrite F in Hv. cbn in Hv. lia.
Qed.

(** ** Reading a text of digits with a point *)

Lemma span_digits_stop (ds r : str) :
  forallb is_digit ds = true ->
  match r with [] => True | c :: _ => is_digit c = false end ->
  span_digits (ds ++ r) = (ds, r).
Proof.
  intros Hds Hr. induction ds as [| c ds IH]; cbn [app].
  - destruct r as [| x r]; [reflexivity |]. cbn [span_digits]. now rewrite Hr.
  - cbn [forallb] in Hds. apply andb_prop in Hds. destruct Hds as [Hc Hds].
    cbn [span_digits]. rewrite Hc, (IH Hds). reflexivity.
Qed.

Lemma float_of_pointed (ip fp : str) :
  forallb is_digit ip = true -> forallb is_digit fp = true ->
  ip <> [] ->
  float_of_str (ip ++ "." :: fp)
  = Some (float_of_decimal false (Z_of_digits (ip ++ fp))
            (- Z.of_nat (List.length fp))).
Proof.
  intros Hip Hfp Hne.
  assert (Hd : forallb is_digit_or_dot (ip ++ "." :: fp) = true).
  { rewrite forallb_app. cbn [forallb].
    rewrite (is_digit_digit_or_dot ip Hip), (is_digit_digit_or_dot fp Hfp).
    reflexivity. }
  unfold float_of_str.
  rewrite (FloatFacts.transform_digits _ Hd).
  rewrite (FloatFacts.drop_underscores_digits _ Hd NUL) by reflexivity.
  rewrite (FloatFacts.c_strip_digits _ Hd).
  unfold scan_decimal.
  assert (Hsign : take_sign (ip ++ "." :: fp) = (false, ip ++ "." :: fp)).
  { destruct ip as [| c ip]; [congruence |]. cbn [app].
    apply FloatFacts.take_sign_digits. cbn [forallb] in Hip.
    apply andb_prop in Hip. destruct Hip as [Hc _].
    unfold is_digit_or_dot. now rewrite Hc. }
  rewrite Hsign.
  rewrite (span_digits_stop ip ("." :: fp) Hip) by reflexivity.
  rewrite <- (app_nil_r fp) at 1.
  rewrite (span_digits_stop fp [] Hfp) by exact I.
  destruct ip as [| c ip]; [congruence |]. cbn [is_nil andb].
  now rewrite Z.sub_0_l.
Qed.

(** ** The layout *)

Lemma pow10_split (a b : Z) : 0 <= a -> 0 <= b -> 10 ^ (a + b) = 10 ^ a * 10 ^ b.
Proof. intros. now apply Z.pow_add_r. Qed.

(** A decimal with zeros moved between the digits and the exponent. *)
Lemma float_of_decimal_shift (sg : bool) (D j k : Z) :
  0 < D -> 0 <= j ->
  float_of_decimal sg (D * 10 ^ j) k = float_of_decimal sg D (k + j).
Proof.
  intros HD Hj. pose proof (pow10_pos j Hj) as Pj.
  apply float_of_decimal_same; [nia | lia |].
  transitivity (D * (10 ^ j * 10 ^ Z.max k 0 * 10 ^ Z.max (- (k + j)) 0));
    [ring |].
  transitivity (D * (10 ^ Z.max (k + j) 0 * 10 ^ Z.max (- k) 0)); [| ring].
  f_equal. rewrite <- !Z.pow_add_r by lia. f_equal. lia.
Qed.

Lemma layout_has_e (digits : str) (decpt : Z) :
  ((decpt <=? -4) || (16 <? decpt))%Z = true ->
  forallb is_digit_or_dot (repr_layout digits decpt) = false.
Proof.
  intros H. unfold repr_layout. rewrite H.
  rewrite !forallb_app. cbn [forallb].
  change (is_digit_or_dot "e") with false. cbn [andb].
  now rewrite !andb_false_r.
Qed.

Lemma layout_reads (digits : str) (decpt : Z) :
  forallb is_digit digits = true -> digits <> [] ->
  0 < Z_of_digits digits ->
  ((decpt <=? -4) || (16 <? decpt))%Z = false ->
  float_of_str (repr_layout digits decpt)
  = Some (float_of_decimal false (Z_of_digits digits)
            (decpt - Z.of_nat (List.length digits))).
Proof.
  intros Hd Hne Hpos H. unfold repr_layout. rewrite H.
  set (n := Z.of_nat (List.length digits)).
  destruct (Z.leb_spec decpt 0) as [H0 | H0].
  - (* 0.000ddd *)
    change (txt "0." ++ repeat "0" (Z.to_nat (- decpt)) ++ digits)
      with (["0"] ++ "." :: (repeat "0" (Z.to_nat (- decpt)) ++ digits)).
    rewrite float_of_pointed;
      [| reflexivity
       | rewrite forallb_app, zeros_are_digits; exact Hd
       | discriminate].
    f_equal. rewrite length_app, repeat_length.
    change (["0"] ++ repeat "0" (Z.to_nat (- decpt)) ++ digits)
      with (repeat "0" (S (Z.to_nat (- decpt))) ++ digits).
    rewrite Z_of_digits_app, Z_of_digits_zeros. cbn [Z.mul Z.add].
    f_equal. fold n. lia.
  - destruct (Z.leb_spec n decpt) as [H1 | H1].
    + (* ddd000.0 *)
      change (digits ++ repeat "0" (Z.to_nat (decpt - n)) ++ txt ".0")
        with (digits ++ repeat "0" (Z.to_nat (decpt - n)) ++ "." :: ["0"]).
      rewrite app_assoc.
      rewrite float_of_pointed;
        [| rewrite forallb_app, zeros_are_digits, Hd; reflexivity
         | reflexivity
         | destruct digits; [congruence | discriminate]].
      f_equal. cbn [List.length].
      rewrite Z_of_digits_app. cbn [List.length].
      rewrite Z_of_digits_app, Z_of_digits_zeros, repeat_length.
      change (Z_of_digits ["0"]) with 0.
      rewrite !Z.add_0_r, Z.pow_1_r, Z2Nat.id by lia.
      replace (Z_of_digits digits * 10 ^ (decpt - n) * 10)
        with (Z_of_digits digits * 10 ^ (decpt - n + 1))
        by (rewrite pow10_split by lia; ring).
      rewrite float_of_decimal_shift by lia. f_equal. lia.
    + (* dd.ddd *)
      rewrite float_of_pointed.
      * rewrite firstn_skipn. f_equal. f_equal.
        rewrite length_skipn. fold n. unfold n. lia.
      * rewrite <- (firstn_skipn (Z.to_nat decpt) digits), forallb_app in Hd.
        now apply andb_prop in Hd.
      * rewrite <- (firstn_skipn (Z.to_nat decpt) digits), forallb_app in Hd.
        now apply andb_prop in Hd.
      * destruct digits as [| c ds]; [congruence |].
        destruct (Z.to_nat decpt) eqn:E; [lia | discriminate].
Qed.

(** ** [float] reads what [repr] prints *)

Theorem repr_reads_back (c : float) :
  valid_binary prec emax c = true ->
  forallb is_digit_or_dot (float_repr c) = true ->
  float_of_str (float_repr c) = Some c.
Proof.
  intros Hv Hd. destruct c as [sg | sg | | sg m e].
  - destruct sg; [discriminate Hd | reflexivity].
  - destruct sg; discriminate Hd.
  - discriminate Hd.
  - cbn [valid_binary] in Hv. unfold float_repr in *.
    destruct (shortest_digits_reads 17 m e 1 Hv) as [Hpos Hread].
    destruct (shortest_digits 17 m e 1) as [d k]. cbn [fst snd] in *.
    destruct sg; [discriminate Hd |]. cbn [app] in *.
    destruct (significant_digits d Hpos) as (j & Eall & Hdig & Hne & Hval).
    set (all := str_of_N (Z.to_N d)) in *.
    set (digits := rev (drop_zeros (rev all))) in *.
    set (decpt := k + Z.of_nat (List.length all)) in *.
    destruct ((decpt <=? -4) || (16 <? decpt))%Z eqn:Hl.
    { rewrite (layout_has_e digits decpt Hl) in Hd. discriminate Hd. }
    assert (HD : 0 < Z_of_digits digits).
    { pose proof (FloatFacts.Z_of_digits_nonneg digits Hdig).
      pose proof (pow10_pos (Z.of_nat j) ltac:(lia)).
      destruct (Z.eq_dec (Z_of_digits digits) 0) as [E0 | N0]; [| lia].
      rewrite E0 in Hval. lia. }
    rewrite (layout_reads digits decpt Hdig Hne HD Hl).
    f_equal. rewrite <- Hread, Hval.
    rewrite float_of_decimal_shift by lia. f_equal.
    unfold decpt. rewrite Eall at 1. rewrite length_app, repeat_length. lia.
Qed.

(** ** [float] returns values of the format only *)

Lemma float_of_str_valid (s : str) (c : float) :
  float_of_str s = Some c -> valid_binary prec emax c = true.
Proof.
  unfold float_of_str.
  destruct (drop_underscores NUL (transform_decimal_and_space s)) as [t |];
    [| discriminate].
  destruct (scan_decimal (c_strip t)) as [[[[sg ip] fp] ex] |] eqn:E.
  - intros [= <-]. apply float_of_decimal_valid.
    destruct (FloatFacts.scan_decimal_parts _ _ _ _ _ E) as (_ & G1 & G2).
    apply FloatFacts.Z_of_digits_nonneg. rewrite forallb_app.
    now rewrite G1, G2.
  - unfold parse_inf_or_nan. destruct (take_sign (c_strip t)) as [sg s1].
    destruct (str_eqb (map c_tolower s1) (txt "inf")
              || str_eqb (map c_tolower s1) (txt "infinity")).
    + intros [= <-]. reflexivity.
    + destruct (str_eqb (map c_tolower s1) (txt "nan")); [| discriminate].
      intros [= <-]. reflexivity.
Qed.

End ReprFacts.

(* ================================================================== *)
(** * The pattern of a series line on what the exporter writes *)
(* ================================================================== *)

Module PatternFacts.

Import Importer.

Ltac each_char c :=
  destruct c as [[] [] [] [] [] [] [] []]; vm_compute; congruence.

Lemma digit_or_dot_nonspace (c : ascii) :
  is_digit_or_dot c = true -> isspace c = false.
Proof. each_char c. Qed.

Lemma digit_or_dot_not_hyphen (c : ascii) :
  is_digit_or_dot c = true -> c <> "-"%char.
Proof. each_char c. Qed.

Lemma digit_or_dot_not_LF (c : ascii) :
  is_digit_or_dot c = true -> (c =? LF)%char = false.
Proof. each_char c. Qed.

Lemma digit_or_dot_not_colon (c : ascii) :
  is_digit_or_dot c = true -> (":" =? c)%char = false.
Proof. each_char c. Qed.

Lemma filter_nonspace_blank (ws : str) :
  forallb isspace ws = true -> filter nonspace ws = [].
Proof.
  induction ws as [| c ws IH]; [reflexivity |]. cbn. unfold nonspace at 1.
  destruct (isspace c); [cbn; exact IH | discriminate].
Qed.

Lemma filter_nonspace_digits (d : str) :
  forallb is_digit_or_dot d = true -> filter nonspace d = d.
Proof.
  induction d as [| c d IH]; [reflexivity |]. cbn. intros H.
  apply andb_true_iff in H. destruct H as [Hc Hd].
  unfold nonspace at 1. rewrite (digit_or_dot_nonspace c Hc). cbn.
  now rewrite IH.
Qed.

Lemma filter_nonspace_lstrip (s : str) :
  filter nonspace (lstrip s) = filter nonspace s.
Proof.
  destruct (lstrip_decompose s) as [ws [Hws Hs]].
  transitivity (filter nonspace (ws ++ lstrip s)); [| now rewrite <- Hs].
  rewrite filter_app, (filter_nonspace_blank ws Hws). reflexivity.
Qed.

Lemma chapter_group_body (s g : str) :
  chapter_group s = Some g ->
  forallb is_digit_or_dot g = true /\ filter nonspace s = g.
Proof.
  unfold chapter_group.
  destruct (rev s) as [| c r] eqn:E.
  - destruct (negb (is_nil s) && forallb is_digit_or_dot s) eqn:B;
      [| discriminate].
    intros [= <-]. apply andb_true_iff in B. destruct B as [_ B].
    split; [exact B | now apply filter_nonspace_digits].
  - destruct (Ascii.eqb_spec c LF) as [-> | _].
    + destruct (negb (is_nil (rev r)) && forallb is_digit_or_dot (rev r))
        eqn:B; [| discriminate].
      intros [= <-]. apply andb_true_iff in B. destruct B as [_ B].
      split; [exact B |].
      apply (f_equal (@rev ascii)) in E. rewrite rev_involutive in E.
      rewrite E. cbn [rev]. rewrite filter_app. cbn.
      rewrite app_nil_r. now apply filter_nonspace_digits.
    + destruct (negb (is_nil s) && forallb is_digit_or_dot s) eqn:B;
        [| discriminate].
      intros [= <-]. apply andb_true_iff in B. destruct B as [_ B].
      split; [exact B | now apply filter_nonspace_digits].
Qed.

(** Where the rest of the pattern matches, the characters other than
    white space are the hyphen, [ep:] and the second group. *)
Lemma pattern_tail_nonspace (s g : str) :
  pattern_tail s = Some g ->
  forallb is_digit_or_dot g = true
  /\ filter nonspace s = txt "-ep:" ++ g.
Proof.
  unfold pattern_tail. rewrite <- (filter_nonspace_lstrip s).
  destruct (lstrip s) as [| c0 s1]; [discriminate |].
  destruct (Ascii.eqb_spec c0 "-") as [-> | N0];
    [| destruct c0 as [[] [] [] [] [] [] [] []]; try discriminate;
       contradiction N0; reflexivity].
  cbn [filter]. change (nonspace "-") with true. cbv iota.
  rewrite <- (filter_nonspace_lstrip s1).
  destruct (lstrip s1) as [| c1 [| c2 [| c3 s2]]].
  - discriminate.
  - destruct c1 as [[] [] [] [] [] [] [] []]; discriminate.
  - destruct c1 as [[] [] [] [] [] [] [] []]; try discriminate;
      destruct c2 as [[] [] [] [] [] [] [] []]; discriminate.
  - destruct (Ascii.eqb_spec c1 "e") as [-> | N1];
      [| destruct c1 as [[] [] [] [] [] [] [] []]; try discriminate;
         contradiction N1; reflexivity].
    destruct (Ascii.eqb_spec c2 "p") as [-> | N2];
      [| destruct c2 as [[] [] [] [] [] [] [] []]; try discriminate;
         contradiction N2; reflexivity].
    destruct (Ascii.eqb_spec c3 ":") as [-> | N3];
      [| destruct c3 as [[] [] [] [] [] [] [] []]; try discriminate;
         contradiction N3; reflexivity].
    intros H. apply chapter_group_body in H. destruct H as [Hg Hf].
    split; [exact Hg |].
    rewrite filter_nonspace_lstrip in Hf. cbn. now rewrite Hf.
Qed.

Lemma lstrip_digits (d : str) :
  forallb is_digit_or_dot d = true -> lstrip d = d.
Proof.
  destruct d as [| c d]; [reflexivity |]. cbn [forallb]. intros H.
  apply andb_true_iff in H. destruct H as [Hc _].
  apply lstrip_fixed_head. now apply digit_or_dot_nonspace.
Qed.

Lemma strip_digits (d : str) :
  forallb is_digit_or_dot d = true -> strip d = d.
Proof.
  intros H. apply strip_fixed; apply lstrip_digits; [exact H |].
  now rewrite forallb_rev.
Qed.

Lemma chapter_group_digits (d : str) :
  d <> [] -> forallb is_digit_or_dot d = true -> chapter_group d = Some d.
Proof.
  intros Hne Hd. unfold chapter_group.
  assert (Hr : forallb is_digit_or_dot (rev d) = true)
    by now rewrite forallb_rev.
  destruct (rev d) as [| c r].
  - rewrite Hd. destruct d; [congruence | reflexivity].
  - cbn [forallb] in Hr. apply andb_true_iff in Hr. destruct Hr as [Hc _].
    rewrite (digit_or_dot_not_LF c Hc), Hd.
    destruct d; [congruence | reflexivity].
Qed.

(** The pattern after the first group, on the end of an emitted line. *)
Lemma pattern_tail_emitted (d : str) :
  d <> [] -> forallb is_digit_or_dot d = true ->
  pattern_tail (txt "- ep: " ++ d) = Some d.
Proof.
  intros Hne Hd. unfold pattern_tail. cbn.
  rewrite (lstrip_digits d Hd). now apply chapter_group_digits.
Qed.

(** It does not match earlier: not with a character other than white
    space left before the hyphen of the emitted line. *)
Lemma pattern_tail_too_early (q d : str) :
  filter nonspace q <> [] -> forallb is_digit_or_dot d = true ->
  pattern_tail (q ++ txt "- ep: " ++ d) = None.
Proof.
  intros Hq Hd.
  destruct (pattern_tail (q ++ txt "- ep: " ++ d)) as [g |] eqn:E;
    [| reflexivity].
  exfalso. apply pattern_tail_nonspace in E. destruct E as [Hg Hf].
  rewrite !filter_app, (filter_nonspace_digits d Hd) in Hf. cbn in Hf.
  destruct (filter nonspace q) as [| a [| b [| c [| e fq]]]];
    try congruence; try discriminate Hf.
  injection Hf as _ _ _ _ Hf. subst g.
  rewrite forallb_app in Hg. cbn in Hg. rewrite andb_false_r in Hg.
  discriminate Hg.
Qed.

Lemma lazy_group_step (g1 rest : str) :
  lazy_group g1 rest
  = match pattern_tail rest with
    | Some g2 => Some (g1, g2)
    | None =>
        match rest with
        | [] => None
        | c :: rest' =>
            if (c =? LF)%char then None else lazy_group (g1 ++ [c]) rest'
        end
    end.
Proof. destruct rest; reflexivity. Qed.

(** The lazy first group grows up to the hyphen of the emitted line when
    each end of the name from some place on holds a character other than
    white space. *)
Lemma lazy_group_emitted (q d : str) :
  ~ In LF q ->
  (forall u v, q = u ++ v -> v <> [] -> filter nonspace v <> []) ->
  d <> [] -> forallb is_digit_or_dot d = true ->
  forall g1, lazy_group g1 (q ++ txt "- ep: " ++ d) = Some (g1 ++ q, d).
Proof.
  intros Hlf Hsuf Hne Hd. induction q as [| c q IH]; intros g1.
  - rewrite lazy_group_step. cbn [app].
    rewrite (pattern_tail_emitted d Hne Hd). now rewrite app_nil_r.
  - rewrite lazy_group_step.
    rewrite pattern_tail_too_early;
      [| apply (Hsuf [] (c :: q)); [reflexivity | discriminate] | exact Hd].
    cbn [app]. destruct (Ascii.eqb_spec c LF) as [-> | _].
    + exfalso. apply Hlf. now left.
    + rewrite IH.
      * now rewrite <- app_assoc.
      * intros F. apply Hlf. now right.
      * intros u v E. apply (Hsuf (c :: u) v). cbn. now rewrite E.
Qed.

Lemma nonempty_ends_nonspace (name : str) :
  name <> [] -> strip name = name ->
  forall u v, name = u ++ v -> v <> [] -> filter nonspace v <> [].
Proof.
  intros Hne Hs u v E Hv.
  destruct (strip_fixed_ends name Hs) as [_ Hr].
  rewrite E, rev_app_distr in Hr.
  destruct (rev v) as [| x r] eqn:Ev.
  - apply (f_equal (@rev ascii)) in Ev. rewrite rev_involutive in Ev.
    contradiction.
  - cbn [app] in Hr. apply lstrip_fixed_head in Hr.
    apply (f_equal (@rev ascii)) in Ev. rewrite rev_involutive in Ev.
    rewrite Ev. cbn [rev]. rewrite filter_app. cbn. unfold nonspace at 2.
    rewrite Hr. cbn. intros F. apply app_eq_nil in F.
    destruct F as [_ F]. discriminate F.
Qed.

Lemma startswith_hyphens_cut (x r : str) :
  startswith (txt "-----") (x ++ "-" :: " " :: r)
  = startswith (txt "-----") (x ++ ["-"]).
Proof.
  destruct x as [| a [| b [| c [| e [| f x]]]]]; cbn -[Ascii.eqb];
    repeat match goal with
      | |- context [Ascii.eqb ?x ?y] => is_var y; destruct (Ascii.eqb x y)
      end; reflexivity.
Qed.

Lemma contains_cons (pat : str) (c : ascii) (s : str) :
  contains pat (c :: s) = startswith pat (c :: s) || contains pat s.
Proof. reflexivity. Qed.

Lemma digits_hold_no_hyphens (d : str) :
  forallb is_digit_or_dot d = true -> contains (txt "-----") d = false.
Proof.
  induction d as [| c d IH]; [reflexivity |]. cbn [forallb]. intros H.
  apply andb_true_iff in H. destruct H as [Hc Hd].
  rewrite contains_cons, (IH Hd), orb_false_r.
  change (startswith (txt "-----") (c :: d))
    with (("-" =? c)%char && startswith (txt "----") d).
  destruct (Ascii.eqb_spec "-" c) as [<- | _]; [| reflexivity].
  exfalso. now apply (digit_or_dot_not_hyphen "-" Hc).
Qed.

Lemma emitted_line_holds_no_hyphens (name d : str) :
  contains (txt "-----") (name ++ txt "-") = false ->
  forallb is_digit_or_dot d = true ->
  contains (txt "-----") (name ++ txt "- ep: " ++ d) = false.
Proof.
  intros Hn Hd. induction name as [| c name IH].
  - cbn. now apply digits_hold_no_hyphens.
  - change ((c :: name) ++ txt "-") with (c :: name ++ txt "-") in Hn.
    rewrite contains_cons in Hn. apply orb_false_iff in Hn.
    destruct Hn as [H1 H2].
    change ((c :: name) ++ txt "- ep: " ++ d)
      with (c :: name ++ txt "- ep: " ++ d).
    rewrite contains_cons, (IH H2), orb_false_r.
    change (c :: name ++ txt "- ep: " ++ d)
      with ((c :: name) ++ "-" :: " " :: txt "ep: " ++ d).
    rewrite startswith_hyphens_cut. exact H1.
Qed.

(** The pattern gives back the name and the chapter text of an emitted
    line. *)
Lemma pattern_on_emitted_line (name d : str) :
  name <> [] -> strip name = name -> ~ In LF name ->
  d <> [] -> forallb is_digit_or_dot d = true ->
  SERIES_LINE_PATTERN (name ++ txt "- ep: " ++ d) = Some (name, d).
Proof.
  intros Hne Hs Hlf Hd Hdd.
  pose proof (nonempty_ends_nonspace name Hne Hs) as Hsuf.
  destruct name as [| c q]; [congruence |].
  cbn [app SERIES_LINE_PATTERN].
  destruct (Ascii.eqb_spec c LF) as [-> | _].
  - exfalso. apply Hlf. now left.
  - rewrite lazy_group_emitted; auto.
    + intros F. apply Hlf. now right.
    + intros u v E. apply (Hsuf (c :: u) v). cbn. now rewrite E.
Qed.

(** A line that the exporter writes for a portable name and a plain
    chapter is a series line with that name and chapter. *)
Lemma series_of_emitted_line (name cat : str) (c : float) :
  Codec.portable_name name -> Codec.plain_chapter c ->
  series_of (Exporter.series_line name (entry c cat)) = Some (name, c).
Proof.
  intros [Hne [Hs [Hlf Hsep]]] [Hval Hdd].
  pose proof (ReprFacts.repr_reads_back c Hval Hdd) as Hread.
  unfold Exporter.series_line. cbn [Store.chapter entry].
  set (d := float_repr c) in *.
  assert (Hd : d <> []).
  { intros E. rewrite E in Hread. vm_compute in Hread. discriminate Hread. }
  assert (Hfix : strip (name ++ txt "- ep: " ++ d) = name ++ txt "- ep: " ++ d).
  { destruct (strip_fixed_ends name Hs) as [Hl _].
    apply strip_fixed.
    - now apply lstrip_fixed_app.
    - rewrite !rev_app_distr, <- app_assoc. apply lstrip_fixed_app.
      + intros E. apply (f_equal (@rev ascii)) in E.
        rewrite rev_involutive in E. contradiction.
      + apply lstrip_digits. now rewrite forallb_rev. }
  unfold series_of. rewrite Hfix.
  assert (Hnil : is_nil (name ++ txt "- ep: " ++ d) = false)
    by (destruct name; [congruence | reflexivity]).
  rewrite Hnil, (emitted_line_holds_no_hyphens name d Hsep Hdd).
  assert (Hend : endswith (txt ":") (name ++ txt "- ep: " ++ d) = false).
  { unfold endswith. rewrite !rev_app_distr.
    assert (Hr : forallb is_digit_or_dot (rev d) = true)
      by now rewrite forallb_rev.
    destruct (rev d) as [| x r] eqn:Er.
    - apply (f_equal (@rev ascii)) in Er. rewrite rev_involutive in Er.
      contradiction.
    - cbn [forallb] in Hr. apply andb_true_iff in Hr. destruct Hr as [Hx _].
      cbn -[Ascii.eqb]. now rewrite (digit_or_dot_not_colon x Hx). }
  rewrite Hend. cbn [orb].
  rewrite (pattern_on_emitted_line name d Hne Hs Hlf Hd Hdd).
  rewrite (strip_digits d Hdd), Hread, Hs. reflexivity.
Qed.

End PatternFacts.

(* ================================================================== *)
(** * The lines that [parse_series_data] ignores *)
(* ================================================================== *)

Module GrammarFacts.

Import Importer Notions PatternFacts.

Lemma chapter_group_shape (s g : str) :
  chapter_group s = Some g ->
  g <> [] /\ forallb is_digit_or_dot g = true /\ (s = g \/ s = g ++ [LF]).
Proof.
  unfold chapter_group.
  destruct (rev s) as [| c r] eqn:E.
  - destruct (negb (is_nil s) && forallb is_digit_or_dot s) eqn:B;
      [| discriminate].
    intros [= <-]. apply andb_true_iff in B. destruct B as [B1 B2].
    repeat split; auto. intros ->. discriminate B1.
  - apply (f_equal (@rev ascii)) in E. rewrite rev_involutive in E.
    cbn [rev] in E.
    destruct (Ascii.eqb_spec c LF) as [-> | _].
    + destruct (negb (is_nil (rev r)) && forallb is_digit_or_dot (rev r))
        eqn:B; [| discriminate].
      intros [= <-]. apply andb_true_iff in B. destruct B as [B1 B2].
      repeat split; auto. intros F. rewrite F in B1. discriminate B1.
    + destruct (negb (is_nil s) && forallb is_digit_or_dot s) eqn:B;
        [| discriminate].
      intros [= <-]. apply andb_true_iff in B. destruct B as [B1 B2].
      repeat split; auto. intros ->. discriminate B1.
Qed.

Lemma pattern_tail_shape (s g : str) :
  pattern_tail s = Some g ->
  exists gap1 gap2 gap3 tl,
    forallb isspace gap1 = true /\ forallb isspace gap2 = true
    /\ forallb isspace gap3 = true
    /\ s = gap1 ++ "-" :: gap2 ++ txt "ep:" ++ gap3 ++ g ++ tl
    /\ g <> [] /\ forallb is_digit_or_dot g = true
    /\ (tl = [] \/ tl = [LF]).
Proof.
  unfold pattern_tail.
  destruct (lstrip_decompose s) as [gap1 [H1 E1]].
  destruct (lstrip s) as [| c0 s1]; [discriminate |].
  destruct (Ascii.eqb_spec c0 "-") as [-> | N0];
    [| destruct c0 as [[] [] [] [] [] [] [] []]; try discriminate;
       contradiction N0; reflexivity].
  destruct (lstrip_decompose s1) as [gap2 [H2 E2]].
  destruct (lstrip s1) as [| c1 [| c2 [| c3 s2]]].
  - discriminate.
  - destruct c1 as [[] [] [] [] [] [] [] []]; discriminate.
  - destruct c1 as [[] [] [] [] [] [] [] []]; try discriminate;
      destruct c2 as [[] [] [] [] [] [] [] []]; discriminate.
  - destruct (Ascii.eqb_spec c1 "e") as [-> | N1];
      [| destruct c1 as [[] [] [] [] [] [] [] []]; try discriminate;
         contradiction N1; reflexivity].
    destruct (Ascii.eqb_spec c2 "p") as [-> | N2];
      [| destruct c2 as [[] [] [] [] [] [] [] []]; try discriminate;
         contradiction N2; reflexivity].
    destruct (Ascii.eqb_spec c3 ":") as [-> | N3];
      [| destruct c3 as [[] [] [] [] [] [] [] []]; try discriminate;
         contradiction N3; reflexivity].
    destruct (lstrip_decompose s2) as [gap3 [H3 E3]].
    intros H. apply chapter_group_shape in H. destruct H as [Hne [Hg Hs]].
    destruct Hs as [Hs | Hs].
    + exists gap1, gap2, gap3, []. repeat split; auto.
      rewrite E1, E2, E3 at 1. rewrite Hs, app_nil_r. reflexivity.
    + exists gap1, gap2, gap3, [LF]. repeat split; auto.
      rewrite E1, E2, E3 at 1. rewrite Hs. reflexivity.
Qed.

Lemma lazy_group_shape (rest g g1 g2 : str) :
  lazy_group g rest = Some (g1, g2) ->
  exists q tail,
    g1 = g ++ q /\ ~ In LF q /\ rest = q ++ tail
    /\ pattern_tail tail = Some g2.
Proof.
  revert g. induction rest as [| c rest IH]; intros g;
    rewrite lazy_group_step.
  - destruct (pattern_tail []) as [t |] eqn:E; [| discriminate].
    intros [= <- <-]. exists [], []. rewrite app_nil_r.
    repeat split; auto.
  - destruct (pattern_tail (c :: rest)) as [t |] eqn:E.
    + intros [= <- <-]. exists [], (c :: rest). rewrite app_nil_r.
      repeat split; auto.
    + destruct (Ascii.eqb_spec c LF) as [-> | Hc]; [discriminate |].
      intros H. destruct (IH _ H) as [q [tail [Hq [Hlf [Hr Hg]]]]].
      exists (c :: q), tail. rewrite Hq, <- app_assoc.
      repeat split; auto.
      * intros [F | F]; [congruence | contradiction].
      * cbn. now rewrite Hr.
Qed.

(** What the pattern matches has the shape of a series line. *)
Lemma pattern_gives_shape (l g1 g2 : str) :
  lstrip (rev l) = rev l ->
  SERIES_LINE_PATTERN l = Some (g1, g2) -> series_shape l g1 g2.
Proof.
  intros Hend. destruct l as [| c rest]; [discriminate |].
  cbn [SERIES_LINE_PATTERN].
  destruct (Ascii.eqb_spec c LF) as [-> | Hc]; [discriminate |].
  intros H. apply lazy_group_shape in H.
  destruct H as [q [tail [Hq [Hlf [Hr Hg]]]]].
  apply pattern_tail_shape in Hg.
  destruct Hg as [gap1 [gap2 [gap3 [tl [H1 [H2 [H3 [Ht [Hne [Hd Htl]]]]]]]]]].
  assert (tl = []) as ->.
  { destruct Htl as [-> | ->]; [reflexivity |]. exfalso.
    rewrite Hr, Ht in Hend.
    assert (Hlast : exists x, c :: q ++ gap1 ++ "-" :: gap2 ++ txt "ep:"
                                ++ gap3 ++ g2 ++ [LF] = x ++ [LF]).
    { exists (c :: q ++ gap1 ++ "-" :: gap2 ++ txt "ep:" ++ gap3 ++ g2).
      change (txt "ep:") with ["e"; "p"; ":"].
      repeat (rewrite <- ?app_assoc; cbn [app]; f_equal). }
    destruct Hlast as [x Hx]. rewrite Hx in Hend.
    rewrite rev_app_distr in Hend. cbn [rev app] in Hend.
    apply lstrip_fixed_head in Hend. discriminate Hend. }
  exists gap1, gap2, gap3. rewrite app_nil_r in Ht.
  repeat split; auto.
  - rewrite Hr, Ht, Hq. cbn. now rewrite <- ?app_assoc.
  - rewrite Hq. discriminate.
  - rewrite Hq. intros [F | F]; [congruence | contradiction].
Qed.

Lemma pattern_tail_of_shape (gap1 gap2 gap3 d : str) :
  forallb isspace gap1 = true -> forallb isspace gap2 = true ->
  forallb isspace gap3 = true ->
  d <> [] -> forallb is_digit_or_dot d = true ->
  pattern_tail (gap1 ++ "-" :: gap2 ++ txt "ep:" ++ gap3 ++ d) = Some d.
Proof.
  intros H1 H2 H3 Hne Hd. unfold pattern_tail.
  rewrite (lstrip_blank_app gap1 _ H1). cbn [lstrip].
  change (isspace "-") with false. cbv iota.
  rewrite (lstrip_blank_app gap2 _ H2).
  change (txt "ep:" ++ gap3 ++ d) with ("e" :: "p" :: ":" :: gap3 ++ d).
  cbn [lstrip]. change (isspace "e") with false. cbv iota.
  rewrite (lstrip_blank_app gap3 _ H3), (lstrip_digits d Hd).
  now apply chapter_group_digits.
Qed.

Lemma pattern_tail_early (q t d : str) :
  filter nonspace q <> [] -> forallb is_digit_or_dot d = true ->
  filter nonspace t = txt "-ep:" ++ d ->
  pattern_tail (q ++ t) = None.
Proof.
  intros Hq Hd Ht.
  destruct (pattern_tail (q ++ t)) as [g |] eqn:E; [| reflexivity].
  exfalso. apply pattern_tail_nonspace in E. destruct E as [Hg Hf].
  rewrite filter_app, Ht in Hf. cbn in Hf.
  destruct (filter nonspace q) as [| a [| b [| c [| e fq]]]];
    try congruence; try discriminate Hf.
  injection Hf as _ _ _ _ Hf. subst g.
  rewrite forallb_app in Hg. cbn in Hg. rewrite andb_false_r in Hg.
  discriminate Hg.
Qed.

Lemma lazy_group_of_shape (q t d : str) :
  ~ In LF q ->
  (forall u v, q = u ++ v -> v <> [] -> filter nonspace v <> []) ->
  forallb is_digit_or_dot d = true ->
  filter nonspace t = txt "-ep:" ++ d ->
  pattern_tail t = Some d ->
  forall g1, lazy_group g1 (q ++ t) = Some (g1 ++ q, d).
Proof.
  intros Hlf Hsuf Hd Hf Ht. induction q as [| c q IH]; intros g1.
  - rewrite lazy_group_step. cbn [app]. rewrite Ht. now rewrite app_nil_r.
  - rewrite lazy_group_step.
    rewrite (pattern_tail_early (c :: q) t d);
      [| apply (Hsuf [] (c :: q)); [reflexivity | discriminate]
       | exact Hd | exact Hf].
    cbn [app]. destruct (Ascii.eqb_spec c LF) as [-> | _].
    + exfalso. apply Hlf. now left.
    + rewrite IH.
      * now rewrite <- app_assoc.
      * intros F. apply Hlf. now right.
      * intros u v E. apply (Hsuf (c :: u) v). cbn. now rewrite E.
Qed.

Lemma rstrip_decompose (s : str) :
  exists q b,
    s = q ++ b /\ forallb isspace b = true
    /\ (forall u v, q = u ++ v -> v <> [] -> filter nonspace v <> []).
Proof.
  destruct (lstrip_decompose (rev s)) as [ws [Hws Hs]].
  exists (rev (lstrip (rev s))), (rev ws). repeat split.
  - rewrite <- rev_app_distr, <- Hs. now rewrite rev_involutive.
  - now rewrite forallb_rev.
  - intros u v E Hv.
    apply (f_equal (@rev ascii)) in E.
    rewrite rev_involutive, rev_app_distr in E.
    pose proof (lstrip_idem (rev s)) as Hi. rewrite E in Hi.
    destruct (rev v) as [| x r] eqn:Ev.
    + apply (f_equal (@rev ascii)) in Ev. rewrite rev_involutive in Ev.
      contradiction.
    + cbn [app] in Hi. apply lstrip_fixed_head in Hi.
      apply (f_equal (@rev ascii)) in Ev. rewrite rev_involutive in Ev.
      rewrite Ev. cbn [rev]. rewrite filter_app. cbn. unfold nonspace at 2.
      rewrite Hi. cbn. intros F. apply app_eq_nil in F.
      destruct F as [_ F]. discriminate F.
Qed.

(** On a line of the shape the pattern matches: the second group is the
    run of digits and dots, the first is the name up to white space at its
    end. *)
Lemma shape_gives_pattern (l name d : str) :
  lstrip l = l -> series_shape l name d ->
  exists g1, SERIES_LINE_PATTERN l = Some (g1, d) /\ strip g1 = strip name.
Proof.
  intros Hl [gap1 [gap2 [gap3 [H1 [H2 [H3 [E [Hne [Hlf [Hd Hdd]]]]]]]]]].
  destruct name as [| c n']; [congruence |].
  destruct (rstrip_decompose n') as [q [b [En [Hb Hsuf]]]].
  exists (c :: q). split.
  - rewrite E. cbn [app SERIES_LINE_PATTERN].
    destruct (Ascii.eqb_spec c LF) as [-> | _].
    { exfalso. apply Hlf. now left. }
    rewrite En, <- !app_assoc.
    change (q ++ b ++ gap1 ++ "-" :: gap2 ++ txt "ep:" ++ gap3 ++ d)
      with (q ++ (b ++ gap1 ++ "-" :: gap2 ++ txt "ep:" ++ gap3 ++ d)).
    rewrite (lazy_group_of_shape q _ d); auto.
    + intros F. apply Hlf. right. rewrite En. apply in_or_app. now left.
    + rewrite !filter_app. cbn [filter].
      rewrite (filter_nonspace_blank b Hb), (filter_nonspace_blank gap1 H1).
      change (nonspace "-") with true. cbv iota. cbn [app]. f_equal.
      rewrite !filter_app, (filter_nonspace_blank gap2 H2),
        (filter_nonspace_blank gap3 H3), (filter_nonspace_digits d Hdd).
      reflexivity.
    + rewrite app_assoc. apply pattern_tail_of_shape; auto.
      rewrite forallb_app. now rewrite Hb, H1.
  - rewrite En. change (c :: q ++ b) with ((c :: q) ++ b).
    now rewrite strip_blank_app_r.
Qed.

Lemma endswith_colon (l : str) :
  endswith (txt ":") l = true <-> exists r, l = r ++ [":"].
Proof.
  unfold endswith. split.
  - destruct (rev l) as [| c r] eqn:E; [discriminate |].
    cbn -[Ascii.eqb].
    destruct (Ascii.eqb_spec ":" c) as [<- | _]; [| cbn; discriminate].
    intros _. exists (rev r).
    apply (f_equal (@rev ascii)) in E. now rewrite rev_involutive in E.
  - intros [r ->]. rewrite rev_app_distr. reflexivity.
Qed.

Lemma shape_ends_with_no_colon (l name d : str) :
  series_shape l name d -> endswith (txt ":") l = false.
Proof.
  intros [gap1 [gap2 [gap3 [_ [_ [_ [E [_ [_ [Hd Hdd]]]]]]]]]].
  destruct (endswith (txt ":") l) eqn:B; [| reflexivity]. exfalso.
  apply endswith_colon in B. destruct B as [r Hr].
  rewrite (app_removelast_last ":" Hd) in E.
  assert (Hz : In (last d ":") d).
  { rewrite (app_removelast_last ":" Hd) at 2.
    apply in_or_app. right. now left. }
  rewrite forallb_forall in Hdd. specialize (Hdd _ Hz).
  assert (El : exists x, l = x ++ [last d ":"]).
  { exists (name ++ gap1 ++ "-" :: gap2 ++ txt "ep:" ++ gap3
              ++ removelast d).
    rewrite E. change (txt "ep:") with ["e"; "p"; ":"].
    repeat (rewrite <- ?app_assoc; cbn [app]; f_equal). }
  destruct El as [x Hx]. rewrite Hx in Hr.
  apply app_inj_tail in Hr. destruct Hr as [_ Hr].
  rewrite Hr in Hdd. discriminate Hdd.
Qed.

Lemma first_sep (sep : ascii) (s : str) :
  In sep s -> exists x r, s = x ++ sep :: r /\ ~ In sep x.
Proof.
  induction s as [| c s IH]; [intros [] |].
  destruct (ascii_dec c sep) as [-> | N].
  - intros _. exists [], s. split; [reflexivity | intros []].
  - intros [F | F]; [contradiction |].
    destruct (IH F) as [x [r [E Hx]]].
    exists (c :: x), r. split; [cbn; now rewrite E |].
    intros [G | G]; [contradiction | exact (Hx G)].
Qed.

Lemma blank_holds_no_colon (ws : str) :
  forallb isspace ws = true -> ~ In ":" ws.
Proof.
  intros H F. rewrite forallb_forall in H. specialize (H _ F).
  discriminate H.
Qed.

Lemma category_is_trimmed (c : str) :
  In c CATEGORIES ->
  ~ In ":" c /\ lstrip c = c /\ lstrip (rev c) = rev c.
Proof.
  intros H. cbn in H.
  repeat (destruct H as [<- | H];
          [repeat split; try reflexivity;
           intros F; cbn in F;
           repeat (destruct F as [F | F]; [discriminate F |]); exact F |]).
  contradiction.
Qed.

(** A line is read as a header of [c] exactly when it has the shape. *)
Lemma header_shape_iff (l c : str) :
  header_shape l c
  <-> endswith (txt ":") l = true /\ category_name l = c /\ In c CATEGORIES.
Proof.
  split.
  - intros [Hc [Hend [pad1 [pad2 [rest [H1 [H2 E]]]]]]].
    split; [now apply endswith_colon |]. split; [| exact Hc].
    destruct (category_is_trimmed c Hc) as [Hn [Hl Hr]].
    unfold category_name. rewrite E.
    rewrite !app_assoc, split_app_sep.
    + cbn [hd]. rewrite <- app_assoc. now apply strip_sandwich.
    + intros F. apply in_app_or in F. destruct F as [F | F].
      * apply in_app_or in F. destruct F as [F | F]; [| contradiction].
        exact (blank_holds_no_colon pad1 H1 F).
      * exact (blank_holds_no_colon pad2 H2 F).
  - intros [Hend [Hc Hin]]. split; [exact Hin |].
    apply endswith_colon in Hend. split; [exact Hend |].
    destruct Hend as [r Hr].
    assert (Hcolon : In ":" l).
    { rewrite Hr. apply in_or_app. right. now left. }
    destruct (first_sep ":" l Hcolon) as [x [rest [E Hx]]].
    unfold category_name in Hc. rewrite E, split_app_sep in Hc by exact Hx.
    cbn [hd] in Hc.
    destruct (strip_decompose x) as [a [b [Ha [Hb [Hs _]]]]].
    exists a, b, rest. repeat split; auto.
    rewrite E, Hs at 1. rewrite Hc. now rewrite <- !app_assoc.
Qed.

(** A line that changes nothing: each turn of the loop on it returns the
    state it was given, and a text decodes as if the line were not
    there. *)
Lemma ignored_everywhere (line : str) :
  (forall st, parse_line st line = st) ->
  forall pre post, run (pre ++ line :: post) = run (pre ++ post).
Proof.
  intros H pre post. rewrite !ImporterFacts.run_app. cbn [fold_left].
  now rewrite H.
Qed.

(** C9, as the claim states it, fails.  The line [Foo - ep: 1.2.3] is no
    header and, [1.2.3] being no decimal literal, no series line of the
    specification; it is not ignored silently: the loop prints a warning.
    The line [Manga:] is neither a header [<CategoryName> :] nor a series
    line, and it changes the active category. *)
Theorem malformed_lines_not_ignored :
  let l1 := txt "Foo - ep: 1.2.3" in
  let l2 := txt "Manga:" in
  (~ header_of_spec l1 /\ ~ series_line_of_spec l1
   /\ parse_line initial l1
      = {| series_data := [];
           current_category := txt "Other";
           printed :=
             [StartingParse;
              SkippingInvalidChapter (txt "Foo") (txt "1.2.3")] |}
   /\ parse_line initial l1 <> initial)
  /\ (~ header_of_spec l2 /\ ~ series_line_of_spec l2
      /\ current_category initial = txt "Other"
      /\ current_category (parse_line initial l2) = txt "Manga").
Proof.
  cbv zeta.
  split; [split; [| split; [| split]] | split; [| split; [| split]]].
  - intros [c [Hc E]]. cbn in Hc.
    repeat (destruct Hc as [<- | Hc]; [discriminate E |]). exact Hc.
  - intros [name [number [Hs Hd]]].
    destruct (shape_gives_pattern _ name number eq_refl Hs) as [g1 [Hp _]].
    vm_compute in Hp. injection Hp as _ Hn. subst number.
    vm_compute in Hd. discriminate Hd.
  - vm_compute. reflexivity.
  - vm_compute. discriminate.
  - intros [c [Hc E]]. cbn in Hc.
    repeat (destruct Hc as [<- | Hc]; [discriminate E |]). exact Hc.
  - intros [name [number [Hs _]]].
    apply shape_ends_with_no_colon in Hs. vm_compute in Hs. discriminate Hs.
  - reflexivity.
  - vm_compute. reflexivity.
Qed.

(** C9, amended.  The loop has a result for every line.  A line that is
    blank after trimming or holds a run of five hyphens is skipped.  A
    trimmed line that has neither the shape of a header (a colon at its
    end, a name of the enumeration before its first colon) nor the shape
    of a series line (name, hyphen, [ep:], digits and dots) is ignored:
    records, active category and output stay as they were, and the text
    decodes as if the line were not there.  A line of the shape of a
    series line whose digits and dots [float] cannot read is not ignored
    silently: records and active category stay, and one warning with the
    trimmed name and the digits is printed. *)
Theorem line_ignored_or_warned (line : str) :
  let l := strip line in
  let ignored :=
    (forall st, parse_line st line = st)
    /\ (forall pre post, run (pre ++ line :: post) = run (pre ++ post)) in
  ((l = [] \/ contains (txt "-----") l = true) -> ignored)
  /\ ((forall c, ~ header_shape l c) ->
      (forall name d, ~ series_shape l name d) -> ignored)
  /\ (forall name d,
        contains (txt "-----") l = false ->
        series_shape l name d -> float_of_str d = None ->
        forall st,
          parse_line st line
          = {| series_data := series_data st;
               current_category := current_category st;
               printed :=
                 printed st ++ [SkippingInvalidChapter (strip name) d] |}).
Proof.
  cbv zeta.
  destruct (strip_fixed_ends (strip line) (strip_idem line)) as [Hl Hr].
  split; [| split].
  - intros H.
    assert (Hst : forall st, parse_line st line = st).
    { intros st. unfold parse_line.
      destruct H as [-> | ->]; [reflexivity | now rewrite orb_true_r]. }
    split; [exact Hst | now apply ignored_everywhere].
  - intros Hh Hs.
    assert (Hst : forall st, parse_line st line = st).
    { intros st. unfold parse_line.
      destruct (is_nil (strip line) || contains (txt "-----") (strip line));
        [reflexivity |].
      destruct (endswith (txt ":") (strip line)) eqn:Hend.
      - destruct (str_in (category_name (strip line)) CATEGORIES) eqn:Hin;
          [| reflexivity].
        exfalso. apply (Hh (category_name (strip line))).
        apply header_shape_iff. repeat split; auto. now apply str_in_In.
      - destruct (SERIES_LINE_PATTERN (strip line)) as [[g1 g2] |] eqn:Hp;
          [| reflexivity].
        exfalso. exact (Hs g1 g2 (pattern_gives_shape _ _ _ Hr Hp)). }
    split; [exact Hst | now apply ignored_everywhere].
  - intros name d Hsep Hs Hf st. unfold parse_line.
    assert (Hnil : is_nil (strip line) = false).
    { destruct Hs as [g1 [g2 [g3 [_ [_ [_ [E [Hne _]]]]]]]].
      rewrite E. destruct name; [congruence | reflexivity]. }
    rewrite Hnil, Hsep, (shape_ends_with_no_colon _ _ _ Hs). cbn [orb].
    destruct (shape_gives_pattern _ name d Hl Hs) as [g1 [Hp Hg]].
    rewrite Hp.
    destruct Hs as [_ [_ [_ [_ [_ [_ [_ [_ [_ [_ Hdd]]]]]]]]]].
    rewrite (strip_digits d Hdd), Hf, Hg. reflexivity.
Qed.

Lemma line_ignored_or_warned_witness :
  ((forall st, parse_line st (txt "Lecture:") = st)
   /\ (forall pre post,
         run (pre ++ txt "Lecture:" :: post) = run (pre ++ post)))
  /\ (forall st,
        parse_line st (txt "Foo - ep: 1.2.3")
        = {| series_data := series_data st;
             current_category := current_category st;
             printed :=
               printed st
               ++ [SkippingInvalidChapter (txt "Foo") (txt "1.2.3")] |}).
Proof.
  split.
  - apply (proj1 (proj2 (line_ignored_or_warned (txt "Lecture:")))).
    + intros c H. apply header_shape_iff in H.
      destruct H as [_ [<- H]]. vm_compute in H.
      repeat (destruct H as [H | H]; [discriminate H |]). exact H.
    + intros name d H. apply shape_ends_with_no_colon in H.
      vm_compute in H. discriminate H.
  - apply (proj2 (proj2 (line_ignored_or_warned (txt "Foo - ep: 1.2.3")))
             (txt "Foo") (txt "1.2.3")).
    + vm_compute. reflexivity.
    + exists [" "], [" "], [" "]. repeat split; try discriminate.
      intros H. cbn in H.
      repeat (destruct H as [H | H]; [discriminate H |]). exact H.
    + vm_compute. reflexivity.
Defined.

End GrammarFacts.

(* ================================================================== *)
(** * The encoder ([format_data_to_text]) *)
(* ================================================================== *)

Module ExporterFacts.

Import Exporter.

(** ** Sorting *)

Lemma insert_by_perm {A : Type} (f : A -> str) (x : A) (l : list A) :
  Permutation (insert_by f x l) (x :: l).
Proof.
  induction l as [| y l IH]; cbn; [apply Permutation_refl |].
  destruct (str_ltb (f y) (f x)); [| apply Permutation_refl].
  apply perm_trans with (y :: x :: l);
    [now apply perm_skip | apply perm_swap].
Qed.

Lemma sorted_perm {A : Type} (f : A -> str) (l : list A) :
  Permutation (sorted f l) l.
Proof.
  induction l as [| x l IH]; cbn; [apply perm_nil |].
  apply perm_trans with (x :: sorted f l);
    [apply insert_by_perm | now apply perm_skip].
Qed.

Lemma sorted_nil_iff {A : Type} (f : A -> str) (l : list A) :
  sorted f l = [] <-> l = [].
Proof.
  split; intros H.
  - apply Permutation_nil. rewrite <- H. apply sorted_perm.
  - now subst.
Qed.

(** ** Grouping *)

Lemma lookup_dict_set (k c : str) (v : store) (g : dict store) :
  lookup c (dict_set k v g) = if str_eqb k c then v else lookup c g.
Proof.
  unfold lookup. destruct (str_eqb k c) eqn:E.
  - apply str_eqb_eq in E. subst. now rewrite dict_get_set_same.
  - apply str_eqb_neq in E. now rewrite dict_get_set_other.
Qed.

Lemma lookup_group_step (c : str) (g : dict store) (item : str * info) :
  lookup c (group_step g item)
  = if str_eqb (Codec.filed_under item) c
    then dict_set (fst item) (snd item) (lookup c g)
    else lookup c g.
Proof.
  destruct item as [name inf]. unfold group_step, Codec.filed_under.
  cbn [fst snd]. rewrite lookup_dict_set.
  match goal with |- context [str_eqb ?k c] => destruct (str_eqb k c) eqn:E end;
    [| reflexivity].
  apply str_eqb_eq in E. now rewrite E.
Qed.

Lemma lookup_fold_group (c : str) (data : store) (g : dict store) :
  lookup c (fold_left group_step data g)
  = fold_left
      (fun d item =>
         if str_eqb (Codec.filed_under item) c
         then dict_set (fst item) (snd item) d else d)
      data (lookup c g).
Proof.
  revert g. induction data as [| item data IH]; intros g; [reflexivity |].
  cbn [fold_left]. now rewrite IH, lookup_group_step.
Qed.

Lemma fold_set_filter (P : str * info -> bool) (data d0 : store) :
  NoDup (keys d0 ++ keys data) ->
  fold_left
    (fun d item => if P item then dict_set (fst item) (snd item) d else d)
    data d0
  = d0 ++ filter P data.
Proof.
  revert d0. induction data as [| [k v] data IH]; intros d0 Hnd.
  - cbn. now rewrite app_nil_r.
  - cbn [fold_left filter fst snd]. cbn [keys map fst] in Hnd.
    destruct (P (k, v)).
    + rewrite dict_set_fresh.
      * rewrite IH.
        -- now rewrite <- app_assoc.
        -- unfold keys in *. rewrite map_app, <- app_assoc. exact Hnd.
      * intros F. apply NoDup_remove_2 in Hnd. apply Hnd.
        apply in_or_app. now left.
    + apply IH. now apply NoDup_remove_1 in Hnd.
Qed.

(** The dictionary built for a category holds the records filed under
    it, in the order of the store. *)
Lemma lookup_group (c : str) (data : store) :
  In c CATEGORIES -> NoDup (keys data) ->
  lookup c (group data)
  = filter (fun item => str_eqb (Codec.filed_under item) c) data.
Proof.
  intros Hc Hnd. unfold group. rewrite lookup_fold_group.
  assert (E : lookup c (map (fun cat : str => (cat, @nil (str * info)))
                          CATEGORIES) = []).
  { cbn in Hc. repeat (destruct Hc as [<- | Hc]; [reflexivity |]).
    contradiction. }
  rewrite E. now rewrite fold_set_filter.
Qed.

Lemma filed_under_listed (item : str * info) :
  In (Codec.filed_under item) CATEGORIES.
Proof.
  unfold Codec.filed_under.
  match goal with |- context [str_in ?k CATEGORIES] =>
    destruct (str_in k CATEGORIES) eqn:E end.
  - now apply str_in_In.
  - cbn. tauto.
Qed.

(** ** The lines before the trimming *)

Lemma category_step_app (g : dict store) (out : list str) (c : str) :
  category_step g out c = out ++ block g c.
Proof.
  unfold block, category_step. destruct (is_nil (lookup c g));
    [now rewrite app_nil_r | reflexivity].
Qed.

Lemma fold_category_step (g : dict store) (cats : list str)
  (out : list str) :
  fold_left (category_step g) cats out = out ++ flat_map (block g) cats.
Proof.
  revert out. induction cats as [| c cats IH]; intros out; cbn.
  - now rewrite app_nil_r.
  - now rewrite IH, category_step_app, <- app_assoc.
Qed.

(** ** The trimming *)

Lemma pop_blank_cut (r : list str) :
  exists pre, r = pre ++ pop_blank r /\ Forall ignorable pre.
Proof.
  induction r as [| x r [pre [E F]]].
  - exists []. split; [reflexivity | constructor].
  - destruct x as [| c x].
    + exists ([] :: pre). split; [cbn; now rewrite <- E |].
      constructor; [now left | exact F].
    + exists []. split; [reflexivity | constructor].
Qed.

Lemma pop_separator_cut (r : list str) :
  exists pre, r = pre ++ pop_separator r /\ Forall ignorable pre.
Proof.
  destruct r as [| x r]; [exists []; split; [reflexivity | constructor] |].
  unfold pop_separator. destruct (str_eqb x SEPARATOR) eqn:E.
  - apply str_eqb_eq in E. subst x. exists [SEPARATOR].
    split; [reflexivity |]. constructor; [now right | constructor].
  - exists []. split; [reflexivity | constructor].
Qed.

(** What the trimming takes away are blank lines and separator lines at
    the end of the list. *)
Lemma trimming_cut (all : list str) :
  exists suffix,
    all = rev (pop_separator (pop_blank (rev all))) ++ suffix
    /\ Forall ignorable suffix.
Proof.
  destruct (pop_blank_cut (rev all)) as [p1 [E1 F1]].
  destruct (pop_separator_cut (pop_blank (rev all))) as [p2 [E2 F2]].
  exists (rev (p1 ++ p2)). split.
  - rewrite <- rev_app_distr, <- app_assoc, <- E2, <- E1.
    symmetry. apply rev_involutive.
  - apply Forall_rev. apply Forall_app. now split.
Qed.

(** ** Order within a category *)

Lemma str_ltb_asym (a b : str) : str_ltb a b = true -> str_ltb b a = false.
Proof.
  revert b. induction a as [| x a IH]; intros [| y b]; cbn; try congruence.
  destruct (N.ltb_spec (code x) (code y)), (N.ltb_spec (code y) (code x));
    try congruence; try lia.
  apply IH.
Qed.

(** "Not smaller" is transitive. *)
Lemma str_not_ltb_trans (a b c : str) :
  str_ltb b a = false -> str_ltb c b = false -> str_ltb c a = false.
Proof.
  revert b c. induction a as [| x a IH]; intros [| y b] [| z c]; cbn;
    try congruence.
  destruct (N.ltb_spec (code y) (code x)); [congruence |].
  destruct (N.ltb_spec (code z) (code y)); [congruence |].
  destruct (N.ltb_spec (code x) (code y)),
    (N.ltb_spec (code y) (code z)),
    (N.ltb_spec (code z) (code x)),
    (N.ltb_spec (code x) (code z));
    try congruence; try lia.
  apply IH.
Qed.

Lemma insert_by_sorted {A : Type} (f : A -> str) (x : A) (l : list A) :
  StronglySorted (not_before f) l ->
  StronglySorted (not_before f) (insert_by f x l).
Proof.
  induction 1 as [| y l Hl IH Hy]; cbn.
  - apply SSorted_cons; [apply SSorted_nil | apply Forall_nil].
  - destruct (str_ltb (f y) (f x)) eqn:E.
    + apply SSorted_cons; [exact IH |].
      apply Forall_forall. intros z Hz.
      apply (Permutation_in z (insert_by_perm f x l)) in Hz.
      destruct Hz as [<- | Hz].
      * unfold not_before. now apply str_ltb_asym.
      * exact (proj1 (Forall_forall _ _) Hy z Hz).
    + apply SSorted_cons.
      * now apply SSorted_cons.
      * apply Forall_cons; [exact E |].
        apply Forall_forall. intros z Hz. unfold not_before.
        apply (str_not_ltb_trans (f x) (f y) (f z)); [exact E |].
        exact (proj1 (Forall_forall _ _) Hy z Hz).
Qed.

(** [sorted] is ascending: no item has a smaller key than an item before
    it. *)
Lemma sorted_ascending {A : Type} (f : A -> str) (l : list A) :
  StronglySorted (not_before f) (sorted f l).
Proof.
  induction l as [| x l IH]; cbn; [apply SSorted_nil |].
  now apply insert_by_sorted.
Qed.

(** ** The shape of the output *)

(** Before the trimming the lines are the heading, then for each category
    in the order of [CATEGORIES] that has a record filed under it: its
    header, its records sorted by lower-cased name, and a separator. *)
Lemma lines_before_trimming (data : store) :
  NoDup (keys data) ->
  fold_left (category_step (group data)) CATEGORIES heading
  = heading
    ++ flat_map
         (fun c =>
            let series_in_category :=
              filter (fun item => str_eqb (Codec.filed_under item) c) data in
            if is_nil series_in_category then []
            else
              [c ++ txt " :"; []; []; []]
              ++ flat_map series_entry (sorted sort_key series_in_category)
              ++ [SEPARATOR; []; []; []])
         CATEGORIES.
Proof.
  intros Hnd. rewrite fold_category_step. f_equal.
  apply flat_map_same.
  intros c Hc. unfold block, category_step.
  now rewrite lookup_group.
Qed.

Lemma block_end (g : dict store) (c : str) :
  block g c <> [] ->
  exists pre item,
    In item (lookup c g)
    /\ block g c = pre ++ series_entry item ++ [SEPARATOR; []; []; []].
Proof.
  unfold block, category_step.
  destruct (lookup c g) as [| item0 items] eqn:E; [cbn; congruence |].
  intros _. cbn [is_nil].
  destruct (exists_last (l := sorted sort_key (item0 :: items)))
    as [init [lst Hl]].
  { intros F. apply sorted_nil_iff in F. discriminate F. }
  exists ([c ++ txt " :"; []; []; []] ++ flat_map series_entry init), lst.
  split.
  - apply (Permutation_in lst (sorted_perm sort_key (item0 :: items))).
    rewrite Hl. apply in_or_app. right. now left.
  - rewrite Hl, flat_map_app. cbn [flat_map]. rewrite app_nil_r.
    now rewrite <- !app_assoc.
Qed.

Lemma blocks_end (g : dict store) (cs : list str) :
  flat_map (block g) cs <> [] ->
  exists pre c item,
    In c cs /\ In item (lookup c g)
    /\ flat_map (block g) cs
       = pre ++ series_entry item ++ [SEPARATOR; []; []; []].
Proof.
  induction cs as [| c cs IH]; [cbn; congruence |].
  cbn [flat_map]. intros Hne.
  destruct (flat_map (block g) cs) as [| l ls] eqn:E.
  - rewrite app_nil_r in *.
    destruct (block_end g c Hne) as [pre [item [Hin Hb]]].
    exists pre, c, item. repeat split; [now left | exact Hin | exact Hb].
  - destruct IH as [pre [c' [item [Hc' [Hin Hb]]]]]; [discriminate |].
    exists (block g c ++ pre), c', item.
    repeat split; [now right | exact Hin |].
    now rewrite Hb, <- app_assoc.
Qed.

Lemma trim_last_separator (pre entry : list str) :
  rev (pop_separator
         (pop_blank (rev (pre ++ entry ++ [SEPARATOR; []; []; []]))))
  = pre ++ entry.
Proof.
  rewrite app_assoc, rev_app_distr.
  change (rev [SEPARATOR; []; []; []] ++ rev (pre ++ entry))
    with ([] :: [] :: [] :: SEPARATOR :: rev (pre ++ entry)).
  change (pop_blank ([] :: [] :: [] :: SEPARATOR :: rev (pre ++ entry)))
    with (SEPARATOR :: rev (pre ++ entry)).
  unfold pop_separator. rewrite str_eqb_refl. apply rev_involutive.
Qed.

(** C8.  The trimming at the end leaves blank lines: the loop removes the
    blank lines after the last separator and then that separator, and
    the three blank lines written before it stay, so the text of a store
    with one record ends with three line feeds. *)
Theorem trailing_blank_lines_remain :
  let data : store :=
    [(txt "A", entry (S754_finite false 4503599627370496 (-52))
                 (txt "Manga"))] in
  output_lines data
  = [txt "Lecture:"; []; []; []; SEPARATOR; []; [];
     txt "Manga :"; []; []; []; txt "A- ep: 1.0"; []; []; []]
  /\ format_data_to_text data
     = txt "Lecture:" ++ [LF; LF; LF; LF] ++ SEPARATOR
       ++ [LF; LF; LF] ++ txt "Manga :" ++ [LF; LF; LF; LF]
       ++ txt "A- ep: 1.0" ++ [LF; LF; LF].
Proof. vm_compute. split; reflexivity. Qed.

(** For every store with a record, the lines that are joined end with a
    series line and the three blank lines written after it. *)
Lemma output_ends_with_blank_lines (data : store) :
  data <> [] -> NoDup (keys data) ->
  exists pre item,
    In item data
    /\ output_lines data
       = pre ++ [series_line (fst item) (snd item); []; []; []].
Proof.
  intros Hne Hnd. unfold output_lines. rewrite fold_category_step.
  destruct (blocks_end (group data) CATEGORIES)
    as [pre [c [item [Hc [Hin Hb]]]]].
  - destruct data as [| item0 data0] eqn:Ed; [congruence |].
    rewrite <- Ed in *.
    pose proof (filed_under_listed item0) as Hc0.
    assert (Hb0 : block (group data) (Codec.filed_under item0) <> []).
    { unfold block, category_step.
      rewrite lookup_group by assumption.
      assert (Hi : In item0
                     (filter (fun item =>
                                str_eqb (Codec.filed_under item)
                                  (Codec.filed_under item0)) data)).
      { apply filter_In. split; [rewrite Ed; now left |].
        apply str_eqb_refl. }
      destruct (filter _ data); [destruct Hi | discriminate]. }
    intros F.
    destruct (block (group data) (Codec.filed_under item0)) as [| l ls]
      eqn:Eb; [congruence |].
    assert (Hl : In l (flat_map (block (group data)) CATEGORIES)).
    { apply in_flat_map. exists (Codec.filed_under item0).
      split; [exact Hc0 | rewrite Eb; now left]. }
    rewrite F in Hl. destruct Hl.
  - exists (heading ++ pre), item. split.
    + rewrite lookup_group in Hin by assumption.
      apply filter_In in Hin. tauto.
    + rewrite Hb, app_assoc, trim_last_separator.
      now rewrite <- app_assoc.
Qed.

End ExporterFacts.

(* ================================================================== *)
(** * Decoding what the encoder writes *)
(* ================================================================== *)

Module CodecFacts.

Import Importer.

Ltac no_such_char H :=
  cbn in H; repeat (destruct H as [H | H]; [discriminate H |]); exact H.

Lemma parse_line_nil (st : state) : parse_line st [] = st.
Proof. reflexivity. Qed.

Lemma ignorable_skipped (l : str) (st : state) :
  Exporter.ignorable l -> parse_line st l = st.
Proof. intros [-> | ->]; reflexivity. Qed.

Lemma fold_ignorable (suffix : list str) (st : state) :
  Forall Exporter.ignorable suffix -> fold_left parse_line suffix st = st.
Proof.
  intros H. revert st. induction H as [| l suffix Hl _ IH]; intros st.
  - reflexivity.
  - cbn [fold_left]. now rewrite (ignorable_skipped l st Hl).
Qed.

Lemma header_line_effect (st : state) (cat : str) :
  In cat Exporter.CATEGORIES ->
  series_data (parse_line st (cat ++ txt " :")) = series_data st
  /\ current_category (parse_line st (cat ++ txt " :")) = cat.
Proof.
  intros H. cbn in H.
  repeat (destruct H as [<- | H]; [split; reflexivity |]). contradiction.
Qed.

(** The series lines of one category, read back under that category. *)
Lemma fold_entries (cat : str) (items : store) :
  Forall (Codec.portable_in cat) items ->
  forall st, current_category st = cat ->
  series_data (fold_left parse_line
                 (flat_map Exporter.series_entry items) st)
  = fold_left Codec.put items (series_data st)
  /\ current_category (fold_left parse_line
                         (flat_map Exporter.series_entry items) st) = cat.
Proof.
  induction 1 as [| [name inf] items [Hname [c [Hinf Hc]]] _ IH];
    intros st Hst.
  - split; [reflexivity | exact Hst].
  - cbn [fst snd] in Hname, Hinf. subst inf.
    cbn [flat_map Exporter.series_entry fst snd app fold_left].
    rewrite !parse_line_nil.
    pose proof (PatternFacts.series_of_emitted_line name cat c Hname Hc)
      as Hs.
    set (st1 := parse_line st (Exporter.series_line name (entry c cat))).
    assert (H1 : series_data st1
                 = Codec.put (series_data st) (name, entry c cat)).
    { unfold st1. rewrite ImporterFacts.parse_line_data, Hs, Hst.
      reflexivity. }
    assert (H2 : current_category st1 = cat).
    { unfold st1. rewrite ImporterFacts.parse_line_category.
      now rewrite (ImporterFacts.series_line_is_no_header _ _ _ Hs). }
    destruct (IH st1 H2) as [E1 E2]. rewrite E1, E2, H1. split; reflexivity.
Qed.

Lemma fold_block (g : dict store) (cat : str) (st : state) :
  In cat Exporter.CATEGORIES ->
  Forall (Codec.portable_in cat) (Exporter.lookup cat g) ->
  series_data (fold_left parse_line (Exporter.block g cat) st)
  = fold_left Codec.put
      (sorted Exporter.sort_key (Exporter.lookup cat g)) (series_data st).
Proof.
  intros Hcat Hgood. unfold Exporter.block, Exporter.category_step.
  destruct (Exporter.lookup cat g) as [| item items] eqn:E;
    [reflexivity |].
  cbn [is_nil app fold_left]. rewrite !parse_line_nil.
  destruct (header_line_effect st cat Hcat) as [H1 H2].
  rewrite fold_left_app.
  assert (Hsorted : Forall (Codec.portable_in cat)
                      (sorted Exporter.sort_key (item :: items))).
  { apply Forall_forall. intros x Hx.
    apply (proj1 (Forall_forall _ _) Hgood).
    apply (Permutation_in x (ExporterFacts.sorted_perm _ _) Hx). }
  destruct (fold_entries cat _ Hsorted _ H2) as [E1 _].
  rewrite fold_ignorable.
  - now rewrite E1, H1.
  - repeat (apply Forall_cons; [first [now left | now right] |]).
    apply Forall_nil.
Qed.

Lemma fold_blocks (g : dict store) (cats : list str) :
  (forall c, In c cats ->
     In c Exporter.CATEGORIES
     /\ Forall (Codec.portable_in c) (Exporter.lookup c g)) ->
  forall st,
    series_data (fold_left parse_line (flat_map (Exporter.block g) cats) st)
    = fold_left Codec.put
        (flat_map (fun c => sorted Exporter.sort_key (Exporter.lookup c g))
           cats)
        (series_data st).
Proof.
  induction cats as [| c cats IH]; intros H st; [reflexivity |].
  cbn [flat_map]. rewrite !fold_left_app.
  rewrite IH by (intros c' Hc'; apply H; now right).
  destruct (H c (or_introl eq_refl)) as [Hc Hgood].
  now rewrite fold_block.
Qed.

Lemma fold_put_fresh (l d0 : store) :
  NoDup (keys d0 ++ keys l) -> fold_left Codec.put l d0 = d0 ++ l.
Proof.
  intros H.
  pose proof (ExporterFacts.fold_set_filter (fun _ => true) l d0 H) as E.
  transitivity (d0 ++ filter (fun _ : str * info => true) l);
    [exact E | f_equal].
  clear. induction l as [| x l IH]; cbn; [reflexivity | now rewrite IH].
Qed.

(** ** The emitted records are the records of the store *)

Lemma filter_complement_perm {A : Type} (P : A -> bool) (l : list A) :
  Permutation (filter P l ++ filter (fun x => negb (P x)) l) l.
Proof.
  induction l as [| x l IH]; [apply perm_nil |].
  cbn. destruct (P x); cbn.
  - now apply perm_skip.
  - apply Permutation_sym. apply Permutation_cons_app.
    now apply Permutation_sym.
Qed.

Lemma filter_other_key {A : Type} (key : A -> str) (c c' : str)
  (l : list A) :
  c' <> c ->
  filter (fun x => str_eqb (key x) c')
    (filter (fun x => negb (str_eqb (key x) c)) l)
  = filter (fun x => str_eqb (key x) c') l.
Proof.
  intros Hne. induction l as [| x l IH]; [reflexivity |].
  cbn. destruct (str_eqb (key x) c) eqn:E; cbn.
  - apply str_eqb_eq in E.
    assert (F : str_eqb (key x) c' = false)
      by (apply str_eqb_neq; congruence).
    now rewrite F.
  - now rewrite IH.
Qed.

(** Filing a list under pairwise different keys, then putting the files
    one after the other, permutes it. *)
Lemma files_perm {A : Type} (key : A -> str) (cs : list str) :
  NoDup cs ->
  forall l : list A,
    (forall x, In x l -> In (key x) cs) ->
    Permutation
      (flat_map (fun c => filter (fun x => str_eqb (key x) c) l) cs) l.
Proof.
  induction 1 as [| c cs Hc _ IH]; intros l Hl.
  - destruct l as [| x l]; [apply perm_nil |].
    destruct (Hl x (or_introl eq_refl)).
  - cbn [flat_map].
    set (rest := filter (fun x => negb (str_eqb (key x) c)) l).
    rewrite (flat_map_same _
               (fun c' => filter (fun x => str_eqb (key x) c') rest)).
    + apply perm_trans
        with (filter (fun x => str_eqb (key x) c) l ++ rest);
        [| apply filter_complement_perm].
      apply Permutation_app_head. apply IH.
      intros x Hx. unfold rest in Hx. apply filter_In in Hx.
      destruct Hx as [Hx Hk]. destruct (Hl x Hx) as [E | E]; [| exact E].
      subst c. now rewrite str_eqb_refl in Hk.
    + intros c' Hc'. unfold rest. symmetry. apply filter_other_key.
      intros ->. contradiction.
Qed.

Lemma categories_nodup : NoDup Exporter.CATEGORIES.
Proof.
  repeat (apply NoDup_cons; [intros H; no_such_char H |]). apply NoDup_nil.
Qed.

(** The records of the blocks, in the order of the text. *)
Lemma emitted_records_perm (data : store) :
  NoDup (keys data) ->
  Permutation
    (flat_map
       (fun c => sorted Exporter.sort_key
                   (Exporter.lookup c (Exporter.group data)))
       Exporter.CATEGORIES)
    data.
Proof.
  intros Hnd.
  rewrite (flat_map_same _
             (fun c => sorted Exporter.sort_key
                         (filter (fun item =>
                                    str_eqb (Codec.filed_under item) c)
                            data)))
    by (intros c Hc; now rewrite ExporterFacts.lookup_group).
  apply perm_trans
    with (flat_map
            (fun c => filter (fun item => str_eqb (Codec.filed_under item) c)
                        data)
            Exporter.CATEGORIES).
  - generalize Exporter.CATEGORIES. intros cs.
    induction cs as [| c cs IH]; [apply perm_nil |].
    cbn [flat_map]. apply Permutation_app;
      [apply ExporterFacts.sorted_perm | exact IH].
  - apply files_perm; [apply categories_nodup |].
    intros x _. apply ExporterFacts.filed_under_listed.
Qed.

Lemma portable_filed (item : str * info) :
  Codec.portable item ->
  Codec.portable_in (Codec.filed_under item) item.
Proof.
  intros [cat [Hcat [Hname [c [Hinf Hc]]]]].
  assert (E : Codec.filed_under item = cat).
  { unfold Codec.filed_under. rewrite Hinf. cbn [Store.category entry].
    now rewrite (proj2 (str_in_In _ _) Hcat). }
  rewrite E. split; [exact Hname | now exists c].
Qed.

Lemma group_portable (data : store) (c : str) :
  In c Exporter.CATEGORIES -> NoDup (keys data) ->
  Forall Codec.portable data ->
  Forall (Codec.portable_in c) (Exporter.lookup c (Exporter.group data)).
Proof.
  intros Hc Hnd Hp. rewrite ExporterFacts.lookup_group by assumption.
  apply Forall_forall. intros item Hin. apply filter_In in Hin.
  destruct Hin as [Hin E]. apply str_eqb_eq in E. rewrite <- E.
  apply portable_filed. exact (proj1 (Forall_forall _ _) Hp item Hin).
Qed.

(** ** No emitted line holds a line feed *)

Lemma digits_hold_no_LF (d : str) :
  forallb is_digit_or_dot d = true -> ~ In LF d.
Proof.
  intros H Hin.
  pose proof (proj1 (forallb_forall _ _) H LF Hin) as F.
  discriminate F.
Qed.

Lemma block_one_line_each (g : dict store) (cat : str) :
  In cat Exporter.CATEGORIES ->
  Forall (Codec.portable_in cat) (Exporter.lookup cat g) ->
  Forall (fun x => ~ In LF x) (Exporter.block g cat).
Proof.
  intros Hcat Hgood. unfold Exporter.block, Exporter.category_step.
  destruct (Exporter.lookup cat g) as [| item items] eqn:E;
    [apply Forall_nil |].
  cbn [is_nil app].
  assert (Hnil : ~ In LF (@nil ascii)) by (intros []).
  apply Forall_cons.
  { cbn in Hcat.
    repeat (destruct Hcat as [<- | Hcat]; [intros H; no_such_char H |]).
    contradiction. }
  repeat (apply Forall_cons; [exact Hnil |]).
  apply Forall_app. split.
  - apply Forall_flat_map. apply Forall_forall. intros [name inf] Hx.
    assert (Hp : Codec.portable_in cat (name, inf)).
    { apply (proj1 (Forall_forall _ _) Hgood).
      apply (Permutation_in _ (ExporterFacts.sorted_perm _ _) Hx). }
    destruct Hp as [[_ [_ [Hlf _]]] [c [Hinf [_ Hdd]]]].
    cbn [fst snd] in Hlf, Hinf. subst inf.
    unfold Exporter.series_entry. cbn [fst snd].
    apply Forall_cons; [| repeat (apply Forall_cons; [exact Hnil |]);
                          apply Forall_nil].
    unfold Exporter.series_line. cbn [Store.chapter entry].
    intros H. apply in_app_or in H. destruct H as [H | H]; [auto |].
    apply in_app_or in H. destruct H as [H | H]; [no_such_char H |].
    exact (digits_hold_no_LF _ Hdd H).
  - apply Forall_cons; [intros H; no_such_char H |].
    repeat (apply Forall_cons; [exact Hnil |]). apply Forall_nil.
Qed.

Lemma heading_skipped :
  fold_left parse_line Exporter.heading initial = initial.
Proof. reflexivity. Qed.

Lemma heading_one_line_each :
  Forall (fun x => ~ In LF x) Exporter.heading.
Proof.
  unfold Exporter.heading.
  repeat (apply Forall_cons; [intros H; no_such_char H |]).
  apply Forall_nil.
Qed.

(** The records decoded from the text of a store of portable records are
    the records of the blocks, in the order of the text. *)
Lemma decode_of_encode (data : store) :
  data <> [] -> NoDup (keys data) -> Forall Codec.portable data ->
  parse_series_data (Exporter.format_data_to_text data)
  = flat_map
      (fun c => sorted Exporter.sort_key
                  (Exporter.lookup c (Exporter.group data)))
      Exporter.CATEGORIES.
Proof.
  intros Hne Hnd Hp. unfold Exporter.format_data_to_text.
  destruct data as [| item0 data0] eqn:Edata; [congruence |].
  cbn [is_nil]. rewrite <- Edata in *. clear Edata item0 data0 Hne.
  unfold parse_series_data, run, Exporter.output_lines.
  remember (fold_left (Exporter.category_step (Exporter.group data))
              Exporter.CATEGORIES Exporter.heading) as all eqn:Eall.
  destruct (ExporterFacts.trimming_cut all) as [suffix [Ecut Hsuffix]].
  remember (rev (Exporter.pop_separator (Exporter.pop_blank (rev all))))
    as out eqn:Eout.
  rewrite ExporterFacts.fold_category_step in Eall.
  assert (Hblocks : forall c, In c Exporter.CATEGORIES ->
            In c Exporter.CATEGORIES
            /\ Forall (Codec.portable_in c)
                 (Exporter.lookup c (Exporter.group data))).
  { intros c Hc. split; [exact Hc | now apply group_portable]. }
  assert (Hlines : Forall (fun x => ~ In LF x) all).
  { rewrite Eall. apply Forall_app. split; [apply heading_one_line_each |].
    apply Forall_flat_map. apply Forall_forall. intros c Hc.
    apply block_one_line_each; now apply Hblocks. }
  rewrite Ecut in Hlines. apply Forall_app in Hlines.
  destruct Hlines as [Hout _].
  rewrite ImporterFacts.decode_joined_lines by exact Hout.
  assert (E : fold_left parse_line out initial
              = fold_left parse_line all initial).
  { rewrite Ecut, fold_left_app.
    now rewrite (fold_ignorable suffix _ Hsuffix). }
  rewrite E, Eall, fold_left_app, heading_skipped.
  rewrite fold_blocks by exact Hblocks.
  change (series_data initial) with (@nil (str * info)).
  apply (fold_put_fresh _ []).
  cbn [keys map app]. apply (Permutation_NoDup (l := keys data));
    [| exact Hnd].
  apply Permutation_sym. unfold keys. apply Permutation_map.
  now apply emitted_records_perm.
Qed.

(** C1, as the claim states it, fails: the line written for a name that
    holds five hyphens in a row is skipped by the decoder, so the record
    is lost. *)
Lemma separator_in_name_is_lost :
  let data : store :=
    [(txt "A-----B", entry (S754_finite false 4503599627370496 (-52))
                       (txt "Manga"))] in
  NoDup (keys data)
  /\ parse_series_data (Exporter.format_data_to_text data) = []
  /\ ~ (forall t, In t (parse_series_data (Exporter.format_data_to_text data))
                  <-> In t data).
Proof.
  cbv zeta. split; [| split].
  - apply NoDup_cons; [intros [] | apply NoDup_nil].
  - vm_compute. reflexivity.
  - intros H.
    assert (E : parse_series_data
                  (Exporter.format_data_to_text
                     [(txt "A-----B",
                       entry (S754_finite false 4503599627370496 (-52))
                         (txt "Manga"))]) = [])
      by (vm_compute; reflexivity).
    rewrite E in H.
    apply (proj2 (H (txt "A-----B",
                     entry (S754_finite false 4503599627370496 (-52))
                       (txt "Manga")))).
    now left.
Qed.

(** So does a chapter that [repr] writes with an exponent: the store is
    made by [update_series_chapter] from the chapter text [1e16], the
    exporter writes [1e+16], which the pattern does not match. *)
Example exponent_chapter_is_lost :
  let data :=
    Tracker.data_after
      (Tracker.update_series_chapter (txt "Foo") (txt "1e16") (txt "Manga")
         [] true) in
  Exporter.series_line (txt "Foo")
    (entry (S754_finite false 5000000000000000 1) (txt "Manga"))
  = txt "Foo- ep: 1e+16"
  /\ data = [(txt "Foo", entry (S754_finite false 5000000000000000 1)
                           (txt "Manga"))]
  /\ parse_series_data (Exporter.format_data_to_text data) = [].
Proof. vm_compute. repeat split. Qed.

(** A name with white space at an end comes back trimmed. *)
Example padded_name_is_trimmed :
  parse_series_data
    (Exporter.format_data_to_text
       [(txt " Foo", entry (S754_finite false 4503599627370496 (-52))
                      (txt "Manga"))])
  = [(txt "Foo", entry (S754_finite false 4503599627370496 (-52))
                   (txt "Manga"))].
Proof. vm_compute. reflexivity. Qed.

(** Every chapter that [float] returns is a binary64 value: for the
    chapters that the programs store, the one condition is the text that
    [repr] writes. *)
Lemma chapter_of_float_is_plain (s : str) (c : float) :
  float_of_str s = Some c ->
  forallb Importer.is_digit_or_dot (float_repr c) = true ->
  Codec.plain_chapter c.
Proof.
  intros H1 H2. split; [exact (ReprFacts.float_of_str_valid s c H1) |].
  exact H2.
Qed.

(** Each of the other conditions on a record is needed as well: a record
    with an empty name, with a line feed in its name, with a chapter that
    [repr] writes with a sign or with letters, or with a category outside
    the four does not come back as it was. *)
Example other_records_do_not_come_back :
  let one := S754_finite false 4503599627370496 (-52) in
  let back (item : str * info) :=
    parse_series_data (Exporter.format_data_to_text [item]) in
  back ([], entry one (txt "Manga")) = []
  /\ back (txt "A" ++ [LF] ++ txt "B", entry one (txt "Manga"))
     = [(txt "B", entry one (txt "Manga"))]
  /\ back (txt "A", entry (S754_zero true) (txt "Manga")) = []
  /\ back (txt "A", entry S754_nan (txt "Manga")) = []
  /\ back (txt "A", entry one (txt "Novel"))
     = [(txt "A", entry one (txt "Other"))].
Proof. vm_compute. repeat split. Qed.

(** C1, amended.  For every store whose records are portable (the name is
    not empty, has no line feed, no white space at either end and, with
    the hyphen that follows it, no run of five hyphens; the chapter is a
    binary64 value that [repr] writes with digits and dots only; the
    category is one of the four) decoding the encoded text yields the
    same set of (name, chapter, category) triples: the decoded dictionary
    is a permutation of the store, and [get] gives the same record in
    both for every name.  That [float] reads the digits and dots back as
    the same value is proved, not assumed ([ReprFacts.repr_reads_back]). *)
Theorem roundtrip_portable (data : store) :
  NoDup (keys data) -> Forall Codec.portable data ->
  let decoded := parse_series_data (Exporter.format_data_to_text data) in
  Permutation decoded data
  /\ (forall t, In t decoded <-> In t data)
  /\ (forall name, dict_get name decoded = dict_get name data).
Proof.
  intros Hnd Hp decoded.
  assert (Hperm : Permutation decoded data).
  { subst decoded. destruct data as [| item data'] eqn:E.
    - vm_compute. apply perm_nil.
    - rewrite <- E in *. rewrite decode_of_encode; auto; [| congruence].
      now apply emitted_records_perm. }
  split; [exact Hperm |]. split.
  - intros t. split; intros H.
    + exact (Permutation_in t Hperm H).
    + exact (Permutation_in t (Permutation_sym Hperm) H).
  - assert (Hnd' : NoDup (keys decoded)).
    { apply (Permutation_NoDup (l := keys data)); [| exact Hnd].
      unfold keys. apply Permutation_map. now apply Permutation_sym. }
    intros name. destruct (dict_get name data) as [inf |] eqn:E.
    + apply In_dict_get; [exact Hnd' |].
      apply (Permutation_in _ (Permutation_sym Hperm)).
      now apply dict_get_In.
    + apply dict_get_None. apply dict_get_None in E. intros F. apply E.
      unfold keys in *.
      exact (Permutation_in name (Permutation_map fst Hperm) F).
Qed.

Lemma roundtrip_portable_witness :
  let data : store :=
    [(txt "Solo Leveling",
      entry (S754_finite false 7036874417766400 (-49)) (txt "Manhwa"));
     (txt "Foo",
      entry (S754_finite false 6755399441055744 (-51)) (txt "Manga"))] in
  let decoded := parse_series_data (Exporter.format_data_to_text data) in
  Permutation decoded data
  /\ (forall t, In t decoded <-> In t data)
  /\ (forall name, dict_get name decoded = dict_get name data).
Proof.
  intros data. apply (roundtrip_portable data).
  - repeat (apply NoDup_cons;
            [intros H; cbn in H;
             repeat (destruct H as [H | H]; [discriminate H |]); exact H |]).
    apply NoDup_nil.
  - apply Forall_cons; [| apply Forall_cons; [| apply Forall_nil]].
    + exists (txt "Manhwa"). split; [cbn; tauto |]. split.
      * split; [discriminate |]. split; [reflexivity |].
        split; [intros H; no_such_char H | reflexivity].
      * exists (S754_finite false 7036874417766400 (-49)).
        split; [reflexivity |]. split; vm_compute; reflexivity.
    + exists (txt "Manga"). split; [cbn; tauto |]. split.
      * split; [discriminate |]. split; [reflexivity |].
        split; [intros H; no_such_char H | reflexivity].
      * exists (S754_finite false 6755399441055744 (-51)).
        split; [reflexivity |]. split; vm_compute; reflexivity.
Defined.

End CodecFacts.

(* ================================================================== *)
(** * Further properties of [update_series_chapter] *)
(* ================================================================== *)

Module TrackerMore.

Import Tracker.

Lemma keys_dict_set {V : Type} (k : str) (v : V) (d : dict V) :
  keys (dict_set k v d) = Notions.seen (keys d) k.
Proof.
  unfold Notions.seen. induction d as [| [k0 v0] d IH]; [reflexivity |].
  cbn [dict_set keys map fst str_in existsb].
  destruct (str_eqb k0 k) eqn:E.
  - apply str_eqb_eq in E. subst k0. rewrite str_eqb_refl. reflexivity.
  - assert (E' : str_eqb k k0 = false).
    { apply str_eqb_neq. apply str_eqb_neq in E. congruence. }
    rewrite E'. cbn [orb keys map fst].
    unfold keys, str_in in IH. rewrite IH.
    destruct (existsb (str_eqb k) (map fst d)); reflexivity.
Qed.

Lemma seen_nodup (ks : list str) (k : str) :
  NoDup ks -> NoDup (Notions.seen ks k).
Proof.
  intros H. unfold Notions.seen. destruct (str_in k ks) eqn:E; [exact H |].
  apply str_in_not_In in E.
  apply (Permutation_NoDup (l := k :: ks)).
  - apply Permutation_cons_append.
  - now apply NoDup_cons.
Qed.

(** A call changes at most the record of the name it is given: every
    other name reads the same before and after, whether the call
    succeeds or not. *)
Theorem update_leaves_other_names
  (series_data : store) (series_name chapter_input category : str)
  (auto_save : bool) (other : str) :
  other <> series_name ->
  dict_get other
    (data_after (update_series_chapter series_name chapter_input category
                   series_data auto_save))
  = dict_get other series_data.
Proof.
  intros Hne. unfold update_series_chapter.
  destruct (str_in category CATEGORIES); cbn [negb]; [| reflexivity].
  destruct (float_of_str chapter_input) as [c |]; [| reflexivity].
  destruct (float_ltb c float_zero); [reflexivity |].
  unfold data_after. cbn [fst snd].
  apply dict_get_set_other. congruence.
Qed.

Lemma update_leaves_other_names_witness :
  dict_get (txt "Foo")
    (data_after
       (update_series_chapter (txt "Bar") (txt "2") (txt "Manga")
          [(txt "Foo", entry (S754_zero false) (txt "Other"))] true))
  = dict_get (txt "Foo") [(txt "Foo", entry (S754_zero false) (txt "Other"))].
Proof.
  apply (update_leaves_other_names _ (txt "Bar") (txt "2") (txt "Manga") true
           (txt "Foo")).
  discriminate.
Defined.



(** [save_series_data] is called exactly when the call succeeds with
    [auto_save] set, and what it is given is the dictionary after the
    call.  (Whether the write then completes is another matter:
    [save_series_data] catches a failure and prints an error.) *)
Theorem save_iff_success
  (series_data : store) (series_name chapter_input category : str)
  (auto_save : bool) (d : store) :
  let r := update_series_chapter series_name chapter_input category
             series_data auto_save in
  In (Save d) (effects r)
  <-> (returned r = true /\ auto_save = true /\ d = data_after r).
Proof.
  cbv zeta. unfold update_series_chapter.
  assert (Hno : forall m, In (Save d) [Print m] <-> False).
  { intros m. split; [intros [H | []]; discriminate | tauto]. }
  destruct (str_in category CATEGORIES); cbn [negb].
  2:{ unfold effects, returned. cbn [fst snd]. rewrite Hno.
      split; [tauto | intros [F _]; discriminate F]. }
  destruct (float_of_str chapter_input) as [c |].
  2:{ unfold effects, returned. cbn [fst snd]. rewrite Hno.
      split; [tauto | intros [F _]; discriminate F]. }
  destruct (float_ltb c float_zero).
  { unfold effects, returned. cbn [fst snd]. rewrite Hno.
    split; [tauto | intros [F _]; discriminate F]. }
  unfold effects, returned, data_after. cbn [fst snd].
  destruct auto_save; cbn [app].
  - split.
    + intros [H | H]; [injection H as <-; auto |].
      apply Hno in H. contradiction.
    + intros [_ [_ ->]]. now left.
  - rewrite Hno. split; [tauto | intros [_ [F _]]; discriminate F].
Qed.

Lemma float_eqb_refl (c : float) : c <> S754_nan -> float_eqb c c = true.
Proof.
  unfold float_eqb, SFeqb.
  destruct c as [sg | sg | | sg m e]; cbn; try congruence.
  - now destruct sg.
  - intros _. rewrite Z.compare_refl, Pos.compare_cont_refl.
    now destruct sg.
Qed.

Lemma float_ltb_irrefl (c : float) : float_ltb c c = false.
Proof.
  unfold float_ltb, SFltb.
  destruct c as [sg | sg | | sg m e]; cbn; try reflexivity.
  - now destruct sg.
  - rewrite Z.compare_refl, Pos.compare_cont_refl. now destruct sg.
Qed.

Lemma dict_set_twice {V : Type} (k : str) (v : V) (d : dict V) :
  dict_set k v (dict_set k v d) = dict_set k v d.
Proof.
  induction d as [| [k0 v0] d IH]; cbn.
  - now rewrite str_eqb_refl.
  - destruct (str_eqb k0 k) eqn:E; cbn; rewrite E; [reflexivity |].
    now rewrite IH.
Qed.

(** Repeating a successful call changes nothing more, whatever
    [auto_save] is in either call: the dictionary after the second call is
    the dictionary after the first, the second call gives that dictionary
    to [save_series_data] when its [auto_save] is set and makes no such
    call otherwise, and it reports that the chapter remains the same (the
    chapter not being a NaN). *)
Theorem update_twice
  (series_data : store) (series_name chapter_input category : str)
  (auto_save auto_save' : bool) (c : float) :
  float_of_str chapter_input = Some c -> c <> S754_nan ->
  let r1 := update_series_chapter series_name chapter_input category
              series_data auto_save in
  returned r1 = true ->
  let r2 := update_series_chapter series_name chapter_input category
              (data_after r1) auto_save' in
  returned r2 = true
  /\ data_after r2 = data_after r1
  /\ effects r2
     = (if auto_save' then [Save (data_after r1)] else [])
       ++ [Print (NoChange series_name c)].
Proof.
  intros Hc Hnan r1 Hok r2.
  assert (Hval : str_in category CATEGORIES = true
                 /\ float_ltb c float_zero = false).
  { subst r1. unfold update_series_chapter in Hok. rewrite Hc in Hok.
    destruct (str_in category CATEGORIES); cbn [negb] in Hok;
      [| discriminate Hok].
    destruct (float_ltb c float_zero); [discriminate Hok | auto]. }
  destruct Hval as [Hcat Hlt].
  assert (E1 : data_after r1
               = dict_set series_name (entry c category) series_data).
  { subst r1. unfold update_series_chapter.
    rewrite Hcat, Hc, Hlt. reflexivity. }
  subst r2. rewrite E1. clear r1 Hok E1.
  set (d1 := dict_set series_name (entry c category) series_data).
  assert (G : dict_get series_name d1 = Some (entry c category))
    by apply dict_get_set_same.
  unfold update_series_chapter. rewrite Hcat, Hc, Hlt. cbn [negb].
  unfold dict_mem. rewrite G.
  cbn [negb Store.chapter Store.category entry].
  rewrite str_eqb_refl, float_ltb_irrefl, (float_eqb_refl c Hnan).
  cbn [negb andb]. unfold returned, data_after, effects. cbn [fst snd].
  unfold d1. rewrite dict_set_twice. repeat split.
Qed.

Lemma update_twice_witness :
  let c := S754_finite false 7036874417766400 (-49) in
  let r1 := update_series_chapter (txt "Foo") (txt "12.5") (txt "Manga") []
              true in
  let r2 := update_series_chapter (txt "Foo") (txt "12.5") (txt "Manga")
              (data_after r1) true in
  returned r2 = true
  /\ data_after r2 = data_after r1
  /\ effects r2
     = [Save (data_after r1)] ++ [Print (NoChange (txt "Foo") c)].
Proof.
  intros c.
  refine (update_twice [] (txt "Foo") (txt "12.5") (txt "Manga") true true c
            _ _ _).
  - vm_compute. reflexivity.
  - discriminate.
  - vm_compute. reflexivity.
Defined.

(** With a NaN the second call reports a correction instead: a NaN is
    neither greater than nor equal to itself. *)
Example nan_twice_reports_correction :
  let r1 := update_series_chapter (txt "Foo") (txt "nan") (txt "Manga") []
              false in
  effects (update_series_chapter (txt "Foo") (txt "nan") (txt "Manga")
             (data_after r1) false)
  = [Print (Corrected (txt "Foo") S754_nan S754_nan None)].
Proof. vm_compute. reflexivity. Qed.

End TrackerMore.

(* ================================================================== *)
(** * Further properties of [parse_series_data] *)
(* ================================================================== *)

Module ImporterMore.

Import Importer.

Lemma lazy_group_extends (rest g g1 g2 : str) :
  lazy_group g rest = Some (g1, g2) ->
  exists q, g1 = g ++ q /\ ~ In LF q
            /\ forallb is_digit_or_dot g2 = true.
Proof.
  revert g. induction rest as [| c rest IH]; intros g;
    rewrite PatternFacts.lazy_group_step.
  - destruct (pattern_tail []) as [t |] eqn:E; [| discriminate].
    intros [= <- <-]. exists []. rewrite app_nil_r.
    repeat split; [intros [] |].
    exact (proj1 (PatternFacts.pattern_tail_nonspace _ _ E)).
  - destruct (pattern_tail (c :: rest)) as [t |] eqn:E.
    + intros [= <- <-]. exists []. rewrite app_nil_r.
      repeat split; [intros [] |].
      exact (proj1 (PatternFacts.pattern_tail_nonspace _ _ E)).
    + destruct (Ascii.eqb_spec c LF) as [-> | Hc]; [discriminate |].
      intros H. destruct (IH _ H) as [q [Hq [Hlf Hg]]].
      exists (c :: q). rewrite Hq, <- app_assoc.
      repeat split; [| exact Hg].
      intros [F | F]; [congruence | contradiction].
Qed.

Lemma blank_of_strip_nil (s : str) :
  strip s = [] -> forallb isspace s = true.
Proof.
  intros H. destruct (strip_decompose s) as [a [b [Ha [Hb [Hs _]]]]].
  rewrite Hs, H. cbn [app]. rewrite forallb_app. now rewrite Ha, Hb.
Qed.

Lemma strip_keeps_out (x : ascii) (s : str) :
  ~ In x s -> ~ In x (strip s).
Proof.
  intros H F. apply H.
  destruct (strip_decompose s) as [a [b [_ [_ [Hs _]]]]]. rewrite Hs.
  apply in_or_app. right. apply in_or_app. now left.
Qed.

(** What a stored line gives: a name that is not empty, has no line feed
    and no white space at either end, and a chapter that is a zero, a
    positive value or the positive infinity. *)
Lemma stored_line_facts (line name : str) (c : float) :
  series_of line = Some (name, c) ->
  name <> [] /\ strip name = name /\ ~ In LF name
  /\ Notions.nonneg_or_inf c = true.
Proof.
  unfold series_of.
  destruct (strip_fixed_ends (strip line) (strip_idem line)) as [Hl _].
  destruct (strip line) as [| c0 rest] eqn:El; [discriminate |].
  apply lstrip_fixed_head in Hl.
  destruct (is_nil (c0 :: rest) || contains (txt "-----") (c0 :: rest)
            || endswith (txt ":") (c0 :: rest)); [discriminate |].
  destruct (SERIES_LINE_PATTERN (c0 :: rest)) as [[g1 g2] |] eqn:Ep;
    [| discriminate].
  cbn [SERIES_LINE_PATTERN] in Ep.
  destruct (c0 =? LF)%char eqn:Hc0; [discriminate |].
  apply Ascii.eqb_neq in Hc0.
  destruct (lazy_group_extends _ _ _ _ Ep) as [q [Hg1 [Hq Hg2]]].
  rewrite (PatternFacts.strip_digits g2 Hg2).
  destruct (float_of_str g2) as [c' |] eqn:Ef; [| discriminate].
  intros [= <- <-]. subst g1. cbn [app].
  repeat split.
  - intros F. apply blank_of_strip_nil in F. cbn [forallb] in F.
    rewrite Hl in F. discriminate F.
  - apply strip_idem.
  - apply strip_keeps_out. intros [F | F]; [congruence | contradiction].
  - exact (FloatFacts.float_of_digits g2 c' Hg2 Ef).
Qed.

Lemma header_is_listed (line c : str) :
  header_of line = Some c -> In c CATEGORIES.
Proof.
  unfold header_of.
  destruct (is_nil (strip line) || contains (txt "-----") (strip line));
    [discriminate |].
  destruct (endswith (txt ":") (strip line)); cbn [andb]; [| discriminate].
  destruct (str_in (category_name (strip line)) CATEGORIES) eqn:E;
    [| discriminate].
  intros [= <-]. now apply str_in_In.
Qed.

(** The decoded dictionary has no name twice, whatever the text. *)
Theorem decoded_names_differ (text_content : str) :
  NoDup (keys (parse_series_data text_content)).
Proof.
  unfold parse_series_data, run.
  assert (G : forall lines st, NoDup (keys (series_data st)) ->
              NoDup (keys (series_data (fold_left parse_line lines st)))).
  { induction lines as [| l lines IH]; intros st H; [exact H |].
    cbn [fold_left]. apply IH. rewrite ImporterFacts.parse_line_data.
    destruct (series_of l) as [[n c] |]; [| exact H].
    rewrite TrackerMore.keys_dict_set. now apply TrackerMore.seen_nodup. }
  apply G. apply NoDup_nil.
Qed.

(** Every record of a decoded dictionary is complete and well formed:
    it has a chapter and a category, the category is one of the four, the
    name is not empty and has neither a line feed nor white space at an
    end, and the chapter is never negative and never a NaN (it is a
    non-negative number or, for a text of very many digits, the positive
    infinity). *)
Theorem decoded_records_well_formed
  (text_content name : str) (inf : info) :
  In (name, inf) (parse_series_data text_content) ->
  exists c cat,
    inf = entry c cat /\ In cat CATEGORIES
    /\ name <> [] /\ strip name = name /\ ~ In LF name
    /\ c <> S754_nan /\ float_ltb c float_zero = false
    /\ (Tracker.nonneg_real c = true \/ c = S754_infinity false).
Proof.
  unfold parse_series_data, run.
  set (good := fun (item : str * info) =>
         exists c cat,
           snd item = entry c cat /\ In cat CATEGORIES
           /\ fst item <> [] /\ strip (fst item) = fst item
           /\ ~ In LF (fst item)
           /\ c <> S754_nan /\ float_ltb c float_zero = false
           /\ (Tracker.nonneg_real c = true \/ c = S754_infinity false)).
  assert (G : forall lines st,
              In (current_category st) CATEGORIES ->
              (forall item, In item (series_data st) -> good item) ->
              forall item,
                In item (series_data (fold_left parse_line lines st)) ->
                good item).
  { induction lines as [| l lines IH]; intros st Hcat Hst; [exact Hst |].
    cbn [fold_left]. apply IH.
    - rewrite ImporterFacts.parse_line_category.
      destruct (header_of l) as [c |] eqn:E; [| exact Hcat].
      exact (header_is_listed l c E).
    - rewrite ImporterFacts.parse_line_data.
      destruct (series_of l) as [[n c] |] eqn:E; [| exact Hst].
      intros [k v] Hin. apply dict_set_In in Hin.
      destruct Hin as [[-> ->] | Hin]; [| exact (Hst _ Hin)].
      destruct (stored_line_facts l n c E) as [H1 [H2 [H3 H4]]].
      destruct (FloatFacts.nonneg_or_inf_cases c H4) as [H5 [H6 H7]].
      exists c, (current_category st). cbn [fst snd]. auto 10. }
  intros Hin.
  exact (G (lines_of text_content) initial
           (or_intror (or_intror (or_intror (or_introl eq_refl))))
           (fun item (F : In item []) => match F with end)
           (name, inf) Hin).
Qed.

Lemma decoded_records_well_formed_witness :
  exists c cat,
    entry (S754_finite false 6755399441055744 (-52)) (txt "Manhwa")
    = entry c cat
    /\ In cat CATEGORIES
    /\ txt "Bar" <> [] /\ strip (txt "Bar") = txt "Bar"
    /\ ~ In LF (txt "Bar")
    /\ c <> S754_nan /\ float_ltb c float_zero = false
    /\ (Tracker.nonneg_real c = true \/ c = S754_infinity false).
Proof.
  apply (decoded_records_well_formed
           (txt "Manhwa :" ++ [LF] ++ txt "  Bar  -  ep:  1.5")
           (txt "Bar")
           (entry (S754_finite false 6755399441055744 (-52)) (txt "Manhwa"))).
  vm_compute. left. reflexivity.
Defined.

(** A chapter text of very many digits is stored as the infinity. *)
Example long_chapter_decodes_to_infinity :
  parse_series_data (txt "Foo - ep: " ++ repeat "9"%char 400)
  = [(txt "Foo", entry (S754_infinity false) (txt "Other"))].
Proof. vm_compute. reflexivity. Qed.

(** The [strip] of the whole text is without effect: the decoded
    dictionary is what the loop gives on the lines of the text as it
    is. *)
Theorem decode_reads_lines (text_content : str) :
  parse_series_data text_content
  = series_data (fold_left parse_line (split LF text_content) initial).
Proof.
  unfold parse_series_data, run.
  now rewrite ImporterFacts.outer_strip_irrelevant.
Qed.

Lemma fold_seen_In (names ks : list str) (k : str) :
  In k (fold_left Notions.seen names ks) <-> In k ks \/ In k names.
Proof.
  revert ks. induction names as [| n names IH]; intros ks; cbn [fold_left].
  - cbn. tauto.
  - rewrite IH. unfold Notions.seen.
    destruct (str_in n ks) eqn:E.
    + apply str_in_In in E. cbn. split; [tauto |].
      intros [H | [<- | H]]; auto.
    + rewrite in_app_iff. cbn. tauto.
Qed.

(** The names of the decoded dictionary are exactly the names of the
    stored lines, each once, in the order in which they first appear in
    the text. *)
Theorem decoded_names_in_order (text_content : str) :
  keys (parse_series_data text_content)
  = fold_left Notions.seen (Notions.stored_names (lines_of text_content)) []
  /\ (forall name,
        In name (keys (parse_series_data text_content))
        <-> In name (Notions.stored_names (lines_of text_content))).
Proof.
  assert (E : keys (parse_series_data text_content)
              = fold_left Notions.seen
                  (Notions.stored_names (lines_of text_content)) []).
  { unfold parse_series_data, run.
    change (@nil str) with (keys (series_data initial)).
    generalize initial. generalize (lines_of text_content).
    induction l as [| l lines IH]; intros st; [reflexivity |].
    cbn [fold_left Notions.stored_names flat_map].
    rewrite IH, ImporterFacts.parse_line_data, fold_left_app.
    fold (Notions.stored_names lines).
    destruct (series_of l) as [[n c] |]; [| reflexivity].
    cbn [fold_left]. now rewrite TrackerMore.keys_dict_set. }
  split; [exact E |].
  intros name. rewrite E, fold_seen_In. cbn. tauto.
Qed.

End ImporterMore.

(* ================================================================== *)
(** * Further properties of [format_data_to_text] *)
(* ================================================================== *)

Module ExporterMore.

Import Exporter.

Lemma str_ltb_irrefl (a : str) : str_ltb a a = false.
Proof.
  destruct (str_ltb a a) eqn:E; [| reflexivity].
  now rewrite (ExporterFacts.str_ltb_asym a a E) in E.
Qed.

(** [sorted] is stable: the items of one key keep their order. *)
Lemma insert_by_stable {A : Type} (f : A -> str) (k : str) (x : A)
  (l : list A) :
  filter (Notions.same_key f k) (insert_by f x l)
  = filter (Notions.same_key f k) (x :: l).
Proof.
  induction l as [| y l IH]; [reflexivity |].
  cbn [insert_by]. destruct (str_ltb (f y) (f x)) eqn:E; [| reflexivity].
  cbn [filter] in *. rewrite IH.
  unfold Notions.same_key.
  destruct (str_eqb (f x) k) eqn:Ex, (str_eqb (f y) k) eqn:Ey;
    try reflexivity.
  apply str_eqb_eq in Ex, Ey. rewrite Ex, Ey, str_ltb_irrefl in E.
  discriminate E.
Qed.

Lemma sorted_stable {A : Type} (f : A -> str) (k : str) (l : list A) :
  filter (Notions.same_key f k) (sorted f l)
  = filter (Notions.same_key f k) l.
Proof.
  induction l as [| x l IH]; [reflexivity |].
  cbn [sorted]. rewrite insert_by_stable. cbn [filter]. now rewrite IH.
Qed.

(** The text before the trimming: the heading, then for each category in
    the order Manga, Manhwa, Manhua, Other under which a record is filed,
    its header, its records and a separator; a category under which no
    record is filed adds no line, and a record with a missing or unlisted
    category is filed under [Other]. *)
Theorem blocks_in_category_order (data : store) :
  NoDup (keys data) ->
  fold_left (category_step (group data)) CATEGORIES heading
  = heading
    ++ flat_map
         (fun c =>
            let series_in_category :=
              filter (fun item => str_eqb (Codec.filed_under item) c) data in
            if is_nil series_in_category then []
            else
              [c ++ txt " :"; []; []; []]
              ++ flat_map series_entry (sorted sort_key series_in_category)
              ++ [SEPARATOR; []; []; []])
         CATEGORIES.
Proof. apply ExporterFacts.lines_before_trimming. Qed.

Lemma two_names_differ (a b : str) : a <> b -> NoDup [a; b].
Proof.
  intros H. apply NoDup_cons; [intros [F | []]; congruence |].
  apply NoDup_cons; [intros [] | apply NoDup_nil].
Qed.

Lemma blocks_in_category_order_witness :
  let data : store :=
    [(txt "zed", {| chapter := None; category := Some (txt "Novel") |});
     (txt "Foo", entry (S754_finite false 6755399441055744 (-51))
                   (txt "Manga"))] in
  fold_left (category_step (group data)) CATEGORIES heading
  = heading
    ++ flat_map
         (fun c =>
            let series_in_category :=
              filter (fun item => str_eqb (Codec.filed_under item) c) data in
            if is_nil series_in_category then []
            else
              [c ++ txt " :"; []; []; []]
              ++ flat_map series_entry (sorted sort_key series_in_category)
              ++ [SEPARATOR; []; []; []])
         CATEGORIES.
Proof.
  intros data. apply (blocks_in_category_order data).
  apply two_names_differ. discriminate.
Defined.

(** Within the block of a category the records are those filed under it,
    each once, in ascending order of the lower-cased name; records whose
    names differ in case only keep the order they have in the store. *)
Theorem category_block_sorted (data : store) (c : str) :
  NoDup (keys data) -> In c CATEGORIES ->
  let filed :=
    filter (fun item => str_eqb (Codec.filed_under item) c) data in
  let items := sorted sort_key (lookup c (group data)) in
  block (group data) c
  = (if is_nil items then []
     else [c ++ txt " :"; []; []; []] ++ flat_map series_entry items
          ++ [SEPARATOR; []; []; []])
  /\ Permutation items filed
  /\ StronglySorted (not_before sort_key) items
  /\ (forall k,
        filter (Notions.same_key sort_key k) items
        = filter (Notions.same_key sort_key k) filed).
Proof.
  intros Hnd Hc filed items. subst filed items.
  rewrite <- (ExporterFacts.lookup_group c data Hc Hnd).
  split; [| split; [| split]].
  - unfold block, category_step.
    destruct (lookup c (group data)) as [| x l] eqn:E; [reflexivity |].
    cbn [is_nil].
    destruct (sorted sort_key (x :: l)) eqn:Es; [| reflexivity].
    apply ExporterFacts.sorted_nil_iff in Es. discriminate Es.
  - apply ExporterFacts.sorted_perm.
  - apply ExporterFacts.sorted_ascending.
  - intros k. apply sorted_stable.
Qed.

Lemma category_block_sorted_witness :
  let data : store :=
    [(txt "foo", entry (S754_zero false) (txt "Manga"));
     (txt "Bar", entry (S754_zero false) (txt "Manga"))] in
  let filed :=
    filter (fun item => str_eqb (Codec.filed_under item) (txt "Manga"))
      data in
  let items := sorted sort_key (lookup (txt "Manga") (group data)) in
  block (group data) (txt "Manga")
  = (if is_nil items then []
     else [txt "Manga" ++ txt " :"; []; []; []] ++ flat_map series_entry items
          ++ [SEPARATOR; []; []; []])
  /\ Permutation items filed
  /\ StronglySorted (not_before sort_key) items
  /\ (forall k,
        filter (Notions.same_key sort_key k) items
        = filter (Notions.same_key sort_key k) filed).
Proof.
  intros data. apply (category_block_sorted data (txt "Manga")).
  - apply two_names_differ. discriminate.
  - now left.
Defined.

(** For every store with a record, the list that is joined ends with the
    line of a record of the store and the three blank lines written
    after it: the separator after the last block is taken away, the
    blank lines before it are not. *)
Theorem output_ends_with_entry (data : store) :
  data <> [] -> NoDup (keys data) ->
  exists pre item,
    In item data
    /\ output_lines data
       = pre ++ [series_line (fst item) (snd item); []; []; []].
Proof. apply ExporterFacts.output_ends_with_blank_lines. Qed.

Lemma output_ends_with_entry_witness :
  let data : store :=
    [(txt "foo", entry (S754_zero false) (txt "Manga"));
     (txt "Bar", entry (S754_zero false) (txt "Other"))] in
  exists pre item,
    In item data
    /\ output_lines data
       = pre ++ [series_line (fst item) (snd item); []; []; []].
Proof.
  intros data. apply (output_ends_with_entry data).
  - discriminate.
  - apply two_names_differ. discriminate.
Defined.

(** ** Missing and unlisted fields *)

Lemma filed_under_as_exported (item : str * info) :
  Codec.filed_under (Notions.as_exported item) = Codec.filed_under item.
Proof.
  unfold Notions.as_exported at 1. unfold Codec.filed_under at 1.
  cbn [snd Store.category entry].
  now rewrite (proj2 (str_in_In _ _) (ExporterFacts.filed_under_listed item)).
Qed.

Lemma filter_map_same {A : Type} (P : A -> bool) (g : A -> A)
  (l : list A) :
  (forall x, P (g x) = P x) -> filter P (map g l) = map g (filter P l).
Proof.
  intros H. induction l as [| x l IH]; [reflexivity |].
  cbn. rewrite H. destruct (P x); cbn; now rewrite IH.
Qed.

Lemma insert_by_map_same {A : Type} (f : A -> str) (g : A -> A) (x : A)
  (l : list A) :
  (forall y, f (g y) = f y) ->
  insert_by f (g x) (map g l) = map g (insert_by f x l).
Proof.
  intros H. induction l as [| y l IH]; [reflexivity |].
  cbn. rewrite !H. destruct (str_ltb (f y) (f x)); cbn; [| reflexivity].
  now rewrite IH.
Qed.

Lemma sorted_map_same {A : Type} (f : A -> str) (g : A -> A)
  (l : list A) :
  (forall y, f (g y) = f y) -> sorted f (map g l) = map g (sorted f l).
Proof.
  intros H. induction l as [| x l IH]; [reflexivity |].
  cbn. rewrite IH. now apply insert_by_map_same.
Qed.

Lemma flat_map_map_same {A B : Type} (f : A -> list B) (g : A -> A)
  (l : list A) :
  (forall x, f (g x) = f x) -> flat_map f (map g l) = flat_map f l.
Proof.
  intros H. induction l as [| x l IH]; [reflexivity |].
  cbn. now rewrite H, IH.
Qed.

Lemma keys_as_exported (data : store) :
  keys (map Notions.as_exported data) = keys data.
Proof.
  unfold keys. rewrite map_map. apply map_ext. reflexivity.
Qed.

Lemma export_reads_defaults_aux (data : store) :
  NoDup (keys data) ->
  format_data_to_text (map Notions.as_exported data)
  = format_data_to_text data.
Proof.
  intros Hnd. unfold format_data_to_text.
  destruct data as [| item0 data0] eqn:Ed; [reflexivity |].
  cbn [map is_nil]. rewrite <- Ed in *.
  change (Notions.as_exported item0 :: map Notions.as_exported data0)
    with (map Notions.as_exported (item0 :: data0)).
  rewrite <- Ed. clear Ed item0 data0.
  unfold output_lines.
  enough (E : fold_left
                (category_step (group (map Notions.as_exported data)))
                CATEGORIES heading
              = fold_left (category_step (group data)) CATEGORIES heading)
    by now rewrite E.
  rewrite !ExporterFacts.lines_before_trimming
    by (rewrite ?keys_as_exported; exact Hnd).
  apply (f_equal (app heading)).
  apply flat_map_same. intros c _. cbv zeta.
  rewrite filter_map_same
    by (intros x; now rewrite filed_under_as_exported).
  set (l := filter (fun item => str_eqb (Codec.filed_under item) c) data).
  destruct l as [| x l]; [reflexivity |].
  cbn [map is_nil]. do 2 f_equal.
  change (Notions.as_exported x :: map Notions.as_exported l)
    with (map Notions.as_exported (x :: l)).
  rewrite sorted_map_same by reflexivity.
  now rewrite flat_map_map_same by reflexivity.
Qed.

(** The exporter reads a record through its defaults only: a store
    written with the missing chapters set to [0.0] and the missing or
    unlisted categories set to [Other] gives the same text. *)
Theorem export_reads_defaults (data : store) :
  NoDup (keys data) ->
  format_data_to_text (map Notions.as_exported data)
  = format_data_to_text data.
Proof. apply export_reads_defaults_aux. Qed.

Lemma export_reads_defaults_witness :
  let data : store :=
    [(txt "zed", {| chapter := None; category := Some (txt "Novel") |});
     (txt "Foo", {| chapter := Some (S754_zero false); category := None |})]
  in
  format_data_to_text (map Notions.as_exported data)
  = format_data_to_text data.
Proof.
  intros data. apply (export_reads_defaults data).
  apply two_names_differ. discriminate.
Defined.

(** The round trip with the defaults: when the records as the exporter
    reads them are portable (a name that a series line gives back, a
    binary64 chapter that [repr] writes with digits and dots only),
    decoding the encoded text gives those records, so a missing or
    unlisted category comes back as [Other] and a missing chapter as
    [0.0]. *)
Theorem roundtrip_with_defaults (data : store) :
  NoDup (keys data) ->
  Forall Codec.portable (map Notions.as_exported data) ->
  Permutation
    (Importer.parse_series_data (format_data_to_text data))
    (map Notions.as_exported data).
Proof.
  intros Hnd Hp. rewrite <- (export_reads_defaults_aux data Hnd).
  assert (Hnd' : NoDup (keys (map Notions.as_exported data)))
    by (now rewrite keys_as_exported).
  destruct data as [| item0 data0] eqn:Ed.
  - vm_compute. apply perm_nil.
  - rewrite <- Ed in *.
    rewrite CodecFacts.decode_of_encode; auto.
    + now apply CodecFacts.emitted_records_perm.
    + rewrite Ed. discriminate.
Qed.

Lemma roundtrip_with_defaults_witness :
  let data : store :=
    [(txt "zed", {| chapter := None; category := Some (txt "Novel") |});
     (txt "Foo", entry (S754_finite false 6755399441055744 (-51))
                   (txt "Manga"))] in
  Permutation
    (Importer.parse_series_data (format_data_to_text data))
    (map Notions.as_exported data).
Proof.
  intros data. apply (roundtrip_with_defaults data).
  - apply two_names_differ. discriminate.
  - apply Forall_cons; [| apply Forall_cons; [| apply Forall_nil]].
    + exists (txt "Other"). split; [cbn; tauto |]. split.
      * split; [discriminate |]. split; [reflexivity |].
        split; [intros H; CodecFacts.no_such_char H | reflexivity].
      * exists (S754_zero false).
        split; [reflexivity |]. split; vm_compute; reflexivity.
    + exists (txt "Manga"). split; [cbn; tauto |]. split.
      * split; [discriminate |]. split; [reflexivity |].
        split; [intros H; CodecFacts.no_such_char H | reflexivity].
      * exists (S754_finite false 6755399441055744 (-51)).
        split; [reflexivity |]. split; vm_compute; reflexivity.
Defined.

(** X31.  [float] reads back what the exporter writes for a chapter: for
    every binary64 value that [repr] writes with digits and dots only
    (no sign, no exponent, neither [nan] nor [inf]), [float] of that text
    is the value itself, bit for bit. *)
Theorem chapter_text_reads_back (c : float) :
  valid_binary prec emax c = true ->
  forallb Importer.is_digit_or_dot (float_repr c) = true ->
  float_of_str (float_repr c) = Some c.
Proof. exact (ReprFacts.repr_reads_back c). Qed.

Lemma chapter_text_reads_back_witness :
  let c := S754_finite false 7036874417766400 (-49) in
  float_repr c = txt "12.5" /\ float_of_str (float_repr c) = Some c.
Proof.
  intros c. split; [vm_compute; reflexivity |].
  apply (chapter_text_reads_back c); vm_compute; reflexivity.
Defined.

End ExporterMore.

(* ================================================================== *)
(** * The interactive shell of [Series_Tracker.py] *)
(* ================================================================== *)

Module ShellFacts.

Import Shell.

(** ** [int] of a decimal numeral *)

Lemma scan_digits_plain (s : str) (prev : ascii) :
  forallb is_digit s = true -> prev <> "_"%char ->
  PyInt.scan_digits prev s = Some s.
Proof.
  revert prev. induction s as [| c s IH]; intros prev Hd Hp; cbn.
  - apply Ascii.eqb_neq in Hp. now rewrite Hp.
  - cbn in Hd. apply andb_prop in Hd. destruct Hd as [Hc Hs].
    assert (Hu : (c =? "_")%char = false).
    { apply Ascii.eqb_neq. intros ->. discriminate. }
    rewrite Hu, Hc, IH; auto. now apply Ascii.eqb_neq.
Qed.

Lemma transform_numeral (s : str) :
  forallb is_digit s = true -> transform_decimal_and_space s = s.
Proof.
  induction s as [| c s IH]; cbn; [reflexivity |].
  intros H. apply andb_prop in H. destruct H as [Hc Hs].
  assert (E : (code c <? 127)%N = true).
  { unfold is_digit in Hc. apply andb_prop in Hc. destruct Hc as [_ Hc].
    apply N.leb_le in Hc. apply N.ltb_lt. lia. }
  rewrite E. now rewrite IH.
Qed.

Lemma digit_no_c_space (c : ascii) : is_digit c = true -> is_c_space c = false.
Proof.
  unfold is_digit, is_c_space. intros H. apply andb_prop in H.
  destruct H as [H1 H2]. apply N.leb_le in H1. apply N.leb_le in H2.
  apply orb_false_iff. split.
  - apply andb_false_iff. right. apply N.leb_gt. lia.
  - apply N.eqb_neq. lia.
Qed.

Lemma c_lstrip_numeral (s : str) :
  forallb is_digit s = true -> c_lstrip s = s.
Proof.
  destruct s as [| c s]; cbn; [reflexivity |].
  intros H. apply andb_prop in H. destruct H as [Hc _].
  now rewrite digit_no_c_space.
Qed.

Lemma c_strip_numeral (s : str) :
  forallb is_digit s = true -> c_strip s = s.
Proof.
  intros H. unfold c_strip. rewrite (c_lstrip_numeral s H).
  rewrite c_lstrip_numeral.
  - apply rev_involutive.
  - rewrite forallb_forall in *. intros c Hc. apply H. now apply in_rev.
Qed.

(** [int(str(n))] is [n] for a numeral within the limit on digits. *)
Lemma int_of_numeral (n : N) :
  (List.length (str_of_N n) <= PyInt.max_str_digits)%nat ->
  PyInt.int_of_str (str_of_N n) = Some (Z.of_N n).
Proof.
  intros Hlen. unfold PyInt.int_of_str.
  assert (Hd : forallb is_digit (str_of_N n) = true) by apply ReprFacts.uint_digits.
  rewrite transform_numeral, c_strip_numeral by exact Hd.
  assert (Hne : exists c s, str_of_N n = c :: s /\ is_digit c = true).
  { unfold str_of_N in *.
    assert (Hnn : N.to_uint n <> Decimal.Nil).
    { destruct n as [| p]; [discriminate |].
      apply DecimalPos.Unsigned.to_uint_nonnil. }
    destruct (N.to_uint n); [contradiction | ..];
      eexists _, _; split; reflexivity. }
  destruct Hne as (c & s & E & Hc).
  assert (Hsign : take_sign (str_of_N n) = (false, str_of_N n)).
  { rewrite E. unfold take_sign.
    destruct c as [[] [] [] [] [] [] [] []]; try discriminate Hc; reflexivity. }
  rewrite Hsign. rewrite E at 1.
  assert (Hu : (c =? "_")%char = false).
  { apply Ascii.eqb_neq. intros ->. discriminate. }
  rewrite Hu. rewrite scan_digits_plain; [| exact Hd | discriminate].
  apply Nat.leb_le in Hlen.
  assert (Hl : (PyInt.max_str_digits <? List.length (str_of_N n))%nat = false).
  { apply Nat.ltb_ge. now apply Nat.leb_le. }
  rewrite Hl. cbn. now rewrite ReprFacts.digits_of_N.
Qed.


(** ** The steps of the shell *)

Lemma say_all_world (ts : list text) (w : world) :
  let w' := fold_left (fun w t => emit (Say t) w) ts w in
  data w' = data w /\ stdin w' = stdin w /\ disk w' = disk w
  /\ trace w' = trace w ++ map Say ts /\ fate w' = fate w.
Proof.
  revert w. induction ts as [| t ts IH]; intros w; cbn.
  - now rewrite app_nil_r.
  - destruct (IH (emit (Say t) w)) as (Hd & Hs & Hf & Ht & Hq). cbn in *.
    repeat split; try assumption. rewrite Ht. now rewrite <- app_assoc.
Qed.

Lemma view_effect (w : world) :
  exists w',
    view_all_series w = Returned tt w' /\ data w' = data w
    /\ stdin w' = stdin w /\ unwritten w w'.
Proof.
  unfold view_all_series, unwritten. destruct (is_nil (data w)).
  - eexists. split; [reflexivity |]. cbn. auto.
  - unfold bind, say, say_all. eexists. split; [reflexivity |].
    cbn [emit data stdin disk fate].
    match goal with
    | |- context [fold_left _ ?ts ?w0] =>
        destruct (say_all_world ts w0) as (Hd & Hs & Hf & _ & Hq)
    end.
    cbn in Hd, Hs, Hf, Hq. auto.
Qed.

Lemma saved_when_written (w w' : world) :
  saved_once w w' -> fate w 0 = Written -> disk w' = Holds (data w').
Proof. intros [Hf _] Ho. rewrite Hf, Ho. reflexivity. Qed.

(** A call of the update engine from the shell: it reads no line; when it
    returns [False] nothing is changed and nothing written, and when it
    returns [True] the record is assigned and one attempt is made to
    write the dictionary. *)
Lemma update_effect (series_name chapter_number category : str) (w : world) :
  exists b w',
    Shell.update_series_chapter series_name chapter_number category w
    = Returned b w'
    /\ stdin w' = stdin w
    /\ ((b = false /\ data w' = data w /\ unwritten w w'
         /\ ~ (In category Tracker.CATEGORIES
               /\ exists c,
                    float_of_str chapter_number = Some c
                    /\ float_ltb c float_zero = false))
        \/ (b = true /\ In category Tracker.CATEGORIES
            /\ exists c,
                float_of_str chapter_number = Some c
                /\ float_ltb c float_zero = false
                /\ data w'
                   = dict_set series_name (entry c category) (data w)
                /\ saved_once w w')).
Proof.
  unfold Shell.update_series_chapter, Tracker.update_series_chapter,
    unwritten, saved_once.
  destruct (str_in category Tracker.CATEGORIES) eqn:Hc; cbn [negb].
  2: { eexists _, _. split; [reflexivity |].
       cbn [Tracker.returned Tracker.data_after Tracker.effects fst snd app
            fold_left perform write emit data stdin disk fate].
       split; [reflexivity |].
       left. repeat split; auto. intros [Hin _].
       apply str_in_In in Hin. congruence. }
  destruct (float_of_str chapter_number) as [c |] eqn:Hf.
  2: { eexists _, _. split; [reflexivity |].
       cbn [Tracker.returned Tracker.data_after Tracker.effects fst snd app
            fold_left perform write emit data stdin disk fate].
       split; [reflexivity |].
       left. repeat split; auto. intros [_ [c [F _]]]. discriminate F. }
  destruct (float_ltb c float_zero) eqn:Hz.
  { eexists _, _. split; [reflexivity |].
    cbn [Tracker.returned Tracker.data_after Tracker.effects fst snd app
         fold_left perform write emit data stdin disk fate].
    split; [reflexivity |].
    left. repeat split; auto. intros [_ [c' [F G]]].
    injection F as <-. congruence. }
  eexists _, _. split; [reflexivity |].
  cbn [Tracker.returned Tracker.data_after Tracker.effects fst snd app
       fold_left perform write emit data stdin disk fate].
  split; [reflexivity |]. right. split; [reflexivity |].
  split; [now apply str_in_In |].
  exists c. auto.
Qed.

Ltac run :=
  unfold bind, say, input, ret; cbn [emit data stdin disk fate trace].

Ltac with_update :=
  match goal with
  | |- context [Shell.update_series_chapter ?a ?b ?c ?W] =>
      let ok := fresh "ok" in
      let w' := fresh "w'" in
      let E := fresh "E" in
      let Hs := fresh "Hs" in
      let Hu := fresh "Hu" in
      destruct (update_effect a b c W) as (ok & w' & E & Hs & Hu);
      rewrite E; unfold unwritten, saved_once in Hu;
      cbn [emit data stdin disk fate trace] in Hs, Hu
  end.

Ltac with_view :=
  match goal with
  | |- context [view_all_series ?W] =>
      let w' := fresh "w'" in
      let E := fresh "E" in
      let Hd := fresh "Hd" in
      let Hs := fresh "Hs" in
      let Hf := fresh "Hf" in
      let Hq := fresh "Hq" in
      destruct (view_effect W) as (w' & E & Hd & Hs & Hf & Hq);
      rewrite E; cbn [emit data stdin disk fate trace] in Hd, Hs, Hf, Hq
  end.

(** ** [handle_add_new_series_only] *)

Lemma add_cases (w : world) :
  match handle_add_new_series_only w with
  | Returned true w' =>
      exists name category c,
        addable w name category c (stdin w')
        /\ data w' = data w ++ [(name, entry c category)]
        /\ saved_once w w'
  | Returned false w' =>
      data w' = data w /\ unwritten w w'
      /\ (List.length (stdin w') < List.length (stdin w))%nat
      /\ ~ (exists name category c rest, addable w name category c rest)
  | Raised e w' =>
      e = EOFError /\ stdin w' = [] /\ data w' = data w /\ unwritten w w'
      /\ ~ (exists name category c rest, addable w name category c rest)
  | Exited _ => False
  end.
Proof.
  unfold handle_add_new_series_only, addable, unwritten, saved_once. run.
  destruct (stdin w) as [| name_line rest1] eqn:E1.
  { repeat split; auto. intros (? & ? & ? & ? & ? & ? & ? & F & _).
    discriminate F. }
  destruct (is_nil (strip name_line)) eqn:Hn; run.
  { cbn. repeat split; auto with arith.
    intros (? & ? & ? & ? & l1 & l2 & l3 & F & Hs & Hne & _).
    injection F as -> _. subst. destruct (strip l1); [congruence |].
    discriminate Hn. }
  unfold dict_mem.
  destruct (dict_get (strip name_line) (data w)) eqn:Hg; run.
  { cbn. repeat split; auto with arith.
    intros (? & ? & ? & ? & l1 & l2 & l3 & F & Hs & _ & Hk & _).
    injection F as -> _. subst. congruence. }
  destruct rest1 as [| category_line rest2]; run.
  { repeat split; auto. intros (? & ? & ? & ? & ? & ? & ? & F & _).
    discriminate F. }
  destruct rest2 as [| chapter_line rest3]; run.
  { repeat split; auto. intros (? & ? & ? & ? & ? & ? & ? & F & _).
    discriminate F. }
  with_update.
  destruct Hu as [(-> & Hd & (Hf & Hq) & Hno)
                 | (-> & Hc & c & Hch & Hz & Hd & Hf & Hq)].
  - rewrite Hd, Hf, Hq, Hs. cbn. repeat split; auto with arith.
    intros (? & ? & c & ? & l1 & l2 & l3 & F & _ & _ & _ & Hcs & Hci & Hfl
            & Hz).
    injection F as -> -> -> _. subst. apply Hno. split; [exact Hci |].
    now exists c.
  - with_view. exists (strip name_line), (strip category_line), c.
    rewrite Hs0, Hs, Hd0, Hf0, Hq0, Hf, Hd, Hq. split.
    + exists name_line, category_line, chapter_line.
      repeat split; auto. intros F. now rewrite F in Hn.
    + split; [| split; reflexivity].
      apply dict_set_fresh. now apply dict_get_None.
Qed.



(** ** [handle_find_series] *)

Lemma matching_In (t : str) (d : store) (name : str) :
  In name (matching t d) ->
  In name (keys d) /\ contains t (lower name) = true.
Proof.
  unfold matching. intros H. apply filter_In in H. destruct H as [H1 H2].
  split; [| exact H2].
  eapply Permutation_in; [apply ExporterFacts.sorted_perm | exact H1].
Qed.

Lemma selection_cases (m lines : list str) (w : world) :
  stdin w = lines ->
  match selection_loop m lines w with
  | Returned sel w' =>
      data w' = data w /\ unwritten w w'
      /\ (List.length (stdin w') < List.length lines)%nat
      /\ match sel with Some name => In name m | None => True end
  | Raised e w' =>
      e = EOFError /\ stdin w' = [] /\ data w' = data w /\ unwritten w w'
  | Exited _ => False
  end.
Proof.
  unfold unwritten.
  revert w. induction lines as [| line rest IH]; intros w Hw;
    cbn [selection_loop].
  - cbn. auto.
  - destruct (is_nil (strip line)); run; [cbn; auto with arith |].
    destruct (PyInt.int_of_str (strip line)) as [n |]; run.
    + match goal with |- context [if ?b then _ else _] =>
        destruct b eqn:Hb end; run.
      * apply andb_prop in Hb. destruct Hb as [H0 H1].
        apply Z.leb_le in H0. apply Z.ltb_lt in H1.
        cbn [List.length]. repeat split; auto with arith.
        apply nth_In. lia.
      * match goal with |- context [selection_loop m rest ?W] =>
          specialize (IH W eq_refl);
          destruct (selection_loop m rest W) as [sel w' | e w' | w'] end;
          cbn [data stdin disk fate trace List.length] in *;
          [| exact IH ..].
        destruct IH as (? & (? & ?) & ? & ?). auto with arith.
    + match goal with |- context [selection_loop m rest ?W] =>
        specialize (IH W eq_refl);
        destruct (selection_loop m rest W) as [sel w' | e w' | w'] end;
        cbn [data stdin disk fate trace List.length] in *; [| exact IH ..].
      destruct IH as (? & (? & ?) & ? & ?). auto with arith.
Qed.

Lemma find_cases (w : world) :
  match handle_find_series w with
  | Returned _ w' => (List.length (stdin w') < List.length (stdin w))%nat
  | Raised e w' => e = EOFError /\ stdin w' = []
  | Exited _ => False
  end
  /\ ((data (final (handle_find_series w)) = data w
       /\ unwritten w (final (handle_find_series w)))
      \/ exists search_line rest name old cat c,
           stdin w = search_line :: rest
           /\ contains (lower (strip search_line)) (lower name) = true
           /\ dict_get name (data w) = Some old
           /\ Store.category old = Some cat
           /\ In cat Tracker.CATEGORIES
           /\ float_ltb c float_zero = false
           /\ data (final (handle_find_series w))
              = dict_set name (entry c cat) (data w)
           /\ saved_once w (final (handle_find_series w))).
Proof.
  unfold handle_find_series, unwritten, saved_once. run.
  destruct (stdin w) as [| search_line rest1] eqn:E1; [cbn; auto |].
  destruct (is_nil (strip search_line)) eqn:Hn; run;
    [cbn; auto with arith |].
  destruct (is_nil (matching (lower (strip search_line)) (data w))) eqn:Hm;
    run; [cbn; auto with arith |].
  unfold say_all.
  match goal with |- context [fold_left ?f ?ts ?W] =>
    destruct (say_all_world ts W) as (Hd0 & Hs0 & Hf0 & _ & Hq0);
    set (w0 := fold_left f ts W) in * end.
  cbn [emit data stdin disk fate trace] in Hd0, Hs0, Hf0, Hq0.
  pose proof (selection_cases (matching (lower (strip search_line)) (data w))
                (stdin w0) w0 eq_refl) as Hsel.
  unfold unwritten in Hsel.
  destruct (selection_loop _ (stdin w0) w0) as [sel w1 | e w1 | w1];
    [| cbn; rewrite Hd0, Hf0, Hq0 in Hsel; tauto | contradiction].
  destruct Hsel as (Hd1 & (Hf1 & Hq1) & Hl1 & Hin).
  rewrite Hs0 in Hl1. rewrite Hd0 in Hd1. rewrite Hf0 in Hf1.
  rewrite Hq0 in Hq1.
  destruct sel as [name |]; [| cbn; auto with arith].
  apply matching_In in Hin. destruct Hin as [Hk Hc].
  destruct (dict_get name (data w1)) as [old |] eqn:Hg.
  2: { exfalso. rewrite Hd1 in Hg. now apply dict_get_None in Hg. }
  run.
  destruct (stdin w1) as [| update_line rest2] eqn:E2; [cbn; auto |].
  destruct (str_eqb (lower (strip update_line)) (txt "y")); run.
  2: { cbn. cbn in Hl1. split; [lia | auto]. }
  destruct rest2 as [| chapter_line rest3]; run; [cbn; auto |].
  with_update.
  assert (Hlen : (List.length rest3 < S (List.length rest1))%nat)
    by (cbn in Hl1; lia).
  destruct Hu as [(-> & Hd & (Hf & Hq) & _)
                 | (-> & Hcat & c & Hch & Hz & Hd & Hf & Hq)];
    run; cbn [final emit data stdin disk fate trace List.length];
    rewrite Hs; (split; [exact Hlen |]).
  - left. rewrite Hd, Hf, Hq. auto.
  - right. rewrite Hd1 in *.
    destruct (Store.category old) as [cat |] eqn:Hold.
    + exists search_line, rest1, name, old, cat, c.
      rewrite Hf, Hd, Hq, Hf1, Hq1. auto 10.
    + exfalso. revert Hcat. clear. cbn. intros H.
      repeat (destruct H as [H | H]; [discriminate H |]). exact H.
Qed.


(** ** A session *)

(** A relation between the state before and after that holds when the
    dictionary is as it was and nothing is written, when a new record is
    put last and saved, when a record in one of the categories has its
    chapter assigned and is saved, and when the dictionary is saved, and
    that is transitive, holds over a whole session. *)
Section Session.

Variable R : world -> world -> Prop.

Hypothesis R_quiet :
  forall w w', data w' = data w -> unwritten w w' -> R w w'.

Hypothesis R_trans : forall a b c, R a b -> R b c -> R a c.

Hypothesis R_add :
  forall w w' name c cat,
    dict_get name (data w) = None ->
    In cat Tracker.CATEGORIES ->
    float_ltb c float_zero = false ->
    data w' = data w ++ [(name, entry c cat)] ->
    saved_once w w' ->
    R w w'.

Hypothesis R_advance :
  forall w w' name old cat c,
    dict_get name (data w) = Some old ->
    Store.category old = Some cat ->
    In cat Tracker.CATEGORIES ->
    float_ltb c float_zero = false ->
    data w' = dict_set name (entry c cat) (data w) ->
    saved_once w w' ->
    R w w'.

Hypothesis R_save :
  forall w w', data w' = data w -> saved_once w w' -> R w w'.

Lemma R_still (w w' : world) :
  data w' = data w -> disk w' = disk w -> fate w' = fate w -> R w w'.
Proof. intros Hd Hf Hq. apply R_quiet; [exact Hd | now split]. Qed.

Local Hint Resolve R_still : core.

Lemma add_R (w : world) :
  match handle_add_new_series_only w with
  | Returned _ w' =>
      (List.length (stdin w') < List.length (stdin w))%nat /\ R w w'
  | Raised e w' => e = EOFError /\ stdin w' = [] /\ R w w'
  | Exited _ => False
  end.
Proof.
  pose proof (add_cases w) as H.
  destruct (handle_add_new_series_only w) as [[|] w' | e w' | w'].
  - destruct H as (name & cat & c & (l1 & l2 & l3 & E & _ & _ & Hg & _ & Hc
                                     & _ & Hz) & Hd & Hf).
    split; [rewrite E; cbn; lia |]. eapply R_add; eauto.
  - destruct H as (Hd & Hf & Hl & _). auto.
  - destruct H as (He & Hs & Hd & Hf & _). auto.
  - exact H.
Qed.

Lemma find_R (w : world) :
  match handle_find_series w with
  | Returned _ w' =>
      (List.length (stdin w') < List.length (stdin w))%nat /\ R w w'
  | Raised e w' => e = EOFError /\ stdin w' = [] /\ R w w'
  | Exited _ => False
  end.
Proof.
  destruct (find_cases w) as [H1 H2].
  assert (HR : R w (final (handle_find_series w))).
  { destruct H2 as [[Hd Hf] | (l & rest & name & old & cat & c & _ & _ & Hg
                                 & Ho & Hc & Hz & Hd & Hf)];
      [now apply R_quiet | eapply R_advance; eauto]. }
  destruct (handle_find_series w) as [v w' | e w' | w']; cbn [final] in HR;
    tauto.
Qed.

Lemma view_R (w : world) :
  match view_all_series w with
  | Returned _ w' =>
      (List.length (stdin w') <= List.length (stdin w))%nat /\ R w w'
  | Raised e w' => e = EOFError /\ stdin w' = [] /\ R w w'
  | Exited _ => False
  end.
Proof.
  destruct (view_effect w) as (w' & E & Hd & Hs & Hf). rewrite E, Hs. auto.
Qed.

(** The loop ends by the end of the input or by [sys.exit], and just
    before [sys.exit] it calls [save_series_data] on the dictionary. *)
Lemma menu_loop_spec (turns : nat) (w : world) :
  (List.length (stdin w) < turns)%nat ->
  match menu_loop turns w with
  | Returned _ _ => False
  | Raised e w' => e = EOFError /\ stdin w' = [] /\ R w w'
  | Exited w' =>
      (exists w0, R w w0 /\ w' = write (data w0) w0) /\ R w w'
  end.
Proof.
  revert w. induction turns as [| turns IH]; intros w Hlt; [lia |].
  cbn [menu_loop]. run.
  destruct (stdin w) as [| line rest] eqn:E; [auto |].
  cbn [List.length] in Hlt.
  match goal with
  | |- context [{| data := data w; stdin := rest; disk := disk w;
                   fate := fate w; trace := ?t |}] =>
      set (W := {| data := data w; stdin := rest; disk := disk w;
                   fate := fate w; trace := t |})
  end.
  assert (HW : R w W) by (apply R_quiet; [| split]; reflexivity).
  assert (Hgo : forall w1,
             (List.length (stdin w1) <= List.length rest)%nat -> R W w1 ->
             match menu_loop turns w1 with
             | Returned _ _ => False
             | Raised e w' => e = EOFError /\ stdin w' = [] /\ R w w'
             | Exited w' =>
                 (exists w0, R w w0 /\ w' = write (data w0) w0) /\ R w w'
             end).
  { intros w1 Hl HR. specialize (IH w1 ltac:(lia)).
    destruct (menu_loop turns w1) as [v w' | e w' | w']; [exact IH | |].
    - destruct IH as (? & ? & ?). eauto.
    - destruct IH as ((w0 & ? & ?) & ?). split; [exists w0 |]; eauto. }
  destruct (str_eqb (strip line) (txt "1")).
  { pose proof (add_R W) as H.
    destruct (handle_add_new_series_only W) as [v w1 | e w1 | w1].
    - destruct H as [Hl HR]. apply Hgo; [cbn in Hl; lia | exact HR].
    - destruct H as (? & ? & ?). eauto.
    - destruct H. }
  destruct (str_eqb (strip line) (txt "2")).
  { pose proof (view_R W) as H.
    destruct (view_all_series W) as [v w1 | e w1 | w1].
    - destruct H as [Hl HR]. apply Hgo; [exact Hl | exact HR].
    - destruct H as (? & ? & ?). eauto.
    - destruct H. }
  destruct (str_eqb (strip line) (txt "3")).
  { pose proof (find_R W) as H.
    destruct (handle_find_series W) as [v w1 | e w1 | w1].
    - destruct H as [Hl HR]. apply Hgo; [cbn in Hl; lia | exact HR].
    - destruct H as (? & ? & ?). eauto.
    - destruct H. }
  destruct (str_eqb (strip line) (txt "4")).
  { unfold save_series_data, exit. cbn [emit data stdin disk fate trace].
    assert (H0 : R w (emit (Say Exiting) W)).
    { apply R_trans with W; [exact HW |].
      apply R_quiet; [| split]; reflexivity. }
    split.
    - exists (emit (Say Exiting) W). split; [exact H0 | reflexivity].
    - apply R_trans with (emit (Say Exiting) W); [exact H0 |].
      apply R_save; [| split]; reflexivity. }
  apply Hgo; [cbn; lia |]. apply R_quiet; [| split]; reflexivity.
Qed.

Lemma main_menu_spec (lines : list str) (f : file) (fs : nat -> outcome) :
  let w0 :=
    {| data := loaded f; stdin := lines; disk := f; fate := fs;
       trace := [] |} in
  match main_menu lines f fs with
  | Returned _ _ => False
  | Raised e w' => e = EOFError /\ stdin w' = [] /\ R w0 w'
  | Exited w' =>
      (exists w1, R w0 w1 /\ w' = write (data w1) w1) /\ R w0 w'
  end.
Proof.
  intros w0.
  assert (E : exists tr,
             main_menu lines f fs
             = menu_loop (S (List.length lines))
                 {| data := loaded f; stdin := lines; disk := f;
                    fate := fs; trace := tr |}).
  { unfold main_menu, load_series_data. run.
    destruct f; cbn; eexists; reflexivity. }
  destruct E as [tr E]. rewrite E.
  match goal with |- context [menu_loop ?n ?W] =>
    pose proof (menu_loop_spec n W ltac:(cbn; lia)) as H;
    assert (H0 : R w0 W) by (apply R_quiet; [| split]; reflexivity);
    destruct (menu_loop n W) as [v w' | e w' | w'] end.
  - exact H.
  - destruct H as (? & ? & ?). eauto.
  - destruct H as ((w1 & ? & ?) & ?). split; [exists w1 |]; eauto.
Qed.

End Session.


(** ** The relations kept by a session *)

Lemma dict_get_put_last {V : Type} (k name : str) (v : V) (d : dict V) :
  dict_get name d = None ->
  dict_get k (d ++ [(name, v)])
  = if str_eqb name k then Some v else dict_get k d.
Proof.
  intros H. rewrite <- dict_set_fresh by now apply dict_get_None.
  destruct (str_eqb name k) eqn:E.
  - apply str_eqb_eq in E. subst. apply dict_get_set_same.
  - apply str_eqb_neq in E. now apply dict_get_set_other.
Qed.

Lemma keys_put_over {V : Type} (k : str) (v old : V) (d : dict V) :
  dict_get k d = Some old -> keys (dict_set k v d) = keys d.
Proof.
  intros H. rewrite TrackerMore.keys_dict_set. unfold Notions.seen.
  assert (E : str_in k (keys d) = true).
  { apply str_in_In. destruct (in_dec (list_eq_dec ascii_dec) k (keys d))
      as [Hin | Hout]; [exact Hin |].
    apply dict_get_None in Hout. congruence. }
  now rewrite E.
Qed.

Lemma unlisted_other (cat : str) (i : info) :
  Store.category i = Some cat -> In cat Tracker.CATEGORIES -> listed i.
Proof. intros H1 H2. now exists cat. Qed.

(** When every attempt to write completes, the file holds the
    dictionary, unless neither has changed. *)
Lemma in_step_session (lines : list str) (f : file)
  (fs : nat -> outcome) :
  all_written fs ->
  (data (final (main_menu lines f fs)) = loaded f
   /\ disk (final (main_menu lines f fs)) = f)
  \/ disk (final (main_menu lines f fs))
     = Holds (data (final (main_menu lines f fs))).
Proof.
  intros Hall.
  pose proof
    (main_menu_spec
       (fun w w' =>
          all_written (fate w) ->
          ((data w' = data w /\ disk w' = disk w)
           \/ disk w' = Holds (data w'))
          /\ all_written (fate w'))) as H.
  cbv beta in H.
  assert (Hsave : forall w w', saved_once w w' -> all_written (fate w) ->
                    disk w' = Holds (data w') /\ all_written (fate w')).
  { intros w w' [Hf Hq] Hw. split.
    - rewrite Hf, (Hw 0%nat). reflexivity.
    - intros n. rewrite Hq. apply Hw. }
  specialize
    (H ltac:(intros w w' Hd [Hf Hq] Hw; split;
             [now left | now rewrite Hq])).
  specialize
    (H ltac:(intros a b c H1 H2 Ha;
             destruct (H1 Ha) as [G1 Hb]; destruct (H2 Hb) as [G2 Hc];
             split; [| exact Hc];
             destruct G1 as [[E1 E2] | E1]; destruct G2 as [[E3 E4] | E3];
             [left; split; congruence | now right
             | right; congruence | now right])).
  specialize
    (H ltac:(intros w w' name c cat _ _ _ _ Hs Hw;
             destruct (Hsave w w' Hs Hw); auto)).
  specialize
    (H ltac:(intros w w' name old cat c _ _ _ _ _ Hs Hw;
             destruct (Hsave w w' Hs Hw); auto)).
  specialize
    (H ltac:(intros w w' _ Hs Hw; destruct (Hsave w w' Hs Hw); auto)).
  specialize (H lines f fs). cbv zeta in H.
  destruct (main_menu lines f fs) as [v w' | e w' | w'];
    cbn [final data disk fate] in *.
  - destruct H.
  - destruct H as (_ & _ & H). exact (proj1 (H Hall)).
  - destruct H as (_ & H). exact (proj1 (H Hall)).
Qed.

(** Names stay, in their order, and no category changes; a record
    outside the categories stays as it is. *)
Lemma records_kept_session (lines : list str) (f : file)
  (fs : nat -> outcome) :
  (exists added,
     keys (data (final (main_menu lines f fs))) = keys (loaded f) ++ added)
  /\ forall name i,
       dict_get name (loaded f) = Some i ->
       exists i',
         dict_get name (data (final (main_menu lines f fs))) = Some i'
         /\ Store.category i' = Store.category i
         /\ (~ listed i -> i' = i).
Proof.
  pose proof
    (main_menu_spec
       (fun w w' =>
          (exists added, keys (data w') = keys (data w) ++ added)
          /\ forall name i,
               dict_get name (data w) = Some i ->
               exists i',
                 dict_get name (data w') = Some i'
                 /\ Store.category i' = Store.category i
                 /\ (~ listed i -> i' = i))) as H.
  cbv beta in H.
  assert (H1 : forall w w', data w' = data w ->
                 (exists added, keys (data w') = keys (data w) ++ added)
                 /\ forall name i,
                      dict_get name (data w) = Some i ->
                      exists i',
                        dict_get name (data w') = Some i'
                        /\ Store.category i' = Store.category i
                        /\ (~ listed i -> i' = i)).
  { intros w w' Hd. rewrite Hd. split.
    - exists []. now rewrite app_nil_r.
    - intros name i Hi. exists i. auto. }
  specialize (H ltac:(intros w w' Hd _; now apply H1)).
  specialize
    (H ltac:(intros a b c [[ad1 K1] G1] [[ad2 K2] G2]; split;
             [exists (ad1 ++ ad2); rewrite K2, K1; now rewrite app_assoc
             | intros name i Hi;
               destruct (G1 name i Hi) as (i1 & Hi1 & C1 & F1);
               destruct (G2 name i1 Hi1) as (i2 & Hi2 & C2 & F2);
               exists i2; split; [exact Hi2 |]; split; [congruence |];
               intros Hn; specialize (F1 Hn); subst i1; auto])).
  specialize
    (H ltac:(intros w w' name c cat Hg _ _ Hd _; rewrite Hd; split;
             [exists [name]; unfold keys; now rewrite map_app
             | intros k i Hi; exists i;
               rewrite (dict_get_put_last k name _ _ Hg);
               destruct (str_eqb name k) eqn:E;
               [apply str_eqb_eq in E; congruence | auto]])).
  specialize
    (H ltac:(intros w w' name old cat c Hg Ho Hc _ Hd _; rewrite Hd; split;
             [exists []; rewrite app_nil_r; now apply keys_put_over with old
             | intros k i Hi;
               destruct (list_eq_dec ascii_dec name k) as [-> | Hne];
               [ rewrite dict_get_set_same; eexists; split; [reflexivity |];
                 assert (i = old) by congruence; subst i; split;
                 [cbn; now rewrite Ho
                 | intros Hn; exfalso; apply Hn;
                   now apply unlisted_other with cat]
               | rewrite dict_get_set_other by exact Hne; exists i; auto]])).
  specialize (H ltac:(intros w w' Hd _; now apply H1)).
  specialize (H lines f fs). cbv zeta in H.
  destruct (main_menu lines f fs) as [v w' | e w' | w'];
    cbn [final data disk] in *.
  - destruct H.
  - tauto.
  - tauto.
Qed.

(** A record of the dictionary is a loaded record as it was, or has one
    of the categories and a chapter that is not below zero. *)
Lemma records_valid_session (lines : list str) (f : file)
  (fs : nat -> outcome) (name : str)
  (i : info) :
  dict_get name (data (final (main_menu lines f fs))) = Some i ->
  dict_get name (loaded f) = Some i
  \/ (listed i
      /\ exists c,
           Store.chapter i = Some c /\ float_ltb c float_zero = false).
Proof.
  pose proof
    (main_menu_spec
       (fun w w' =>
          forall name i,
            dict_get name (data w') = Some i ->
            dict_get name (data w) = Some i
            \/ (listed i
                /\ exists c,
                     Store.chapter i = Some c
                     /\ float_ltb c float_zero = false))) as H.
  cbv beta in H.
  assert (H1 : forall w w', data w' = data w ->
                 forall name i,
                   dict_get name (data w') = Some i ->
                   dict_get name (data w) = Some i
                   \/ (listed i
                       /\ exists c,
                            Store.chapter i = Some c
                            /\ float_ltb c float_zero = false)).
  { intros w w' Hd k j Hj. left. congruence. }
  specialize (H ltac:(intros w w' Hd _; now apply H1)).
  specialize
    (H ltac:(intros a b c G1 G2 k j Hj;
             destruct (G2 k j Hj) as [Hb | Hgood]; [auto | now right])).
  specialize
    (H ltac:(intros w w' n c cat Hg Hc Hz Hd _ k j Hj; rewrite Hd in Hj;
             rewrite (dict_get_put_last k n _ _ Hg) in Hj;
             destruct (str_eqb n k);
             [injection Hj as <-; right; split;
              [now apply unlisted_other with cat | now exists c]
             | now left])).
  specialize
    (H ltac:(intros w w' n old cat c Hg Ho Hc Hz Hd _ k j Hj;
             rewrite Hd in Hj;
             destruct (list_eq_dec ascii_dec n k) as [-> | Hne];
             [rewrite dict_get_set_same in Hj; injection Hj as <-; right;
              split; [now apply unlisted_other with cat | now exists c]
             | rewrite dict_get_set_other in Hj by exact Hne; now left])).
  specialize (H ltac:(intros w w' Hd _; now apply H1)).
  specialize (H lines f fs). cbv zeta in H.
  destruct (main_menu lines f fs) as [v w' | e w' | w'];
    cbn [final data disk] in *.
  - destruct H.
  - destruct H as (_ & _ & H). apply H.
  - destruct H as (_ & H). apply H.
Qed.



(** ** [view_all_series] *)

Lemma said_app (a b : list event) : said (a ++ b) = said a ++ said b.
Proof. apply flat_map_app. Qed.

Lemma said_says (ts : list text) : said (map Say ts) = ts.
Proof.
  induction ts as [| t ts IH]; [reflexivity |]. cbn. f_equal. exact IH.
Qed.

Lemma rows_among_app (a b : list text) :
  rows_among (a ++ b) = rows_among a ++ rows_among b.
Proof. apply flat_map_app. Qed.

Lemma rows_among_view_block (g : dict store) (c : str) :
  rows_among (view_block g c)
  = map (fun item => (fst item, Store.chapter (snd item)))
      (sorted (fun item : str * info => fst item) (Exporter.lookup c g)).
Proof.
  unfold view_block. destruct (Exporter.lookup c g) as [| x l] eqn:E;
    [reflexivity |].
  cbn [is_nil rows_among flat_map app]. unfold rows.
  induction (sorted (fun item : str * info => fst item) (x :: l))
    as [| y r IH]; cbn; [| rewrite <- IH]; reflexivity.
Qed.

Lemma flat_map_perm_in {A B : Type} (f g : A -> list B) (l : list A) :
  (forall a, In a l -> Permutation (f a) (g a)) ->
  Permutation (flat_map f l) (flat_map g l).
Proof.
  induction l as [| a l IH]; intros H; cbn; [apply perm_nil |].
  apply Permutation_app; [apply H; now left |].
  apply IH. intros b Hb. apply H. now right.
Qed.

Lemma flat_map_map_out {A B C : Type} (p : B -> C) (f : A -> list B)
  (l : list A) :
  flat_map (fun a => map p (f a)) l = map p (flat_map f l).
Proof.
  induction l as [| a l IH]; cbn; [reflexivity |].
  now rewrite IH, map_app.
Qed.

Lemma rows_among_flat_map {A : Type} (f : A -> list text) (l : list A) :
  rows_among (flat_map f l) = flat_map (fun a => rows_among (f a)) l.
Proof.
  induction l as [| a l IH]; [reflexivity |].
  cbn [flat_map]. now rewrite rows_among_app, IH.
Qed.

Lemma view_rows (d : store) :
  NoDup (keys d) ->
  Permutation
    (rows_among (flat_map (view_block (Exporter.group d)) Tracker.CATEGORIES))
    (map (fun item => (fst item, Store.chapter (snd item))) d).
Proof.
  intros Hnd. rewrite rows_among_flat_map.
  apply perm_trans
    with (flat_map
            (fun c =>
               map (fun item : str * info =>
                      (fst item, Store.chapter (snd item)))
                 (filter
                    (fun item => str_eqb (Codec.filed_under item) c) d))
            Exporter.CATEGORIES).
  - apply flat_map_perm_in. intros c Hc.
    rewrite rows_among_view_block.
    rewrite ExporterFacts.lookup_group by assumption.
    apply Permutation_map. apply ExporterFacts.sorted_perm.
  - rewrite flat_map_map_out. apply Permutation_map.
    apply CodecFacts.files_perm; [apply CodecFacts.categories_nodup |].
    intros x _. apply ExporterFacts.filed_under_listed.
Qed.

Lemma view_says (w : world) :
  data w <> [] ->
  said (trace (final (view_all_series w)))
  = said (trace w)
    ++ StatusHeader
       :: flat_map (view_block (Exporter.group (data w))) Tracker.CATEGORIES
    ++ [StatusFooter].
Proof.
  intros Hne. unfold view_all_series.
  destruct (data w) as [| x d] eqn:E; [contradiction |].
  cbn [is_nil]. run. unfold say_all.
  match goal with |- context [fold_left ?f ?ts ?W] =>
    destruct (say_all_world ts W) as (_ & _ & _ & Ht & _) end.
  cbn [final emit data stdin disk fate trace] in *. rewrite Ht.
  rewrite !said_app, said_says. cbn [said flat_map app].
  now rewrite <- !app_assoc.
Qed.

(** ** The selection by number *)

Lemma candidates_In (m : list str) (i k : nat) (name : str) :
  In (Candidate k name) (candidates i m) ->
  exists j, k = (i + j + 1)%nat /\ nth_error m j = Some name.
Proof.
  revert i. induction m as [| x m IH]; intros i H; cbn in H; [destruct H |].
  destruct H as [H | H].
  - injection H as <- <-. exists 0%nat. split; [lia | reflexivity].
  - destruct (IH _ H) as (j & -> & Hj). exists (S j). split; [lia | exact Hj].
Qed.

Lemma selection_by_number (m : list str) (k : nat) (name line : str)
  (rest : list str) (w : world) :
  In (Candidate k name) (candidates 0 m) ->
  strip line = str_of_N (N.of_nat k) ->
  (List.length (str_of_N (N.of_nat k)) <= PyInt.max_str_digits)%nat ->
  selection_loop m (line :: rest) w
  = Returned (Some name)
      {| data := data w; stdin := rest; disk := disk w; fate := fate w;
         trace := trace w ++ [Ask AskSelection] |}.
Proof.
  intros Hin Hline Hlen. apply candidates_In in Hin.
  destruct Hin as (j & -> & Hj). cbn [selection_loop]. rewrite Hline.
  rewrite int_of_numeral by exact Hlen.
  assert (Hne : is_nil (str_of_N (N.of_nat (0 + j + 1))) = false).
  { pose proof (int_of_numeral (N.of_nat (0 + j + 1)) Hlen) as F.
    destruct (str_of_N (N.of_nat (0 + j + 1))); [discriminate F |].
    reflexivity. }
  rewrite Hne.
  assert (Hj' : (j < List.length m)%nat)
    by (apply nth_error_Some; congruence).
  assert (Hb : ((0 <=? Z.of_N (N.of_nat (0 + j + 1)) - 1)%Z
                && (Z.of_N (N.of_nat (0 + j + 1)) - 1
                    <? Z.of_nat (List.length m))%Z) = true).
  { apply andb_true_intro. split; [apply Z.leb_le | apply Z.ltb_lt]; lia. }
  rewrite Hb. unfold ret. do 2 f_equal.
  replace (Z.to_nat (Z.of_N (N.of_nat (0 + j + 1)) - 1)) with j by lia.
  now apply nth_error_nth.
Qed.

(** ** The properties *)



(** X16. In the selection of [handle_find_series], the number printed
    beside a name selects that name: when the line, white space at its
    ends apart, is the decimal numeral of the number and has no more
    digits than [int] accepts, the loop ends at once with the name. *)
Theorem number_shown_selects (m : list str) (k : nat) (name line : str)
  (rest : list str) (w : world) :
  In (Candidate k name) (candidates 0 m) ->
  strip line = str_of_N (N.of_nat k) ->
  (List.length (str_of_N (N.of_nat k)) <= PyInt.max_str_digits)%nat ->
  selection_loop m (line :: rest) w
  = Returned (Some name)
      {| data := data w; stdin := rest; disk := disk w; fate := fate w;
         trace := trace w ++ [Ask AskSelection] |}.
Proof. exact (selection_by_number m k name line rest w). Qed.

Lemma number_shown_selects_witness :
  selection_loop [txt "Alpha"; txt "Beta"] [txt " 2 "; txt "n"]
    {| data := []; stdin := [txt " 2 "; txt "n"]; disk := Absent;
       fate := fun _ => Written; trace := [] |}
  = Returned (Some (txt "Beta"))
      {| data := []; stdin := [txt "n"]; disk := Absent;
         fate := fun _ => Written; trace := [] ++ [Ask AskSelection] |}.
Proof.
  apply (number_shown_selects [txt "Alpha"; txt "Beta"] 2 (txt "Beta")
           (txt " 2 ") [txt "n"]
           {| data := []; stdin := [txt " 2 "; txt "n"]; disk := Absent;
              fate := fun _ => Written; trace := [] |}).
  - cbn. right. left. reflexivity.
  - vm_compute. reflexivity.
  - vm_compute. lia.
Defined.


(** X18. When every attempt to write the data file completes, no
    accepted change is lost: however a session ends, also by the end of
    the input, the data file holds the dictionary, unless the dictionary
    is the one loaded and the file is as it was found. *)
Theorem session_saves_each_change (lines : list str) (f : file)
  (fs : nat -> outcome) :
  all_written fs ->
  (data (final (main_menu lines f fs)) = loaded f
   /\ disk (final (main_menu lines f fs)) = f)
  \/ disk (final (main_menu lines f fs))
     = Holds (data (final (main_menu lines f fs))).
Proof. exact (in_step_session lines f fs). Qed.

Lemma session_saves_each_change_witness :
  let lines := [txt "1"; txt " Foo "; txt "Manga"; txt "3"] in
  let fs := fun _ : nat => Written in
  (data (final (main_menu lines Absent fs)) = loaded Absent
   /\ disk (final (main_menu lines Absent fs)) = Absent)
  \/ disk (final (main_menu lines Absent fs))
     = Holds (data (final (main_menu lines Absent fs))).
Proof.
  intros lines fs.
  apply (session_saves_each_change lines Absent fs).
  intros n. reflexivity.
Defined.

(** A write that fails does lose the change: the record is in the
    dictionary, the error is printed, and the file is still absent when
    the input ends. *)
Example refused_write_loses_change :
  let w' :=
    final
      (main_menu [txt "1"; txt " Foo "; txt "Manga"; txt "3"] Absent
         (fun _ => Refused)) in
  keys (data w') = [txt "Foo"]
  /\ disk w' = Absent
  /\ In (Say ErrSaving) (trace w').
Proof. vm_compute. repeat split. auto 20. Qed.

(** X19. A session removes and renames nothing and changes no category:
    the names loaded stay keys, in their order and before the names
    added, and each record keeps its category; a record whose category
    is missing or none of the categories stays as it was loaded. *)
Theorem session_keeps_records (lines : list str) (f : file)
  (fs : nat -> outcome) :
  (exists added,
     keys (data (final (main_menu lines f fs))) = keys (loaded f) ++ added)
  /\ forall name i,
       dict_get name (loaded f) = Some i ->
       exists i',
         dict_get name (data (final (main_menu lines f fs))) = Some i'
         /\ Store.category i' = Store.category i
         /\ (~ listed i -> i' = i).
Proof. exact (records_kept_session lines f fs). Qed.

(** X20. A record of the dictionary at the end of a session is a loaded
    record as it was, or it has one of the categories and a chapter that
    is not below zero. *)
Theorem session_writes_valid_records (lines : list str) (f : file)
  (fs : nat -> outcome) (name : str) (i : info) :
  dict_get name (data (final (main_menu lines f fs))) = Some i ->
  dict_get name (loaded f) = Some i
  \/ (listed i
      /\ exists c,
           Store.chapter i = Some c /\ float_ltb c float_zero = false).
Proof. exact (records_valid_session lines f fs name i). Qed.

Lemma session_writes_valid_records_witness :
  dict_get (txt "Foo") (loaded Absent)
  = Some (entry (S754_finite false 6755399441055744 (-51)) (txt "Manga"))
  \/ (listed (entry (S754_finite false 6755399441055744 (-51)) (txt "Manga"))
      /\ exists c,
           Store.chapter
             (entry (S754_finite false 6755399441055744 (-51)) (txt "Manga"))
           = Some c
           /\ float_ltb c float_zero = false).
Proof.
  apply (session_writes_valid_records
           [txt "1"; txt " Foo "; txt "Manga"; txt "3"; txt "4"] Absent
           (fun _ => Written) (txt "Foo")
           (entry (S754_finite false 6755399441055744 (-51)) (txt "Manga"))).
  vm_compute. reflexivity.
Defined.

(** X21. [view_all_series] shows every record once: for a dictionary that
    is not empty it prints the header, the banners and rows, and the
    footer, and the rows are a rearrangement of the names of the
    dictionary with their chapters. *)
Theorem view_shows_each_record_once (w : world) :
  NoDup (keys (data w)) ->
  data w <> [] ->
  exists body,
    said (trace (final (view_all_series w)))
    = said (trace w) ++ StatusHeader :: body ++ [StatusFooter]
    /\ Permutation (rows_among body)
         (map (fun item => (fst item, Store.chapter (snd item))) (data w)).
Proof.
  intros Hnd Hne.
  exists (flat_map (view_block (Exporter.group (data w))) Tracker.CATEGORIES).
  split; [now apply view_says | now apply view_rows].
Qed.

Lemma view_shows_each_record_once_witness :
  exists body,
    said
      (trace
         (final
            (view_all_series
               {| data := [(txt "Zed", entry float_zero (txt "Other"));
                           (txt "Abe", {| chapter := None;
                                          category := Some (txt "Novel") |})];
                  stdin := []; disk := Absent; fate := fun _ => Written;
                  trace := [] |})))
    = said [] ++ StatusHeader :: body ++ [StatusFooter]
    /\ Permutation (rows_among body)
         (map (fun item => (fst item, Store.chapter (snd item)))
            [(txt "Zed", entry float_zero (txt "Other"));
             (txt "Abe", {| chapter := None;
                            category := Some (txt "Novel") |})]).
Proof.
  apply (view_shows_each_record_once
           {| data := [(txt "Zed", entry float_zero (txt "Other"));
                       (txt "Abe", {| chapter := None;
                                      category := Some (txt "Novel") |})];
              stdin := []; disk := Absent; fate := fun _ => Written;
              trace := [] |}).
  - cbn. repeat (apply NoDup_cons; [cbn; intros H;
      repeat (destruct H as [H | H]; [discriminate H |]); exact H |]).
    apply NoDup_nil.
  - discriminate.
Defined.

End ShellFacts.

(* ================================================================== *)
(** * The shell of the tracker with the quick-update menu *)
(* ================================================================== *)

Module QuickShellFacts.

Import Shell QuickShell ShellFacts.

Lemma flat_view_effect (w : world) :
  exists w',
    QuickShell.view_all_series w = Returned tt w' /\ data w' = data w
    /\ stdin w' = stdin w /\ unwritten w w'.
Proof.
  unfold QuickShell.view_all_series, unwritten. destruct (is_nil (data w)).
  - eexists. split; [reflexivity |]. cbn. auto.
  - unfold bind, say, say_all. eexists. split; [reflexivity |].
    cbn [emit data stdin disk fate].
    match goal with
    | |- context [fold_left _ ?ts ?w0] =>
        destruct (say_all_world ts w0) as (Hd & Hs & Hf & _ & Hq)
    end.
    cbn in Hd, Hs, Hf, Hq. auto.
Qed.

Ltac with_flat_view :=
  match goal with
  | |- context [QuickShell.view_all_series ?W] =>
      let w' := fresh "w'" in
      let E := fresh "E" in
      let Hd := fresh "Hd" in
      let Hs := fresh "Hs" in
      let Hf := fresh "Hf" in
      let Hq := fresh "Hq" in
      destruct (flat_view_effect W) as (w' & E & Hd & Hs & Hf & Hq);
      rewrite E; cbn [emit data stdin disk fate trace] in Hd, Hs, Hf, Hq
  end.

(** ** [handle_add_series] *)

Lemma quick_add_cases (w : world) :
  match handle_add_series w with
  | Returned true w' =>
      exists name category c,
        assignable w name category c (stdin w')
        /\ data w' = dict_set name (entry c category) (data w)
        /\ saved_once w w'
  | Returned false w' =>
      data w' = data w /\ unwritten w w'
      /\ (List.length (stdin w') < List.length (stdin w))%nat
      /\ ~ (exists name category c rest, assignable w name category c rest)
  | Raised e w' =>
      e = EOFError /\ stdin w' = [] /\ data w' = data w /\ unwritten w w'
      /\ ~ (exists name category c rest, assignable w name category c rest)
  | Exited _ => False
  end.
Proof.
  unfold handle_add_series, assignable, unwritten, saved_once. run.
  destruct (stdin w) as [| category_line rest1] eqn:E1.
  { repeat split; auto. intros (? & ? & ? & ? & ? & ? & ? & F & _).
    discriminate F. }
  destruct rest1 as [| name_line rest2]; run.
  { repeat split; auto. intros (? & ? & ? & ? & ? & ? & ? & F & _).
    discriminate F. }
  destruct (is_nil (strip name_line)) eqn:Hn; run.
  { cbn. repeat split; auto with arith.
    intros (? & ? & ? & ? & l1 & l2 & l3 & F & _ & _ & Hs & Hne & _).
    injection F as _ -> _. subst. destruct (strip l2); [congruence |].
    discriminate Hn. }
  destruct rest2 as [| chapter_line rest3]; run.
  { repeat split; auto. intros (? & ? & ? & ? & ? & ? & ? & F & _).
    discriminate F. }
  with_update.
  destruct Hu as [(-> & Hd & (Hf & Hq) & Hno)
                 | (-> & Hc & c & Hch & Hz & Hd & Hf & Hq)].
  - rewrite Hd, Hf, Hq, Hs. cbn. repeat split; auto with arith.
    intros (? & ? & c & ? & l1 & l2 & l3 & F & Hcs & Hci & Hns & _ & Hfl
            & Hz).
    injection F as -> -> -> _. subst. apply Hno. split; [exact Hci |].
    now exists c.
  - with_flat_view. exists (strip name_line), (strip category_line), c.
    rewrite Hs0, Hs, Hd0, Hf0, Hq0, Hf, Hd, Hq. split.
    + exists category_line, name_line, chapter_line.
      repeat split; auto. intros F. now rewrite F in Hn.
    + repeat split.
Qed.


(** ** [handle_update_chapter] *)

Lemma quick_update_cases (w : world) :
  match handle_update_chapter w with
  | Returned true w' =>
      exists name category c,
        updatable w name category c (stdin w')
        /\ data w' = dict_set name (entry c category) (data w)
        /\ saved_once w w'
  | Returned false w' =>
      data w' = data w /\ unwritten w w'
      /\ (List.length (stdin w') < List.length (stdin w))%nat
      /\ ~ (exists name category c rest, updatable w name category c rest)
  | Raised EOFError w' =>
      stdin w' = [] /\ data w' = data w /\ unwritten w w'
      /\ ~ (exists name category c rest, updatable w name category c rest)
  | Raised KeyError w' =>
      data w' = data w /\ unwritten w w'
      /\ (exists name_line rest i,
            stdin w = name_line :: rest
            /\ dict_get (strip name_line) (data w) = Some i
            /\ ~ complete i)
      /\ ~ (exists name category c rest, updatable w name category c rest)
  | Exited _ => False
  end.
Proof.
  unfold handle_update_chapter, updatable, unwritten, saved_once. run.
  destruct (stdin w) as [| name_line rest1] eqn:E1; run.
  { repeat split; auto. intros (? & ? & ? & ? & ? & ? & ? & F & _).
    discriminate F. }
  destruct (dict_get (strip name_line) (data w)) as [old |] eqn:Hg; run.
  2: { cbn. repeat split; auto with arith.
       intros (? & ? & ? & ? & l1 & l2 & o & F & Hs & Hk & _).
       injection F as -> _. subst. congruence. }
  destruct (Store.category old) as [cat |] eqn:Hcat.
  2: { cbn. split; [reflexivity |]. split; [split; reflexivity |]. split.
       - exists name_line, rest1, old. split; [reflexivity |].
         split; [exact Hg |]. unfold complete. intros [_ F]. now apply F.
       - intros (? & ? & ? & ? & l1 & l2 & o & F & Hs & Hk & _ & Hoc & _).
         injection F as -> _. subst. congruence. }
  destruct (Store.chapter old) as [current |] eqn:Hcur.
  2: { cbn. split; [reflexivity |]. split; [split; reflexivity |]. split.
       - exists name_line, rest1, old. split; [reflexivity |].
         split; [exact Hg |]. unfold complete. intros [F _]. now apply F.
       - intros (? & ? & ? & ? & l1 & l2 & o & F & Hs & Hk & [Hoc _] & _).
         injection F as -> _. subst. congruence. }
  run. destruct rest1 as [| chapter_line rest2]; run.
  { repeat split; auto. intros (? & ? & ? & ? & ? & ? & ? & F & _).
    discriminate F. }
  with_update.
  destruct Hu as [(-> & Hd & (Hf & Hq) & Hno)
                 | (-> & Hc & c & Hch & Hz & Hd & Hf & Hq)].
  - rewrite Hd, Hf, Hq, Hs. cbn. repeat split; auto with arith.
    intros (? & cat' & c & ? & l1 & l2 & o & F & Hns & Hk & _ & Hoc & Hci
            & Hfl & Hz).
    injection F as -> -> _. subst. apply Hno.
    assert (o = old) by congruence. subst o.
    assert (cat' = cat) by congruence. subst cat'.
    split; [exact Hci |]. now exists c.
  - with_flat_view. exists (strip name_line), cat, c.
    rewrite Hs0, Hs, Hd0, Hf0, Hq0, Hf, Hd, Hq. split.
    + exists name_line, chapter_line, old.
      repeat split; auto; congruence.
    + repeat split.
Qed.


Lemma quick_update_raises (w : world) :
  (exists w', handle_update_chapter w = Raised KeyError w')
  <-> exists name_line rest i,
        stdin w = name_line :: rest
        /\ dict_get (strip name_line) (data w) = Some i
        /\ ~ complete i.
Proof.
  split.
  - intros [w' E]. pose proof (quick_update_cases w) as H. rewrite E in H.
    tauto.
  - intros (name_line & rest & i & E & Hg & Hi).
    unfold handle_update_chapter. run. rewrite E. run. rewrite Hg.
    destruct (Store.category i) as [cat |] eqn:Hcat; [| eexists; reflexivity].
    destruct (Store.chapter i) as [cur |] eqn:Hcur; [| eexists; reflexivity].
    exfalso. apply Hi. split; congruence.
Qed.


(** ** A session *)

Section QuickSession.

Variable R : world -> world -> Prop.

Hypothesis R_quiet :
  forall w w', data w' = data w -> unwritten w w' -> R w w'.

Hypothesis R_trans : forall a b c, R a b -> R b c -> R a c.

Hypothesis R_set :
  forall w w' name c cat,
    In cat Tracker.CATEGORIES ->
    float_ltb c float_zero = false ->
    data w' = dict_set name (entry c cat) (data w) ->
    saved_once w w' ->
    R w w'.

Hypothesis R_save :
  forall w w', data w' = data w -> saved_once w w' -> R w w'.

Lemma R_calm (w w' : world) :
  data w' = data w -> disk w' = disk w -> fate w' = fate w -> R w w'.
Proof. intros Hd Hf Hq. apply R_quiet; [exact Hd | now split]. Qed.

Local Hint Resolve R_calm : core.

Lemma quick_add_R (w : world) :
  match handle_add_series w with
  | Returned _ w' =>
      (List.length (stdin w') < List.length (stdin w))%nat /\ R w w'
  | Raised e w' => e = EOFError /\ stdin w' = [] /\ R w w'
  | Exited _ => False
  end.
Proof.
  pose proof (quick_add_cases w) as H.
  destruct (handle_add_series w) as [[|] w' | e w' | w'].
  - destruct H as (name & cat & c & (l1 & l2 & l3 & E & _ & Hc & _ & _ & _
                                     & Hz) & Hd & Hf).
    split; [rewrite E; cbn; lia |]. eapply R_set; eauto.
  - destruct H as (Hd & Hf & Hl & _). auto.
  - destruct H as (He & Hs & Hd & Hf & _). auto.
  - exact H.
Qed.

Lemma quick_update_R (w : world) :
  match handle_update_chapter w with
  | Returned _ w' =>
      (List.length (stdin w') < List.length (stdin w))%nat /\ R w w'
  | Raised e w' =>
      R w w'
      /\ ((e = EOFError /\ stdin w' = [])
          \/ (e = KeyError
              /\ exists name i,
                   dict_get name (data w') = Some i /\ ~ complete i))
  | Exited _ => False
  end.
Proof.
  pose proof (quick_update_cases w) as H.
  destruct (handle_update_chapter w) as [[|] w' | [|] w' | w'].
  - destruct H as (name & cat & c & (l1 & l2 & old & E & _ & _ & _ & _ & Hc
                                     & _ & Hz) & Hd & Hf).
    split; [rewrite E; cbn; lia |]. eapply R_set; eauto.
  - destruct H as (Hd & Hf & Hl & _). auto.
  - destruct H as (Hs & Hd & Hf & _). auto.
  - destruct H as (Hd & Hf & (l & rest & i & _ & Hg & Hi) & _).
    split; [auto |]. right. split; [reflexivity |].
    exists (strip l), i. rewrite Hd. auto.
  - exact H.
Qed.

Lemma quick_find_R (w : world) :
  match handle_find_series w with
  | Returned _ w' =>
      (List.length (stdin w') < List.length (stdin w))%nat /\ R w w'
  | Raised e w' => e = EOFError /\ stdin w' = [] /\ R w w'
  | Exited _ => False
  end.
Proof.
  destruct (find_cases w) as [H1 H2].
  assert (HR : R w (final (handle_find_series w))).
  { destruct H2 as [[Hd Hf] | (l & rest & name & old & cat & c & _ & _ & Hg
                                 & Ho & Hc & Hz & Hd & Hf)];
      [now apply R_quiet | eapply R_set; eauto]. }
  destruct (handle_find_series w) as [v w' | e w' | w']; cbn [final] in HR;
    tauto.
Qed.

Lemma quick_menu_loop_spec (turns : nat) (w : world) :
  (List.length (stdin w) < turns)%nat ->
  match QuickShell.menu_loop turns w with
  | Returned _ _ => False
  | Raised e w' =>
      R w w'
      /\ ((e = EOFError /\ stdin w' = [])
          \/ (e = KeyError
              /\ exists name i,
                   dict_get name (data w') = Some i /\ ~ complete i))
  | Exited w' =>
      (exists w0, R w w0 /\ w' = write (data w0) w0) /\ R w w'
  end.
Proof.
  revert w. induction turns as [| turns IH]; intros w Hlt; [lia |].
  cbn [QuickShell.menu_loop]. run.
  destruct (stdin w) as [| line rest] eqn:E; [auto |].
  cbn [List.length] in Hlt.
  match goal with
  | |- context [{| data := data w; stdin := rest; disk := disk w;
                   fate := fate w; trace := ?t |}] =>
      set (W := {| data := data w; stdin := rest; disk := disk w;
                   fate := fate w; trace := t |})
  end.
  assert (HW : R w W) by (apply R_calm; reflexivity).
  assert (Hgo : forall w1,
             (List.length (stdin w1) <= List.length rest)%nat -> R W w1 ->
             match QuickShell.menu_loop turns w1 with
             | Returned _ _ => False
             | Raised e w' =>
                 R w w'
                 /\ ((e = EOFError /\ stdin w' = [])
                     \/ (e = KeyError
                         /\ exists name i,
                              dict_get name (data w') = Some i
                              /\ ~ complete i))
             | Exited w' =>
                 (exists w0, R w w0 /\ w' = write (data w0) w0) /\ R w w'
             end).
  { intros w1 Hl HR. specialize (IH w1 ltac:(lia)).
    destruct (QuickShell.menu_loop turns w1) as [v w' | e w' | w'];
      [exact IH | |].
    - destruct IH as (? & ?). eauto.
    - destruct IH as ((w0 & ? & ?) & ?). split; [exists w0 |]; eauto. }
  destruct (str_eqb (strip line) (txt "1")).
  { pose proof (quick_add_R W) as H.
    destruct (handle_add_series W) as [v w1 | e w1 | w1].
    - destruct H as [Hl HR]. apply Hgo; [cbn in Hl; lia | exact HR].
    - destruct H as (? & ? & ?). eauto.
    - destruct H. }
  destruct (str_eqb (strip line) (txt "2")).
  { pose proof (quick_update_R W) as H.
    destruct (handle_update_chapter W) as [v w1 | e w1 | w1].
    - destruct H as [Hl HR]. apply Hgo; [cbn in Hl; lia | exact HR].
    - destruct H as (? & ?). eauto.
    - destruct H. }
  destruct (str_eqb (strip line) (txt "3")).
  { destruct (flat_view_effect W) as (w1 & E1 & Hd & Hs & Hf). rewrite E1.
    apply Hgo; [rewrite Hs; cbn; lia | now apply R_quiet]. }
  destruct (str_eqb (strip line) (txt "4")).
  { pose proof (quick_find_R W) as H.
    destruct (handle_find_series W) as [v w1 | e w1 | w1].
    - destruct H as [Hl HR]. apply Hgo; [cbn in Hl; lia | exact HR].
    - destruct H as (? & ? & ?). eauto.
    - destruct H. }
  destruct (str_eqb (strip line) (txt "5")).
  { unfold save_series_data, exit. cbn [emit data stdin disk fate trace].
    assert (H0 : R w (emit (Say Exiting) W)).
    { apply R_trans with W; [exact HW |]. apply R_calm; reflexivity. }
    split.
    - exists (emit (Say Exiting) W). split; [exact H0 | reflexivity].
    - apply R_trans with (emit (Say Exiting) W); [exact H0 |].
      apply R_save; [| split]; reflexivity. }
  apply Hgo; [cbn; lia |]. apply R_calm; reflexivity.
Qed.

Lemma quick_main_menu_spec (lines : list str) (f : file)
  (fs : nat -> outcome) :
  let w0 :=
    {| data := loaded f; stdin := lines; disk := f; fate := fs;
       trace := [] |} in
  match QuickShell.main_menu lines f fs with
  | Returned _ _ => False
  | Raised e w' =>
      R w0 w'
      /\ ((e = EOFError /\ stdin w' = [])
          \/ (e = KeyError
              /\ exists name i,
                   dict_get name (data w') = Some i /\ ~ complete i))
  | Exited w' =>
      (exists w1, R w0 w1 /\ w' = write (data w1) w1) /\ R w0 w'
  end.
Proof.
  intros w0.
  assert (E : exists tr,
             QuickShell.main_menu lines f fs
             = QuickShell.menu_loop (S (List.length lines))
                 {| data := loaded f; stdin := lines; disk := f;
                    fate := fs; trace := tr |}).
  { unfold QuickShell.main_menu, load_series_data. run.
    destruct f; cbn; eexists; reflexivity. }
  destruct E as [tr E]. rewrite E.
  match goal with |- context [QuickShell.menu_loop ?n ?W] =>
    pose proof (quick_menu_loop_spec n W ltac:(cbn; lia)) as H;
    assert (H0 : R w0 W) by (apply R_calm; reflexivity);
    destruct (QuickShell.menu_loop n W) as [v w' | e w' | w'] end.
  - exact H.
  - destruct H as (? & ?). eauto.
  - destruct H as ((w1 & ? & ?) & ?). split; [exists w1 |]; eauto.
Qed.

End QuickSession.


Lemma dict_get_set_cases {V : Type} (k name : str) (v i : V) (d : dict V) :
  dict_get k (dict_set name v d) = Some i ->
  (k = name /\ i = v) \/ dict_get k d = Some i.
Proof.
  intros H. destruct (list_eq_dec ascii_dec name k) as [-> | Hne].
  - rewrite dict_get_set_same in H. injection H as <-. now left.
  - rewrite dict_get_set_other in H by exact Hne. now right.
Qed.

Lemma keys_set_grow {V : Type} (k : str) (v : V) (d : dict V) :
  exists added, keys (dict_set k v d) = keys d ++ added.
Proof.
  rewrite TrackerMore.keys_dict_set. unfold Notions.seen.
  destruct (str_in k (keys d)); [exists [] | exists [k]];
    [now rewrite app_nil_r | reflexivity].
Qed.


Lemma quick_session_complete (lines : list str) (f : file)
  (fs : nat -> outcome) :
  (forall name i, dict_get name (loaded f) = Some i -> complete i) ->
  (forall name i,
     dict_get name (data (final (QuickShell.main_menu lines f fs)))
     = Some i ->
     complete i)
  /\ forall w', QuickShell.main_menu lines f fs <> Raised KeyError w'.
Proof.
  intros Hall.
  pose proof
    (quick_main_menu_spec
       (fun w w' =>
          (forall name i, dict_get name (data w) = Some i -> complete i) ->
          forall name i, dict_get name (data w') = Some i -> complete i))
    as H.
  cbv beta in H.
  specialize (H ltac:(intros w w' Hd _ Hw; now rewrite Hd)).
  specialize (H ltac:(intros a b c H1 H2 Ha; exact (H2 (H1 Ha)))).
  specialize
    (H ltac:(intros w w' name c cat _ _ Hd _ Hw k i Hi; rewrite Hd in Hi;
             apply dict_get_set_cases in Hi;
             destruct Hi as [[_ ->] | Hi];
             [split; discriminate | now apply Hw with k])).
  specialize (H ltac:(intros w w' Hd _ Hw; now rewrite Hd)).
  specialize (H lines f fs). cbv zeta in H.
  destruct (QuickShell.main_menu lines f fs) as [v w' | e w' | w'];
    cbn [final data] in *.
  - destruct H.
  - destruct H as [HR Hc]. specialize (HR Hall). split; [exact HR |].
    intros w'' E. injection E as -> ->.
    destruct Hc as [[F _] | (_ & name & i & Hg & Hi)]; [discriminate F |].
    apply Hi. now apply HR with name.
  - destruct H as [_ HR]. split; [now apply HR | discriminate].
Qed.

Lemma quick_session_names (lines : list str) (f : file)
  (fs : nat -> outcome) :
  exists added,
    keys (data (final (QuickShell.main_menu lines f fs)))
    = keys (loaded f) ++ added.
Proof.
  pose proof
    (quick_main_menu_spec
       (fun w w' => exists added, keys (data w') = keys (data w) ++ added))
    as H.
  cbv beta in H.
  specialize
    (H ltac:(intros w w' Hd _; exists []; rewrite Hd;
             now rewrite app_nil_r)).
  specialize
    (H ltac:(intros a b c [ad1 K1] [ad2 K2];
             exists (ad1 ++ ad2); rewrite K2, K1; now rewrite app_assoc)).
  specialize
    (H ltac:(intros w w' name c cat _ _ Hd _; rewrite Hd;
             apply keys_set_grow)).
  specialize
    (H ltac:(intros w w' Hd _; exists []; rewrite Hd;
             now rewrite app_nil_r)).
  specialize (H lines f fs). cbv zeta in H.
  destruct (QuickShell.main_menu lines f fs) as [v w' | e w' | w'];
    cbn [final data disk] in *.
  - destruct H.
  - tauto.
  - tauto.
Qed.

Lemma quick_session_saved (lines : list str) (f : file)
  (fs : nat -> outcome) :
  all_written fs ->
  (data (final (QuickShell.main_menu lines f fs)) = loaded f
   /\ disk (final (QuickShell.main_menu lines f fs)) = f)
  \/ disk (final (QuickShell.main_menu lines f fs))
     = Holds (data (final (QuickShell.main_menu lines f fs))).
Proof.
  intros Hall.
  pose proof
    (quick_main_menu_spec
       (fun w w' =>
          all_written (fate w) ->
          ((data w' = data w /\ disk w' = disk w)
           \/ disk w' = Holds (data w'))
          /\ all_written (fate w'))) as H.
  cbv beta in H.
  assert (Hsave : forall w w', saved_once w w' -> all_written (fate w) ->
                    disk w' = Holds (data w') /\ all_written (fate w')).
  { intros w w' [Hf Hq] Hw. split.
    - rewrite Hf, (Hw 0%nat). reflexivity.
    - intros n. rewrite Hq. apply Hw. }
  specialize
    (H ltac:(intros w w' Hd [Hf Hq] Hw; split;
             [now left | now rewrite Hq])).
  specialize
    (H ltac:(intros a b c H1 H2 Ha;
             destruct (H1 Ha) as [G1 Hb]; destruct (H2 Hb) as [G2 Hc];
             split; [| exact Hc];
             destruct G1 as [[E1 E2] | E1]; destruct G2 as [[E3 E4] | E3];
             [left; split; congruence | now right
             | right; congruence | now right])).
  specialize
    (H ltac:(intros w w' name c cat _ _ _ Hs Hw;
             destruct (Hsave w w' Hs Hw); auto)).
  specialize
    (H ltac:(intros w w' _ Hs Hw; destruct (Hsave w w' Hs Hw); auto)).
  specialize (H lines f fs). cbv zeta in H.
  destruct (QuickShell.main_menu lines f fs) as [v w' | e w' | w'];
    cbn [final data disk fate] in *.
  - destruct H.
  - destruct H as (H & _). exact (proj1 (H Hall)).
  - destruct H as (_ & H). exact (proj1 (H Hall)).
Qed.

(** ** [view_all_series] *)

Lemma names_among_rows (d : store) :
  names_among (QuickShell.rows d)
  = map fst (sorted (fun item : str * info => fst item) d).
Proof.
  unfold QuickShell.rows.
  induction (sorted (fun item : str * info => fst item) d) as [| x l IH];
    [reflexivity |].
  cbn. f_equal. exact IH.
Qed.

Lemma sorted_keys_ascending {A : Type} (f : A -> str) (l : list A) :
  StronglySorted (not_before f) l ->
  StronglySorted (not_before (fun k : str => k)) (map f l).
Proof.
  induction 1 as [| x l Hl IH Hx]; cbn; [apply SSorted_nil |].
  apply SSorted_cons; [exact IH |].
  apply Forall_forall. intros k Hk. apply in_map_iff in Hk.
  destruct Hk as (y & <- & Hy).
  exact (proj1 (Forall_forall _ _) Hx y Hy).
Qed.

Lemma flat_view_says (w : world) :
  data w <> [] ->
  said (trace (final (QuickShell.view_all_series w)))
  = said (trace w) ++ FlatHeader :: QuickShell.rows (data w) ++ [FlatFooter].
Proof.
  intros Hne. unfold QuickShell.view_all_series.
  destruct (data w) as [| x d] eqn:E; [contradiction |].
  cbn [is_nil]. run. unfold say_all.
  match goal with |- context [fold_left ?f ?ts ?W] =>
    destruct (say_all_world ts W) as (_ & _ & _ & Ht & _) end.
  cbn [final emit data stdin disk fate trace] in *. rewrite Ht.
  rewrite !said_app, said_says. cbn [said flat_map app].
  now rewrite <- !app_assoc.
Qed.


(** ** The properties *)


(** X23. [handle_update_chapter] raises [KeyError] exactly when the name
    read is a key whose record lacks the chapter or the category. *)
Theorem quick_update_key_error (w : world) :
  (exists w', handle_update_chapter w = Raised KeyError w')
  <-> exists name_line rest i,
        stdin w = name_line :: rest
        /\ dict_get (strip name_line) (data w) = Some i
        /\ ~ complete i.
Proof. exact (quick_update_raises w). Qed.



(** X26. When every loaded record has a chapter and a category, so has
    every record at the end of a session of the quick-update tracker,
    and the session raises no [KeyError]. *)
Theorem quick_session_no_key_error (lines : list str) (f : file)
  (fs : nat -> outcome) :
  (forall name i, dict_get name (loaded f) = Some i -> complete i) ->
  (forall name i,
     dict_get name (data (final (QuickShell.main_menu lines f fs)))
     = Some i ->
     complete i)
  /\ forall w', QuickShell.main_menu lines f fs <> Raised KeyError w'.
Proof. exact (quick_session_complete lines f fs). Qed.

Lemma quick_session_no_key_error_witness :
  (forall name i,
     dict_get name
       (data
          (final
             (QuickShell.main_menu [txt "2"; txt "Foo"; txt "7"; txt "5"]
                (Holds [(txt "Foo", entry float_zero (txt "Manga"))])
                (fun _ => Written))))
     = Some i ->
     complete i)
  /\ forall w',
       QuickShell.main_menu [txt "2"; txt "Foo"; txt "7"; txt "5"]
         (Holds [(txt "Foo", entry float_zero (txt "Manga"))])
         (fun _ => Written)
       <> Raised KeyError w'.
Proof.
  apply (quick_session_no_key_error
           [txt "2"; txt "Foo"; txt "7"; txt "5"]
           (Holds [(txt "Foo", entry float_zero (txt "Manga"))])
           (fun _ => Written)).
  intros name i H. cbn [loaded dict_get] in H.
  destruct (str_eqb (txt "Foo") name); [| discriminate H].
  injection H as <-. split; discriminate.
Defined.

(** X27. A session of the quick-update tracker removes and renames
    nothing: the names loaded stay keys, in their order and before the
    names added.  When every attempt to write the data file completes,
    no accepted change is lost: however the session ends, the file holds
    the dictionary, unless the dictionary is the one loaded and the file
    is as it was found. *)
Theorem quick_session_keeps_names_and_saves (lines : list str) (f : file)
  (fs : nat -> outcome) :
  (exists added,
     keys (data (final (QuickShell.main_menu lines f fs)))
     = keys (loaded f) ++ added)
  /\ (all_written fs ->
      (data (final (QuickShell.main_menu lines f fs)) = loaded f
       /\ disk (final (QuickShell.main_menu lines f fs)) = f)
      \/ disk (final (QuickShell.main_menu lines f fs))
         = Holds (data (final (QuickShell.main_menu lines f fs)))).
Proof.
  split; [exact (quick_session_names lines f fs) |].
  exact (quick_session_saved lines f fs).
Qed.

Lemma quick_session_keeps_names_and_saves_witness :
  let lines := [txt "2"; txt "Foo"; txt "7"] in
  let f := Holds [(txt "Foo", entry float_zero (txt "Manga"))] in
  let fs := fun _ : nat => Written in
  (exists added,
     keys (data (final (QuickShell.main_menu lines f fs)))
     = keys (loaded f) ++ added)
  /\ ((data (final (QuickShell.main_menu lines f fs)) = loaded f
       /\ disk (final (QuickShell.main_menu lines f fs)) = f)
      \/ disk (final (QuickShell.main_menu lines f fs))
         = Holds (data (final (QuickShell.main_menu lines f fs)))).
Proof.
  intros lines f fs.
  destruct (quick_session_keeps_names_and_saves lines f fs) as [H1 H2].
  split; [exact H1 |]. apply H2. intros n. reflexivity.
Defined.

(** X28. [view_all_series] of the quick-update tracker prints, for a
    dictionary that is not empty, the header, one row for each record
    and the footer; the names of the rows are the keys, rearranged so
    that no name is followed by a smaller one. *)
Theorem flat_view_sorted (w : world) :
  data w <> [] ->
  exists body,
    said (trace (final (QuickShell.view_all_series w)))
    = said (trace w) ++ FlatHeader :: body ++ [FlatFooter]
    /\ List.length body = List.length (data w)
    /\ Permutation (names_among body) (keys (data w))
    /\ StronglySorted (not_before (fun k : str => k)) (names_among body).
Proof.
  intros Hne. exists (QuickShell.rows (data w)).
  split; [now apply flat_view_says |].
  split.
  { unfold QuickShell.rows. rewrite length_map.
    apply Permutation_length. apply ExporterFacts.sorted_perm. }
  rewrite names_among_rows. split.
  - apply Permutation_map. apply ExporterFacts.sorted_perm.
  - apply sorted_keys_ascending. apply ExporterFacts.sorted_ascending.
Qed.

Lemma flat_view_sorted_witness :
  exists body,
    said
      (trace
         (final
            (QuickShell.view_all_series
               {| data := [(txt "Zed", entry float_zero (txt "Other"));
                           (txt "Abe", {| chapter := None;
                                          category := None |})];
                  stdin := []; disk := Absent; fate := fun _ => Written;
                  trace := [] |})))
    = said [] ++ FlatHeader :: body ++ [FlatFooter]
    /\ List.length body = 2%nat
    /\ Permutation (names_among body) [txt "Zed"; txt "Abe"]
    /\ StronglySorted (not_before (fun k : str => k)) (names_among body).
Proof.
  apply (flat_view_sorted
           {| data := [(txt "Zed", entry float_zero (txt "Other"));
                       (txt "Abe", {| chapter := None;
                                      category := None |})];
              stdin := []; disk := Absent; fate := fun _ => Written;
              trace := [] |}).
  discriminate.
Defined.

End QuickShellFacts.

(* ================================================================== *)
(** * The oldest tracker *)
(* ================================================================== *)

Module IntTrackerFacts.

Import IntTracker.

Lemma int_say_all_world (ts : list text) (w : world) :
  let w' := fold_left (fun w t => emit (Say t) w) ts w in
  data w' = data w /\ stdin w' = stdin w /\ disk w' = disk w
  /\ fate w' = fate w.
Proof.
  revert w. induction ts as [| t ts IH]; intros w; cbn; [auto |].
  destruct (IH (emit (Say t) w)) as (Hd & Hs & Hf & Hq). cbn in *. auto.
Qed.

Lemma int_view_effect (w : world) :
  exists w',
    view_all_series w = Returned tt w' /\ data w' = data w
    /\ stdin w' = stdin w /\ disk w' = disk w /\ fate w' = fate w.
Proof.
  unfold view_all_series. destruct (is_nil (data w)).
  - eexists. split; [reflexivity |]. cbn. auto.
  - unfold bind, say, say_all. eexists. split; [reflexivity |].
    cbn [emit data stdin disk fate].
    match goal with
    | |- context [fold_left _ ?ts ?w0] =>
        destruct (int_say_all_world ts w0) as (Hd & Hs & Hf & Hq)
    end.
    cbn in Hd, Hs, Hf, Hq. auto.
Qed.

(** A call of the update engine from the shell: it reads no line and
    leaves the file as it is; when it returns [True] the record is
    assigned with a chapter that is an [int] not below zero. *)
Lemma int_update_effect (series_name chapter_number category : str)
  (w : world) :
  exists b w',
    update series_name chapter_number category w = Returned b w'
    /\ stdin w' = stdin w /\ (disk w' = disk w /\ fate w' = fate w)
    /\ ((b = false /\ data w' = data w)
        \/ (b = true /\ In category CATEGORIES
            /\ exists n,
                PyInt.int_of_str chapter_number = Some n
                /\ (0 <= n)%Z
                /\ data w'
                   = dict_set series_name (entry n category) (data w))).
Proof.
  unfold update, update_series_chapter.
  destruct (str_in category CATEGORIES) eqn:Hc; cbn [negb].
  2: { eexists _, _. split; [reflexivity |]. cbn. auto. }
  destruct (PyInt.int_of_str chapter_number) as [n |] eqn:Hn.
  2: { eexists _, _. split; [reflexivity |]. cbn. auto. }
  destruct (n <? 0)%Z eqn:Hz.
  { eexists _, _. split; [reflexivity |]. cbn. auto. }
  eexists _, _. split; [reflexivity |]. cbn [fst snd data stdin disk fate].
  split; [reflexivity |]. split; [split; reflexivity |]. right.
  split; [reflexivity |]. split; [now apply str_in_In |].
  exists n. apply Z.ltb_ge in Hz. auto.
Qed.

Ltac run :=
  unfold bind, say, input, ret; cbn [emit data stdin disk fate trace].

Ltac with_update :=
  match goal with
  | |- context [update ?a ?b ?c ?W] =>
      let ok := fresh "ok" in
      let w' := fresh "w'" in
      let E := fresh "E" in
      let Hs := fresh "Hs" in
      let Hk := fresh "Hk" in
      let Hu := fresh "Hu" in
      let Hq := fresh "Hq" in
      destruct (int_update_effect a b c W)
        as (ok & w' & E & Hs & (Hk & Hq) & Hu);
      rewrite E; cbn [emit data stdin disk fate trace] in Hs, Hk, Hq, Hu
  end.

Ltac with_view :=
  match goal with
  | |- context [view_all_series ?W] =>
      let w' := fresh "w'" in
      let E := fresh "E" in
      let Hd := fresh "Hd" in
      let Hs := fresh "Hs" in
      let Hf := fresh "Hf" in
      let Hq := fresh "Hq" in
      destruct (int_view_effect W) as (w' & E & Hd & Hs & Hf & Hq);
      rewrite E; cbn [emit data stdin disk fate trace] in Hd, Hs, Hf, Hq
  end.

Lemma int_add_cases (w : world) :
  match handle_add_series w with
  | Returned true w' =>
      exists name_line chapter_line category_line n,
        stdin w = name_line :: chapter_line :: category_line :: stdin w'
        /\ strip name_line <> []
        /\ In (strip category_line) CATEGORIES
        /\ PyInt.int_of_str (strip chapter_line) = Some n
        /\ (0 <= n)%Z
        /\ data w'
           = dict_set (strip name_line) (entry n (strip category_line))
               (data w)
        /\ disk w' = disk w /\ fate w' = fate w
  | Returned false w' =>
      data w' = data w /\ disk w' = disk w /\ fate w' = fate w
      /\ (List.length (stdin w') < List.length (stdin w))%nat
  | Raised e w' =>
      e = EOFError /\ stdin w' = [] /\ data w' = data w
      /\ disk w' = disk w /\ fate w' = fate w
  | Exited _ => False
  end.
Proof.
  unfold handle_add_series. run.
  destruct (stdin w) as [| name_line rest1] eqn:E1; run; [auto |].
  destruct (is_nil (strip name_line)) eqn:Hn; run; [cbn; auto with arith |].
  destruct rest1 as [| chapter_line rest2]; run; [auto |].
  destruct rest2 as [| category_line rest3]; run; [auto |].
  with_update.
  destruct Hu as [(-> & Hd) | (-> & Hc & n & Hch & Hz & Hd)].
  - rewrite Hd, Hk, Hq, Hs. cbn. repeat split; auto with arith.
  - with_view. exists name_line, chapter_line, category_line, n.
    rewrite Hs0, Hs. split; [reflexivity |].
    split; [intros F; now rewrite F in Hn |].
    split; [exact Hc |]. split; [exact Hch |].
    split; [exact Hz |]. rewrite Hd0, Hf, Hq0, Hk, Hq, Hd.
    repeat split.
Qed.

Lemma int_quick_cases (w : world) :
  match handle_update_chapter w with
  | Returned true w' =>
      exists name_line chapter_line old cat n,
        stdin w = name_line :: chapter_line :: stdin w'
        /\ dict_get (strip name_line) (data w) = Some old
        /\ IntTracker.category old = Some cat
        /\ In cat CATEGORIES
        /\ PyInt.int_of_str (strip chapter_line) = Some n
        /\ (0 <= n)%Z
        /\ data w' = dict_set (strip name_line) (entry n cat) (data w)
        /\ disk w' = disk w /\ fate w' = fate w
  | Returned false w' =>
      data w' = data w /\ disk w' = disk w /\ fate w' = fate w
      /\ (List.length (stdin w') < List.length (stdin w))%nat
  | Raised EOFError w' =>
      stdin w' = [] /\ data w' = data w
      /\ disk w' = disk w /\ fate w' = fate w
  | Raised KeyError w' =>
      data w' = data w /\ disk w' = disk w /\ fate w' = fate w
      /\ exists name_line rest i,
           stdin w = name_line :: rest
           /\ dict_get (strip name_line) (data w) = Some i
           /\ ~ complete i
  | Exited _ => False
  end.
Proof.
  unfold handle_update_chapter. run.
  destruct (stdin w) as [| name_line rest1] eqn:E1; run; [auto |].
  destruct (dict_get (strip name_line) (data w)) as [old |] eqn:Hg; run;
    [| cbn; auto with arith].
  destruct (IntTracker.category old) as [cat |] eqn:Hcat.
  2: { cbn. split; [reflexivity |]. split; [reflexivity |].
       split; [reflexivity |].
       exists name_line, rest1, old. split; [reflexivity |].
       split; [exact Hg |]. unfold complete. intros [_ F]. now apply F. }
  destruct (chapter old) as [current |] eqn:Hcur.
  2: { cbn. split; [reflexivity |]. split; [reflexivity |].
       split; [reflexivity |].
       exists name_line, rest1, old. split; [reflexivity |].
       split; [exact Hg |]. unfold complete. intros [F _]. now apply F. }
  run. destruct rest1 as [| chapter_line rest2]; run; [auto |].
  with_update.
  destruct Hu as [(-> & Hd) | (-> & Hc & n & Hch & Hz & Hd)].
  - rewrite Hd, Hk, Hq, Hs. cbn. repeat split; auto with arith.
  - with_view. exists name_line, chapter_line, old, cat, n.
    rewrite Hs0, Hs. split; [reflexivity |]. split; [exact Hg |].
    split; [exact Hcat |]. split; [exact Hc |]. split; [exact Hch |].
    split; [exact Hz |]. rewrite Hd0, Hf, Hq0, Hk, Hq, Hd.
    repeat split.
Qed.

(** ** A session *)

Section IntSession.

Variable R : store -> store -> Prop.

Hypothesis R_refl : forall d, R d d.

Hypothesis R_trans : forall a b c, R a b -> R b c -> R a c.

Hypothesis R_set :
  forall d name n cat,
    In cat CATEGORIES -> (0 <= n)%Z -> R d (dict_set name (entry n cat) d).

(** Nothing is written before the loop ends, and it ends by [sys.exit]
    after one attempt to write the dictionary. *)
Lemma int_menu_loop_spec (turns : nat) (w : world) :
  (List.length (stdin w) < turns)%nat ->
  match menu_loop turns w with
  | Returned _ _ => False
  | Raised e w' =>
      disk w' = disk w /\ R (data w) (data w')
      /\ ((e = EOFError /\ stdin w' = [])
          \/ (e = KeyError
              /\ exists name i,
                   dict_get name (data w') = Some i /\ ~ complete i))
  | Exited w' =>
      disk w' = after (fate w 0) (data w') (disk w)
      /\ R (data w) (data w')
      /\ exists tr,
           trace w'
           = tr ++ [Write (data w');
                    Say (if Shell.fails (fate w 0) then ErrSaving
                         else SavedTo)]
  end.
Proof.
  revert w. induction turns as [| turns IH]; intros w Hlt; [lia |].
  cbn [menu_loop]. run.
  destruct (stdin w) as [| line rest] eqn:E; [auto 6 |].
  cbn [List.length] in Hlt.
  match goal with
  | |- context [{| data := data w; stdin := rest; disk := disk w;
                   fate := fate w; trace := ?t |}] =>
      set (W := {| data := data w; stdin := rest; disk := disk w;
                   fate := fate w; trace := t |})
  end.
  assert (Hgo : forall w1,
             (List.length (stdin w1) <= List.length rest)%nat ->
             disk w1 = disk w -> fate w1 = fate w ->
             R (data w) (data w1) ->
             match menu_loop turns w1 with
             | Returned _ _ => False
             | Raised e w' =>
                 disk w' = disk w /\ R (data w) (data w')
                 /\ ((e = EOFError /\ stdin w' = [])
                     \/ (e = KeyError
                         /\ exists name i,
                              dict_get name (data w') = Some i
                              /\ ~ complete i))
             | Exited w' =>
                 disk w' = after (fate w 0) (data w') (disk w)
                 /\ R (data w) (data w')
                 /\ exists tr,
                      trace w'
                      = tr ++ [Write (data w');
                               Say (if Shell.fails (fate w 0)
                                    then ErrSaving else SavedTo)]
             end).
  { intros w1 Hl Hk Hq HR. specialize (IH w1 ltac:(lia)).
    destruct (menu_loop turns w1) as [v w' | e w' | w']; [exact IH | |].
    - destruct IH as (? & ? & ?). split; [congruence |]. eauto.
    - destruct IH as (H1 & H2 & H3). rewrite Hk, Hq in *. eauto. }
  destruct (str_eqb (strip line) (txt "1")).
  { pose proof (int_add_cases W) as H.
    destruct (handle_add_series W) as [[|] w1 | e w1 | w1].
    - destruct H as (l1 & l2 & l3 & n & E1 & _ & Hc & _ & Hz & Hd & Hf
                     & Hq).
      apply Hgo; [cbn in E1; rewrite E1; cbn; lia | exact Hf | exact Hq |].
      rewrite Hd. now apply R_set.
    - destruct H as (Hd & Hf & Hq & Hl).
      apply Hgo; [cbn in Hl; lia | exact Hf | exact Hq
                 | rewrite Hd; apply R_refl].
    - destruct H as (-> & Hs & Hd & Hf & Hq).
      split; [exact Hf |]. split; [rewrite Hd; apply R_refl | auto].
    - destruct H. }
  destruct (str_eqb (strip line) (txt "2")).
  { pose proof (int_quick_cases W) as H.
    destruct (handle_update_chapter W) as [[|] w1 | [|] w1 | w1].
    - destruct H as (l1 & l2 & old & cat & n & E1 & _ & _ & Hc & _ & Hz
                     & Hd & Hf & Hq).
      apply Hgo; [cbn in E1; rewrite E1; cbn; lia | exact Hf | exact Hq |].
      rewrite Hd. now apply R_set.
    - destruct H as (Hd & Hf & Hq & Hl).
      apply Hgo; [cbn in Hl; lia | exact Hf | exact Hq
                 | rewrite Hd; apply R_refl].
    - destruct H as (Hs & Hd & Hf & Hq).
      split; [exact Hf |]. split; [rewrite Hd; apply R_refl | auto].
    - destruct H as (Hd & Hf & Hq & l & rest' & i & _ & Hg & Hi).
      split; [exact Hf |]. split; [rewrite Hd; apply R_refl |].
      right. split; [reflexivity |]. exists (strip l), i. rewrite Hd. auto.
    - destruct H. }
  destruct (str_eqb (strip line) (txt "3")).
  { destruct (int_view_effect W) as (w1 & E1 & Hd & Hs & Hf & Hq).
    rewrite E1.
    apply Hgo; [rewrite Hs; cbn; lia | exact Hf | exact Hq
               | rewrite Hd; apply R_refl]. }
  destruct (str_eqb (strip line) (txt "4")).
  { unfold save_series_data, exit. run.
    split; [reflexivity |]. split; [apply R_refl |].
    eexists. reflexivity. }
  apply Hgo; [cbn; lia | reflexivity | reflexivity | apply R_refl].
Qed.

Lemma int_main_menu_spec (lines : list str) (f : file)
  (fs : nat -> Shell.outcome) :
  match main_menu lines f fs with
  | Returned _ _ => False
  | Raised e w' =>
      disk w' = f /\ R (loaded f) (data w')
      /\ ((e = EOFError /\ stdin w' = [])
          \/ (e = KeyError
              /\ exists name i,
                   dict_get name (data w') = Some i /\ ~ complete i))
  | Exited w' =>
      disk w' = after (fs 0%nat) (data w') f
      /\ R (loaded f) (data w')
      /\ exists tr,
           trace w'
           = tr ++ [Write (data w');
                    Say (if Shell.fails (fs 0%nat) then ErrSaving
                         else SavedTo)]
  end.
Proof.
  assert (E : exists tr,
             main_menu lines f fs
             = menu_loop (S (List.length lines))
                 {| data := loaded f; stdin := lines; disk := f;
                    fate := fs; trace := tr |}).
  { unfold main_menu, load_series_data. run.
    destruct f; cbn; eexists; reflexivity. }
  destruct E as [tr E]. rewrite E.
  match goal with |- context [menu_loop ?n ?W] =>
    exact (int_menu_loop_spec n W ltac:(cbn; lia)) end.
Qed.

End IntSession.


Lemma int_session_end (lines : list str) (f : file)
  (fs : nat -> Shell.outcome) :
  match main_menu lines f fs with
  | Returned _ _ => False
  | Raised EOFError w' => disk w' = f /\ stdin w' = []
  | Raised KeyError w' =>
      disk w' = f
      /\ exists name i, dict_get name (data w') = Some i /\ ~ complete i
  | Exited w' =>
      disk w' = after (fs 0%nat) (data w') f
      /\ exists tr,
           trace w'
           = tr ++ [Write (data w');
                    Say (if Shell.fails (fs 0%nat) then ErrSaving
                         else SavedTo)]
  end.
Proof.
  pose proof (int_main_menu_spec (fun _ _ => True)) as H. cbv beta in H.
  do 3 specialize (H ltac:(auto)). specialize (H lines f fs).
  destruct (main_menu lines f fs) as [v w' | [|] w' | w'].
  - exact H.
  - destruct H as (H1 & _ & [[_ H] | [H _]]); [auto | discriminate H].
  - destruct H as (H1 & _ & [[H _] | [_ H]]); [discriminate H | auto].
  - tauto.
Qed.

Lemma int_session_records (lines : list str) (f : file)
  (fs : nat -> Shell.outcome) :
  (exists added,
     keys (data (final (main_menu lines f fs))) = keys (loaded f) ++ added)
  /\ forall name i,
       dict_get name (data (final (main_menu lines f fs))) = Some i ->
       dict_get name (loaded f) = Some i
       \/ exists cat n, i = entry n cat /\ In cat CATEGORIES /\ (0 <= n)%Z.
Proof.
  pose proof
    (int_main_menu_spec
       (fun d d' =>
          (exists added, keys d' = keys d ++ added)
          /\ forall name i,
               dict_get name d' = Some i ->
               dict_get name d = Some i
               \/ exists cat n,
                    i = entry n cat /\ In cat CATEGORIES /\ (0 <= n)%Z))
    as H.
  cbv beta in H.
  specialize
    (H ltac:(intros d; split;
             [exists []; now rewrite app_nil_r | intros k i Hi; now left])).
  specialize
    (H ltac:(intros a b c [[ad1 K1] G1] [[ad2 K2] G2]; split;
             [exists (ad1 ++ ad2); rewrite K2, K1; now rewrite app_assoc
             | intros k i Hi; destruct (G2 k i Hi) as [Hb | Hgood];
               [auto | now right]])).
  specialize
    (H ltac:(intros d name n cat Hc Hz; split;
             [apply QuickShellFacts.keys_set_grow
             | intros k i Hi;
               apply QuickShellFacts.dict_get_set_cases in Hi;
               destruct Hi as [[_ ->] | Hi];
               [right; now exists cat, n | now left]])).
  specialize (H lines f fs).
  destruct (main_menu lines f fs) as [v w' | e w' | w'];
    cbn [final data] in *.
  - destruct H.
  - tauto.
  - tauto.
Qed.

(** ** The properties *)

(** X29. The oldest tracker tries to write the data file only when the
    user leaves by the menu.  [main_menu] ends by [EOFError] at the end
    of the input or by [KeyError] for a record that lacks a key, and the
    file is then as it was found, whatever has been added or changed in
    the session; or it ends by [sys.exit] after one attempt to write the
    dictionary, the first of the session: the file holds the dictionary
    and the program says so when the attempt completes; when it fails
    the program prints the error, and the file is as it was found (it
    could not be opened), holds no JSON (the write broke off) or holds
    the dictionary (the error came when the file was closed). *)
Theorem int_session_saves_only_on_exit (lines : list str) (f : file)
  (fs : nat -> Shell.outcome) :
  match main_menu lines f fs with
  | Returned _ _ => False
  | Raised EOFError w' => disk w' = f /\ stdin w' = []
  | Raised KeyError w' =>
      disk w' = f
      /\ exists name i, dict_get name (data w') = Some i /\ ~ complete i
  | Exited w' =>
      disk w' = after (fs 0%nat) (data w') f
      /\ exists tr,
           trace w'
           = tr ++ [Write (data w');
                    Say (if Shell.fails (fs 0%nat) then ErrSaving
                         else SavedTo)]
  end.
Proof. exact (int_session_end lines f fs). Qed.

(** X30. A session of the oldest tracker removes and renames nothing,
    and a record of the dictionary at its end is a loaded record as it
    was, or has one of the categories and a chapter that is an [int] not
    below zero. *)
Theorem int_session_writes_valid_records (lines : list str) (f : file)
  (fs : nat -> Shell.outcome) :
  (exists added,
     keys (data (final (main_menu lines f fs))) = keys (loaded f) ++ added)
  /\ forall name i,
       dict_get name (data (final (main_menu lines f fs))) = Some i ->
       dict_get name (loaded f) = Some i
       \/ exists cat n, i = entry n cat /\ In cat CATEGORIES /\ (0 <= n)%Z.
Proof. exact (int_session_records lines f fs). Qed.

End IntTrackerFacts.
